(** * The content acquisition engine of skills-generator

    A shallow embedding of the URL validator ([lib/url-validator.ts]),
    the recursive crawler ([lib/crawler.ts]), the fetcher it calls
    ([lib/hyperbrowser.ts]) and the topic cache ([lib/cache.ts]),
    then of what surrounds them: the web search ([lib/serper.ts]), the
    choice of sources by the request handler
    ([app/api/generate/route.ts]) and two helpers of the generation
    passes ([lib/anthropic.ts]); with the properties of the engine
    proved about the embedding.

    Conventions.
    - JavaScript strings are modelled as byte strings; case folding and
      white space are the ASCII ones.
    - JavaScript numbers that hold counts, status codes and
      milliseconds are integers ([Z]); the score of a source, which
      has halves, is a rational ([Q]).
    - An optional field is an [option]; [undefined] is [None].
    - [console.log] and friends have no counterpart. *)

From Stdlib Require Import ZArith Lia Ascii QArith Lqa Sorted.
From stdpp Require Import base option list strings pretty gmap.

Open Scope Z_scope.

(** ** String methods of the JavaScript runtime *)

Module Js.

Definition startsWith (s p : string) : bool := String.prefix p s.

Fixpoint includes (s p : string) : bool :=
  String.prefix p s ||
  match s with
  | EmptyString => false
  | String _ s' => includes s' p
  end.

Definition endsWith (s p : string) : bool :=
  let n := String.length s in
  let m := String.length p in
  (m <=? n)%nat && String.eqb (String.substring (n - m) m s) p.

Definition lowerChar (c : ascii) : ascii :=
  let n := nat_of_ascii c in
  if (65 <=? n)%nat && (n <=? 90)%nat then ascii_of_nat (n + 32) else c.

Fixpoint toLowerCase (s : string) : string :=
  match s with
  | EmptyString => EmptyString
  | String c s' => String (lowerChar c) (toLowerCase s')
  end.

(** White space as [String.prototype.trim] and the regular expression
    class [\s] see it, restricted to ASCII: space, tab, line feed,
    vertical tab, form feed, carriage return. *)
Definition isSpace (c : ascii) : bool :=
  let n := nat_of_ascii c in
  (n =? 32)%nat || ((9 <=? n)%nat && (n <=? 13)%nat).

Fixpoint trimStart (s : string) : string :=
  match s with
  | EmptyString => EmptyString
  | String c s' => if isSpace c then trimStart s' else s
  end.

Definition reverse (s : string) : string :=
  String.string_of_list_ascii (rev (String.list_ascii_of_string s)).

Definition trimEnd (s : string) : string := reverse (trimStart (reverse s)).

Definition trim (s : string) : string := trimEnd (trimStart s).

(** [a || b] on an optional string: the empty string is falsy too. *)
Definition orElse (a : option string) (b : string) : string :=
  match a with
  | Some s => if String.eqb s "" then b else s
  | None => b
  end.

(** [!s] on an optional string. *)
Definition falsy (a : option string) : bool :=
  match a with
  | Some s => String.eqb s ""
  | None => true
  end.

(** [Array.prototype.slice(start, end)] with its treatment of negative
    and out-of-range indices. *)
Definition clampIndex (len i : Z) : Z :=
  if i <? 0 then Z.max (len + i) 0 else Z.min i len.

Definition slice {A} (l : list A) (start stop : Z) : list A :=
  let len := Z.of_nat (length l) in
  let a := clampIndex len start in
  let b := clampIndex len stop in
  take (Z.to_nat (b - a)) (drop (Z.to_nat a) l).

(** [[...new Set(l)]]: first occurrences, in order. *)
Fixpoint dedupe (seen l : list string) : list string :=
  match l with
  | [] => []
  | x :: l' =>
      if bool_decide (x ∈ seen) then dedupe seen l'
      else x :: dedupe (x :: seen) l'
  end.

(** What a [throw] can carry, as far as the handlers of this code base
    look at it: an [Error] object (possibly a [TypeError]) with its
    [name] and [message], or some other value. *)
Inductive Thrown : Type :=
| ErrorObject (isTypeError : bool) (name message : string)
| OtherValue.

Definition instanceofError (e : Thrown) : bool :=
  match e with ErrorObject _ _ _ => true | OtherValue => false end.

Definition instanceofTypeError (e : Thrown) : bool :=
  match e with ErrorObject b _ _ => b | OtherValue => false end.

Definition name (e : Thrown) : string :=
  match e with ErrorObject _ n _ => n | OtherValue => "" end.

Definition message (e : Thrown) : string :=
  match e with ErrorObject _ _ m => m | OtherValue => "" end.

(** The rejection of [fetch] when its [AbortController] fires: a
    [DOMException] named [AbortError]. *)
Definition abortError : Thrown :=
  ErrorObject false "AbortError" "This operation was aborted".

End Js.

(** ** The URL class of the platform

    [new URL(s)] and [new URL(rel, base)] are the WHATWG parser of the
    runtime; it is taken as an interface.  [None] stands for the
    [TypeError] the constructor throws.  A parsed URL never has an empty
    [href]. *)

Record URL : Type := mkURL {
  href : string;
  origin : string;
  hostname : string;
  pathname : string
}.

Class UrlApi : Type := {
  newURL : string → option URL;
  newURLFrom : string → string → option URL;
  newURLFrom_href rel base u : newURLFrom rel base = Some u → href u ≠ ""
}.

(** An instance for plain absolute URLs, [http(s)://host[:port][/path][?query][#fragment]]
    written in lower case, without credentials, default ports, dot
    segments or characters that need escaping: on those the parser of
    the platform returns the parts as they are written.  It is used to
    evaluate the engine on concrete URLs. *)

Module PlainUrl.

Fixpoint span (p : ascii → bool) (s : string) : string * string :=
  match s with
  | EmptyString => (EmptyString, EmptyString)
  | String c s' =>
      if p c then let '(a, b) := span p s' in (String c a, b)
      else (EmptyString, s)
  end.

Definition isDelimiter (c : ascii) : bool :=
  Ascii.eqb c "/" || Ascii.eqb c "?" || Ascii.eqb c "#".

Definition parseAfterScheme (scheme rest : string) : option URL :=
  let '(authority, after) := span (λ c, negb (isDelimiter c)) rest in
  if String.eqb authority "" then None
  else
    let '(path, tail) :=
      span (λ c, negb (Ascii.eqb c "?" || Ascii.eqb c "#")) after in
    let pathname := if String.eqb path "" then "/" else path in
    let '(host, _) := span (λ c, negb (Ascii.eqb c ":")) authority in
    Some {| href := scheme +:+ "://" +:+ authority +:+ pathname +:+ tail;
            origin := scheme +:+ "://" +:+ authority;
            hostname := host;
            pathname := pathname |}.

Definition parse (s : string) : option URL :=
  if String.prefix "https://" s then
    parseAfterScheme "https" (String.substring 8 (String.length s - 8) s)
  else if String.prefix "http://" s then
    parseAfterScheme "http" (String.substring 7 (String.length s - 7) s)
  else None.

(** [new URL(rel, base)] for an absolute [rel], for one that starts
    with two slashes, which takes the scheme of the base, and for one
    that starts with a single slash, which takes its origin. *)
Definition parseFrom (rel base : string) : option URL :=
  match parse rel with
  | Some u => Some u
  | None =>
      match parse base with
      | Some b =>
          if String.prefix "//" rel then
            parse ((if String.prefix "https://" (origin b) then "https:" else "http:")
                   +:+ rel)
          else if String.prefix "/" rel then parse (origin b +:+ rel)
          else None
      | None => None
      end
  end.

Lemma parseAfterScheme_href scheme rest u :
  scheme ≠ "" → parseAfterScheme scheme rest = Some u → href u ≠ "".
Proof.
  unfold parseAfterScheme. intros Hs.
  destruct (span _ rest) as [authority after].
  destruct (String.eqb authority ""); [done|].
  destruct (span _ after) as [path tail].
  destruct (span _ authority) as [host ?].
  intros [= <-]. simpl. destruct scheme; [done|]. done.
Qed.

Lemma parse_href s u : parse s = Some u → href u ≠ "".
Proof.
  unfold parse. repeat case_match; try done;
    apply parseAfterScheme_href; done.
Qed.

Lemma parseFrom_href rel base u : parseFrom rel base = Some u → href u ≠ "".
Proof.
  unfold parseFrom. destruct (parse rel) as [r|] eqn:Hrel.
  - intros [= <-]. by eapply parse_href.
  - destruct (parse base) as [b|]; [|done].
    destruct (String.prefix "//" rel); [apply parse_href|].
    destruct (String.prefix "/" rel); [apply parse_href|done].
Qed.

#[export] Instance api : UrlApi :=
  {| newURL := parse; newURLFrom := parseFrom; newURLFrom_href := parseFrom_href |}.

End PlainUrl.

(** ** The URL validator ([lib/url-validator.ts]) *)

Module Validator.

Record ValidationResult : Type := mkResult {
  url : string;
  valid : bool;
  status : Z;
  finalUrl : option string;
  error : option string;
  checkedAt : Z
}.

Record ValidationOptions : Type := mkOptions {
  concurrency : option Z;
  timeout : option Z;
  maxRedirects : option Z;
  retries : option Z
}.

Record Config : Type := mkConfig {
  cfg_concurrency : Z;
  cfg_timeout : Z;
  cfg_maxRedirects : Z;
  cfg_retries : Z
}.

Definition DEFAULT_CONFIG : Config :=
  {| cfg_concurrency := 10; cfg_timeout := 5000;
     cfg_maxRedirects := 3; cfg_retries := 1 |}.

(** [{ ...DEFAULT_CONFIG, ...options }] *)
Definition withDefaults (options : ValidationOptions) : Config :=
  {| cfg_concurrency := default (cfg_concurrency DEFAULT_CONFIG) (concurrency options);
     cfg_timeout := default (cfg_timeout DEFAULT_CONFIG) (timeout options);
     cfg_maxRedirects := default (cfg_maxRedirects DEFAULT_CONFIG) (maxRedirects options);
     cfg_retries := default (cfg_retries DEFAULT_CONFIG) (retries options) |}.

Definition noOptions : ValidationOptions :=
  {| concurrency := None; timeout := None; maxRedirects := None; retries := None |}.

Definition MAX_CACHE_SIZE : Z := 1000.
Definition CACHE_TTL : Z := 5 * 60 * 1000.

Record CacheEntry : Type := mkEntry {
  result : ValidationResult;
  expiresAt : Z
}.

(** [validationCache] is a JavaScript [Map]: it keeps its keys in
    insertion order, which the eviction of [setCache] relies on.  It is
    an association list with the [Map] operations below. *)
Definition Cache : Type := list (string * CacheEntry).

Fixpoint mapGet (key : string) (c : Cache) : option CacheEntry :=
  match c with
  | [] => None
  | (k, e) :: c' => if String.eqb k key then Some e else mapGet key c'
  end.

Definition mapHas (key : string) (c : Cache) : bool :=
  match mapGet key c with Some _ => true | None => false end.

Fixpoint mapReplace (key : string) (e : CacheEntry) (c : Cache) : Cache :=
  match c with
  | [] => []
  | (k, e') :: c' =>
      if String.eqb k key then (k, e) :: c' else (k, e') :: mapReplace key e c'
  end.

(** [Map.prototype.set]: an existing key keeps its place. *)
Definition mapSet (key : string) (e : CacheEntry) (c : Cache) : Cache :=
  if mapHas key c then mapReplace key e c else c ++ [(key, e)].

Fixpoint mapDelete (key : string) (c : Cache) : Cache :=
  match c with
  | [] => []
  | (k, e) :: c' =>
      if String.eqb k key then c' else (k, e) :: mapDelete key c'
  end.

(** *** The response of a probe *)

Module Response.
Record t : Type := make { status : Z; location : option string }.
End Response.

Inductive Method : Type := HEAD | GET.

(** *** Operations of the runtime

    The validator is an [async] function; what it does to the outside
    is a sequence of operations.  Three of them are [await]s, where the
    function is suspended and other tasks may run: a [fetch] armed with
    an abort timer, a [setTimeout] wrapped in a promise, and the
    [await] of the promise of a nested call once that call has
    returned.  The others run without suspension. *)

Inductive Op : Type :=
| DateNow
| CacheGet (key : string)
| CacheSet (key : string) (e : CacheEntry)
| CacheDelete (key : string)
| CacheSize
| CacheEntries
| Fetch (u : string) (m : Method) (timeoutMs : Z)
| Sleep (ms : Z)
| AwaitCall.

Definition answer (op : Op) : Type :=
  match op with
  | DateNow => Z
  | CacheGet _ => option CacheEntry
  | CacheSet _ _ => unit
  | CacheDelete _ => unit
  | CacheSize => Z
  | CacheEntries => Cache
  | Fetch _ _ _ => Response.t + Js.Thrown
  | Sleep _ => unit
  | AwaitCall => unit
  end.

Definition isAwait (op : Op) : bool :=
  match op with
  | Fetch _ _ _ | Sleep _ | AwaitCall => true
  | _ => false
  end.

(** A task: the tree of the operations a call may perform, each with
    the continuation that receives its answer, ending in a returned
    value or a thrown one. *)
Inductive Task (A : Type) : Type :=
| Ret (a : A)
| Throw (e : Js.Thrown)
| Do (op : Op) (k : answer op → Task A).

Arguments Ret {A} a.
Arguments Throw {A} e.
Arguments Do {A} op k.

Fixpoint bind {A B} (t : Task A) (f : A → Task B) : Task B :=
  match t with
  | Ret a => f a
  | Throw e => Throw e
  | Do op k => Do op (λ x, bind (k x) f)
  end.

#[export] Instance task_ret : MRet Task := @Ret.
#[export] Instance task_bind : MBind Task := λ A B f t, bind t f.

(** [try { t } catch (e) { h e }] *)
Fixpoint tryCatch {A} (t : Task A) (h : Js.Thrown → Task A) : Task A :=
  match t with
  | Ret a => Ret a
  | Throw e => h e
  | Do op k => Do op (λ x, tryCatch (k x) h)
  end.

Definition call (op : Op) : Task (answer op) := Do op Ret.

Fixpoint forEach {A} (l : list A) (f : A → Task unit) : Task unit :=
  match l with
  | [] => Ret tt
  | x :: l' => f x ;; forEach l' f
  end.

(** [await fetch(url, { method, redirect: 'manual', signal })] *)
Definition fetch (u : string) (m : Method) (timeoutMs : Z) : Task Response.t :=
  Do (Fetch u m timeoutMs)
     (λ o, match o with inl r => Ret r | inr e => Throw e end).

(** *** The cache functions *)

Definition cleanCache : Task unit :=
  now ← call DateNow;
  entries ← call CacheEntries;
  forEach entries (λ kv,
    if expiresAt kv.2 <? now then call (CacheDelete kv.1) else Ret tt).

Definition getCached (url : string) : Task (option ValidationResult) :=
  cached ← call (CacheGet url);
  match cached with
  | Some c =>
      now ← call DateNow;
      if now <? expiresAt c then Ret (Some (result c))
      else call (CacheDelete url) ;; Ret None
  | None => call (CacheDelete url) ;; Ret None
  end.

Definition setCache (url : string) (result : ValidationResult) : Task unit :=
  size ← call CacheSize;
  (if MAX_CACHE_SIZE <=? size then
     cleanCache ;;
     size' ← call CacheSize;
     if MAX_CACHE_SIZE <=? size' then
       let entriesToRemove := size' - MAX_CACHE_SIZE + 1 in
       entries ← call CacheEntries;
       let keysToRemove := Js.slice (entries.*1) 0 entriesToRemove in
       forEach keysToRemove (λ key, call (CacheDelete key))
     else Ret tt
   else Ret tt) ;;
  now ← call DateNow;
  call (CacheSet url {| result := result; expiresAt := now + CACHE_TTL |}).

(** *** [validateUrl] *)

Section ValidateUrl.

Context `{UrlApi}.

(** Lines 411-422: the target of a redirect. *)
Definition resolveRedirect (url location : string) : string :=
  if negb (Js.startsWith location "http") then
    match newURL url with
    | Some base =>
        match newURLFrom location (origin base) with
        | Some target => href target
        | None => location
        end
    | None => location
    end
  else location.

(** Lines 357-394 of the [try] block: the HEAD probe and, when the
    server refuses the method, the ranged GET. *)
Definition probe (url : string) (timeout : Z) : Task Response.t :=
  response ← fetch url HEAD timeout;
  if (Response.status response =? 405) || (Response.status response =? 501)
  then tryCatch (fetch url GET timeout) (λ error, Throw error)
  else Ret response.

(** Lines 396-466 of the [try] block: what the response means.
    [follow] is the recursive call when [maxRedirects > 0], and nothing
    otherwise. *)
Definition interpret (follow : option (string → Task ValidationResult))
    (url : string) (response : Response.t) : Task ValidationResult :=
  if (300 <=? Response.status response) && (Response.status response <? 400) then
    if Js.falsy (Response.location response) then
      now ← call DateNow;
      let result :=
        {| url := url; valid := false; status := Response.status response;
           finalUrl := None;
           error := Some "Redirect with no Location header";
           checkedAt := now |} in
      setCache url result ;; Ret result
    else
      let location := default "" (Response.location response) in
      let redirectUrl := resolveRedirect url location in
      match follow with
      | Some validateUrl =>
          redirectResult ← validateUrl redirectUrl;
          call AwaitCall ;;
          now ← call DateNow;
          let result :=
            {| url := url; valid := valid redirectResult;
               status := Response.status response;
               finalUrl := Some (Js.orElse (finalUrl redirectResult) redirectUrl);
               error := error redirectResult;
               checkedAt := now |} in
          setCache url result ;; Ret result
      | None =>
          now ← call DateNow;
          let result :=
            {| url := url; valid := false; status := Response.status response;
               finalUrl := None;
               error := Some "Too many redirects";
               checkedAt := now |} in
          setCache url result ;; Ret result
      end
  else
    let valid := (200 <=? Response.status response) && (Response.status response <? 300) in
    now ← call DateNow;
    let result :=
      {| url := url; valid := valid; status := Response.status response;
         finalUrl := None;
         error := if valid then None
                  else Some ("HTTP " +:+ pretty (Response.status response));
         checkedAt := now |} in
    setCache url result ;; Ret result.

(** The body of the [try] block. *)
Definition attempt (follow : option (string → Task ValidationResult))
    (url : string) (timeout : Z) : Task ValidationResult :=
  response ← probe url timeout;
  interpret follow url response.

(** The [catch] block, lines 468-484: the message kept in [lastError]
    and whether the loop is left ([break]). *)
Definition classify (error : Js.Thrown) : string * bool :=
  if Js.instanceofTypeError error && Js.includes (Js.message error) "fetch" then
    ("Network error: " +:+ Js.message error, false)
  else if Js.instanceofError error && String.eqb (Js.name error) "AbortError" then
    ("Request timeout", true)
  else if Js.instanceofError error && Js.includes (Js.message error) "fetch" then
    ("HTTP request failed: " +:+ Js.message error, false)
  else
    (if Js.instanceofError error then Js.message error else "Unknown error", true).

(** Lines 493-503, after the loop. *)
Definition allRetriesFailed (url : string) (lastError : option string)
    : Task ValidationResult :=
  now ← call DateNow;
  let result :=
    {| url := url; valid := false; status := 0; finalUrl := None;
       error := Some (Js.orElse lastError "Request failed");
       checkedAt := now |} in
  setCache url result ;; Ret result.

(** The loop [for (let attempt = 0; attempt <= retries; attempt++)],
    lines 355-491.  [remaining] is the number of iterations left,
    [retries + 1 - attempt] when that is positive. *)
Fixpoint retryLoop (follow : option (string → Task ValidationResult))
    (url : string) (timeout retries : Z)
    (remaining : nat) (attemptNo : Z) (lastError : option string)
    : Task ValidationResult :=
  match remaining with
  | O => allRetriesFailed url lastError
  | S remaining' =>
      tryCatch (attempt follow url timeout) (λ error,
        let '(lastError', break) := classify error in
        if break then allRetriesFailed url (Some lastError')
        else
          (if (attemptNo <? retries) && negb (Js.includes lastError' "timeout")
           then call (Sleep 500) else Ret tt) ;;
          retryLoop follow url timeout retries remaining' (attemptNo + 1)
                    (Some lastError'))
  end.

(** [validateUrl] recurses on [maxRedirects]: [budget] is that option
    as a natural number (a value below 0 counts as 0), so that the test
    [maxRedirects > 0] is the test that [budget] is a successor and
    [maxRedirects - 1] is its predecessor.  The other options are the
    same in every nested call. *)
Fixpoint validateUrlAt (budget : nat) (timeout retries : Z) (url : string)
    : Task ValidationResult :=
  cached ← getCached url;
  match cached with
  | Some r => Ret r
  | None =>
      retryLoop
        (match budget with
         | O => None
         | S budget' => Some (validateUrlAt budget' timeout retries)
         end)
        url timeout retries (Z.to_nat (retries + 1)) 0 None
  end.

Definition validateUrl (url : string) (options : ValidationOptions)
    : Task ValidationResult :=
  let cfg := withDefaults options in
  validateUrlAt (Z.to_nat (cfg_maxRedirects cfg)) (cfg_timeout cfg)
                (cfg_retries cfg) url.

End ValidateUrl.

(** *** Running tasks

    The environment answers what the code cannot decide: the clock and
    the network.  Both are indexed by the number of questions asked so
    far ([tick]), so that an answer may depend on everything that
    happened before it.  [interleaving] gives, for a batch started at a
    tick, the order in which the runtime wakes the suspended members
    (by position in the batch). *)

Record Env : Type := mkEnv {
  clock : nat → Z;
  net : nat → string → Method → Z → Response.t + Js.Thrown;
  interleaving : nat → list nat
}.

(** The state: the process-wide cache, the number of answers given by
    the environment, and the awaits completed so far, oldest first. *)
Record World : Type := mkWorld {
  cache : Cache;
  tick : nat;
  trace : list Op
}.

Definition initialWorld : World := {| cache := []; tick := 0; trace := [] |}.

Definition withCache (c : Cache) (w : World) : World :=
  {| cache := c; tick := tick w; trace := trace w |}.

Definition ticked (w : World) : World :=
  {| cache := cache w; tick := S (tick w); trace := trace w |}.

Definition logged (op : Op) (w : World) : World :=
  {| cache := cache w; tick := tick w; trace := trace w ++ [op] |}.

Section Run.

Context (env : Env).

Definition perform (op : Op) (w : World) : answer op * World :=
  match op return answer op * World with
  | DateNow => (clock env (tick w), ticked w)
  | CacheGet key => (mapGet key (cache w), w)
  | CacheSet key e => (tt, withCache (mapSet key e (cache w)) w)
  | CacheDelete key => (tt, withCache (mapDelete key (cache w)) w)
  | CacheSize => (Z.of_nat (length (cache w)), w)
  | CacheEntries => (cache w, w)
  | Fetch u m ms => (net env (tick w) u m ms, ticked (logged (Fetch u m ms) w))
  | Sleep ms => (tt, logged (Sleep ms) w)
  | AwaitCall => (tt, w)
  end.

(** One task run alone, from its call to its return. *)
Fixpoint run {A} (t : Task A) (w : World) : (A + Js.Thrown) * World :=
  match t with
  | Ret a => (inl a, w)
  | Throw e => (inr e, w)
  | Do op k => let '(x, w') := perform op w in run (k x) w'
  end.

(** Tasks run together: a member of a batch is either settled or
    suspended at an [await]. *)
Inductive Slot (A : Type) : Type :=
| Settled (r : A + Js.Thrown)
| Waiting (op : Op) (k : answer op → Task A).

Arguments Settled {A} r.
Arguments Waiting {A} op k.

(** Run a task up to its next [await]. *)
Fixpoint advance {A} (t : Task A) (w : World) : Slot A * World :=
  match t with
  | Ret a => (Settled (inl a), w)
  | Throw e => (Settled (inr e), w)
  | Do op k =>
      if isAwait op then (Waiting op k, w)
      else let '(x, w') := perform op w in advance (k x) w'
  end.

(** The awaited operation completes and the task goes on to its next
    [await]. *)
Definition resume {A} (s : Slot A) (w : World) : Slot A * World :=
  match s with
  | Settled r => (Settled r, w)
  | Waiting op k => let '(x, w') := perform op w in advance (k x) w'
  end.

(** [batch.map(f)] on an [async] function [f]: every call runs up to
    its first [await], in order. *)
Fixpoint startAll {A} (ts : list (Task A)) (w : World) : list (Slot A) * World :=
  match ts with
  | [] => ([], w)
  | t :: ts' =>
      let '(s, w1) := advance t w in
      let '(ss, w2) := startAll ts' w1 in
      (s :: ss, w2)
  end.

(** The runtime wakes the members in the order [order] gives. *)
Fixpoint drive {A} (order : list nat) (slots : list (Slot A)) (w : World)
    : list (Slot A) * World :=
  match order with
  | [] => (slots, w)
  | i :: order' =>
      match slots !! i with
      | Some s =>
          let '(s', w') := resume s w in
          drive order' (<[i := s']> slots) w'
      | None => drive order' slots w
      end
  end.

Definition settle {A} (s : Slot A) (w : World) : (A + Js.Thrown) * World :=
  match s with
  | Settled r => (r, w)
  | Waiting op k => let '(x, w') := perform op w in run (k x) w'
  end.

(** Once [order] is used up, the members still suspended complete one
    after the other. *)
Fixpoint settleAll {A} (slots : list (Slot A)) (w : World)
    : list (A + Js.Thrown) * World :=
  match slots with
  | [] => ([], w)
  | s :: slots' =>
      let '(r, w1) := settle s w in
      let '(rs, w2) := settleAll slots' w1 in
      (r :: rs, w2)
  end.

(** The value of [Promise.all]: the values of the members by position,
    or a rejection if a member rejected. *)
Fixpoint collect {A} (rs : list (A + Js.Thrown)) : list A + Js.Thrown :=
  match rs with
  | [] => inl []
  | inr e :: _ => inr e
  | inl a :: rs' =>
      match collect rs' with
      | inl l => inl (a :: l)
      | inr e => inr e
      end
  end.

(** [await Promise.all(ts)] *)
Definition promiseAll {A} (ts : list (Task A)) (w : World)
    : (list A + Js.Thrown) * World :=
  let order := interleaving env (tick w) in
  let '(slots, w1) := startAll ts w in
  let '(slots', w2) := drive order slots w1 in
  let '(rs, w3) := settleAll slots' w2 in
  (collect rs, w3).

(** *** [validateUrls] *)

Context `{UrlApi}.

(** The loop [for (let i = 0; i < urls.length; i += concurrency)],
    lines 545-551.  It does not end for every [concurrency]; [fuel]
    bounds the number of iterations and [None] is the loop still
    running when the fuel is used up. *)
Fixpoint batchLoop (fuel : nat) (urls : list string) (options : ValidationOptions)
    (concurrency i : Z) (results : list ValidationResult) (w : World)
    : option ((list ValidationResult + Js.Thrown) * World) :=
  if i <? Z.of_nat (length urls) then
    match fuel with
    | O => None
    | S fuel' =>
        let batch := Js.slice urls i (i + concurrency) in
        match promiseAll (map (λ url, validateUrl url options) batch) w with
        | (inl batchResults, w') =>
            batchLoop fuel' urls options concurrency (i + concurrency)
                      (results ++ batchResults) w'
        | (inr e, w') => Some (inr e, w')
        end
    end
  else Some (inl results, w).

Definition validateUrls (fuel : nat) (urls : list string)
    (options : ValidationOptions) (w : World)
    : option ((list ValidationResult + Js.Thrown) * World) :=
  let concurrency := cfg_concurrency (withDefaults options) in
  let w := (run cleanCache w).2 in
  if (length urls =? 0)%nat then Some (inl [], w)
  else batchLoop fuel urls options concurrency 0 [] w.

(** The batches in the words of the specification: [urls] cut into
    consecutive chunks of [size] URLs (the last one may be shorter),
    each validated by one [Promise.all] that is awaited before the
    next chunk starts. *)
Fixpoint chunksOf (fuel size : nat) (urls : list string) : list (list string) :=
  match fuel, urls with
  | O, _ | _, [] => []
  | S fuel', _ => take size urls :: chunksOf fuel' size (drop size urls)
  end.

Definition chunks (size : nat) (urls : list string) : list (list string) :=
  chunksOf (length urls) size urls.

Fixpoint runChunks (batches : list (list string)) (options : ValidationOptions)
    (results : list ValidationResult) (w : World)
    : (list ValidationResult + Js.Thrown) * World :=
  match batches with
  | [] => (inl results, w)
  | batch :: batches' =>
      match promiseAll (map (λ url, validateUrl url options) batch) w with
      | (inl batchResults, w') =>
          runChunks batches' options (results ++ batchResults) w'
      | (inr e, w') => (inr e, w')
      end
  end.

End Run.

Arguments Settled {A} r.
Arguments Waiting {A} op k.

End Validator.

(** ** The fetcher ([lib/hyperbrowser.ts]) and the crawler ([lib/crawler.ts]) *)

Module Crawler.

Record ScrapedContent : Type := mkContent {
  url : string;
  markdown : string;
  success : bool;
  error : option string;
  isPaywalled : option bool;
  fallbackUsed : option bool;
  crawledAt : Z;
  _paywalledUrls : option (list string)
}.

(** Truthiness of an optional flag. *)
Definition truthy (b : option bool) : bool := default false b.

Definition strlen (s : string) : Z := Z.of_nat (String.length s).

(** *** The paywall score of the fetcher *)

Definition PAYWALL_THRESHOLD : Z := 50.
Definition MIN_CONTENT_LENGTH : Z := 300.
Definition SUBSTANTIAL_CONTENT_LENGTH : Z := 1000.

Definition PAYWALL_KEYWORDS_high : list string :=
  ["subscription required"; "access denied"; "authentication required"; "paywall"].
Definition PAYWALL_KEYWORDS_medium : list string :=
  ["premium"; "sign up to read"; "create an account"; "subscribe to continue"].
Definition PAYWALL_KEYWORDS_low : list string :=
  ["sign in"; "signin"; "login"; "please log in"; "subscribe"].

(** [(s.match(new RegExp(p, 'g')) || []).length] for a pattern without
    special characters: the occurrences of [p] met from left to right,
    each starting after the end of the one before.  [skip] counts the
    characters of the current occurrence still to pass. *)
Fixpoint countMatches (p s : string) (skip : nat) : Z :=
  match s with
  | EmptyString => 0
  | String _ s' =>
      match skip with
      | S skip' => countMatches p s' skip'
      | O =>
          if String.prefix p s
          then 1 + countMatches p s' (String.length p - 1)
          else countMatches p s' 0
      end
  end.

Definition occurrences (lowerContent keyword : string) : Z :=
  countMatches (Js.toLowerCase keyword) lowerContent 0.

Definition sumZ (l : list Z) : Z := foldr Z.add 0 l.

(** The density test [(matches / length) * 100 > 2] is a comparison of
    floating-point numbers in the source; it is stated on the integers,
    with which it agrees for every content shorter than 2^45
    characters. *)
Definition calculatePaywallScore (content url : string) : Z :=
  let lowerContent := Js.toLowerCase content in
  let contentLength := strlen content in
  let score0 :=
    if contentLength <? MIN_CONTENT_LENGTH then 40
    else if contentLength <? SUBSTANTIAL_CONTENT_LENGTH then 15
    else 0 in
  let score1 :=
    sumZ (map (λ keyword,
                 let n := occurrences lowerContent keyword in
                 if 0 <? n then 30 * Z.min n 2 else 0)
              PAYWALL_KEYWORDS_high) in
  let score2 :=
    sumZ (map (λ keyword,
                 let n := occurrences lowerContent keyword in
                 if 0 <? n then 15 * Z.min n 2 else 0)
              PAYWALL_KEYWORDS_medium) in
  let score3 :=
    sumZ (map (λ keyword,
                 if 2 <=? occurrences lowerContent keyword then 10 else 0)
              PAYWALL_KEYWORDS_low) in
  let score4 :=
    if 200 <? contentLength then
      let totalKeywordMatches :=
        sumZ (map (occurrences lowerContent)
                  (PAYWALL_KEYWORDS_high ++ PAYWALL_KEYWORDS_medium
                   ++ PAYWALL_KEYWORDS_low)) in
      if 2 * contentLength <? totalKeywordMatches * 100 then 20 else 0
    else 0 in
  Z.min (score0 + score1 + score2 + score3 + score4) 100.

(** *** The scraping service

    [client.scrape.startAndWait] is the remote service: it answers
    with a page, which may lack its markdown, or fails.  What it
    answers and what the clock reads are given by the environment,
    both indexed by the number of questions asked so far. *)

Inductive SdkOutcome : Type :=
| Scraped (markdown : option string)
| Failed (e : Js.Thrown).

Record Env : Type := mkEnv {
  HYPERBROWSER_API_KEY : option string;
  now : nat → Z;
  startAndWait : nat → string → SdkOutcome
}.

(** The state: the questions asked so far, and the URLs handed to the
    service, oldest first. *)
Record World : Type := mkWorld {
  tick : nat;
  fetched : list string
}.

Definition initialWorld : World := {| tick := 0; fetched := [] |}.

Section Fetcher.

Context (env : Env).

Definition scrapeUrl (url : string) (w : World) : (ScrapedContent + Js.Thrown) * World :=
  if Js.falsy (HYPERBROWSER_API_KEY env) then
    (inr (Js.ErrorObject false "Error" "HYPERBROWSER_API_KEY is not configured"), w)
  else
    let crawledAt := now env (tick w) in
    let w1 := {| tick := S (S (tick w)); fetched := fetched w ++ [url] |} in
    match startAndWait env (S (tick w)) url with
    | Scraped data =>
        let markdown := Js.orElse data "" in
        let paywallScore := calculatePaywallScore markdown url in
        let isPaywalled := PAYWALL_THRESHOLD <=? paywallScore in
        (inl {| url := url; markdown := markdown;
                success := negb isPaywalled && (0 <? strlen markdown);
                error := None; isPaywalled := Some isPaywalled;
                fallbackUsed := None; crawledAt := crawledAt;
                _paywalledUrls := None |}, w1)
    | Failed e =>
        (inl {| url := url; markdown := "";
                success := false;
                error := Some (if Js.instanceofError e then Js.message e
                               else "Unknown error");
                isPaywalled := None; fallbackUsed := None;
                crawledAt := crawledAt; _paywalledUrls := None |}, w1)
    end.

(** The calls of [scrapeUrls] on its batches of five, in the order of
    [urls]: the members of a batch share no state, and the pause
    between two batches only passes time. *)
Fixpoint scrapeAll (urls : list string) (w : World)
    : (list ScrapedContent + Js.Thrown) * World :=
  match urls with
  | [] => (inl [], w)
  | url :: urls' =>
      match scrapeUrl url w with
      | (inl r, w1) =>
          match scrapeAll urls' w1 with
          | (inl rs, w2) => (inl (r :: rs), w2)
          | (inr e, w2) => (inr e, w2)
          end
      | (inr e, w1) => (inr e, w1)
      end
  end.

Definition scrapeUrls (urls : list string) (w : World)
    : (list ScrapedContent + Js.Thrown) * World :=
  match scrapeAll urls w with
  | (inr e, w') => (inr e, w')
  | (inl results, w') =>
      let successfulResults :=
        filter (λ r, success r && (0 <? strlen (markdown r)) = true) results in
      let paywalledResults :=
        filter (λ r, truthy (isPaywalled r) = true) results in
      match successfulResults with
      | [] =>
          let substantialPaywalledResults :=
            filter (λ r, (SUBSTANTIAL_CONTENT_LENGTH <=? strlen (markdown r))
                         && Js.falsy (error r) = true) paywalledResults in
          match substantialPaywalledResults with
          | [] =>
              (inr (Js.ErrorObject false "Error"
                      ("Failed to scrape any URLs successfully. All "
                       +:+ pretty (Z.of_nat (length results))
                       +:+ " URLs failed or were paywalled.")), w')
          | _ =>
              (inl (map (λ r,
                      {| url := url r; markdown := markdown r; success := true;
                         error := error r; isPaywalled := Some true;
                         fallbackUsed := Some true; crawledAt := crawledAt r;
                         _paywalledUrls := _paywalledUrls r |})
                    substantialPaywalledResults), w')
          end
      | _ => (inl (successfulResults ++ paywalledResults), w')
      end
  end.

End Fetcher.

(** *** Link extraction and classification *)

Definition MAX_PAGES_PER_URL : Z := 8.
Definition MAX_TOTAL_URLS : Z := 25.

Definition VALUABLE_PATH_KEYWORDS : list string :=
  ["/api"; "/reference"; "/guide"; "/tutorial"; "/docs"; "/documentation";
   "/getting-started"; "/quickstart"; "/examples"; "/configuration"; "/setup";
   "/install"; "/sdk"; "/cli"; "/commands"; "/overview"; "/introduction";
   "/concepts"; "/basics"; "/advanced"; "/authentication"; "/models";
   "/actions"; "/connections"; "/deployment"].

Definition EXCLUDED_EXTENSIONS : list string :=
  [".svg"; ".png"; ".jpg"; ".jpeg"; ".gif"; ".ico"; ".webp"; ".css"; ".js";
   ".json"; ".xml"; ".pdf"; ".zip"; ".tar"; ".gz"; ".mp4"; ".mp3"; ".woff";
   ".woff2"; ".ttf"; ".eot"].

Definition EXCLUDED_PATTERNS : list string :=
  ["/.vite/"; "/assets/"; "/static/"; "/_next/"; "/images/"; "/fonts/";
   "/media/"; "#"; "?"].

(** The longest prefix of characters that are not [stop], and the rest. *)
Fixpoint upTo (stop : ascii → bool) (s : string) : string * string :=
  match s with
  | EmptyString => (EmptyString, EmptyString)
  | String c s' =>
      if stop c then (EmptyString, s)
      else let '(a, b) := upTo stop s' in (String c a, b)
  end.

(** A match of the first regular expression at the start of [s]: an
    opening bracket, one or more characters that are not a closing
    bracket, a closing bracket and an opening parenthesis, one or more
    characters that are not a closing parenthesis (the second group),
    a closing parenthesis.  The result is the second group and the
    length of the match. *)
Definition mdLinkAt (s : string) : option (string * nat) :=
  match s with
  | String "[" s1 =>
      let '(text, s2) := upTo (Ascii.eqb "]") s1 in
      if String.eqb text "" then None
      else
        match s2 with
        | String "]" (String "(" s3) =>
            let '(target, s4) := upTo (Ascii.eqb ")") s3 in
            if String.eqb target "" then None
            else
              match s4 with
              | String ")" _ =>
                  Some (target, (String.length text + String.length target + 4)%nat)
              | _ => None
              end
        | _ => None
        end
  | _ => None
  end.

(** A double or a single quote. *)
Definition isQuote (c : ascii) : bool :=
  (nat_of_ascii c =? 34)%nat || (nat_of_ascii c =? 39)%nat.

(** A match of the second regular expression at the start of [s]:
    [href=], a quote, one or more characters that are not quotes (the
    group), a quote. *)
Definition hrefAt (s : string) : option (string * nat) :=
  if String.prefix "href=" s then
    match String.substring 5 (String.length s - 5) s with
    | String q s1 =>
        if isQuote q then
          let '(target, s2) := upTo isQuote s1 in
          if String.eqb target "" then None
          else
            match s2 with
            | String _ _ => Some (target, (String.length target + 7)%nat)
            | EmptyString => None
            end
        else None
    | EmptyString => None
    end
  else None.

(** The loop [while ((match = regex.exec(s)) !== null)] of a global
    regular expression: the first groups of the matches met from left
    to right, the search resuming after each match.  [skip] counts the
    characters of the current match still to pass. *)
Fixpoint matches (matchAt : string → option (string * nat)) (s : string)
    (skip : nat) : list string :=
  match s with
  | EmptyString => []
  | String _ s' =>
      match skip with
      | S skip' => matches matchAt s' skip'
      | O =>
          match matchAt s with
          | Some (group, len) => group :: matches matchAt s' (len - 1)
          | None => matches matchAt s' 0
          end
      end
  end.

Section Links.

Context `{UrlApi}.

(** Lines 88-101 and 111-122: a relative link is put under the origin
    of the page; only http(s) links are kept. *)
Definition absolute (baseUrl url : string) : option string :=
  let resolved :=
    if Js.startsWith url "/" && negb (Js.startsWith url "//") then
      match newURL baseUrl with
      | Some base => Some (origin base +:+ url)
      | None => None
      end
    else Some url in
  match resolved with
  | Some url' =>
      if Js.startsWith url' "http://" || Js.startsWith url' "https://"
      then Some url' else None
  | None => None
  end.

Definition extractLinks (markdown baseUrl : string) : list string :=
  let mdLinks :=
    omap (λ m,
            let url := Js.trim m in
            if String.eqb url "" then None else absolute baseUrl url)
         (matches mdLinkAt markdown 0) in
  let hrefLinks :=
    omap (λ m,
            let url := Js.trim m in
            if String.eqb url "" || Js.startsWith url "#"
               || Js.startsWith url "javascript:"
            then None else absolute baseUrl url)
         (matches hrefAt markdown 0) in
  Js.dedupe [] (mdLinks ++ hrefLinks).

Definition isExcludedUrl (url : string) : bool :=
  let lowerUrl := Js.toLowerCase url in
  existsb (Js.endsWith lowerUrl) EXCLUDED_EXTENSIONS
  || existsb (Js.includes lowerUrl) EXCLUDED_PATTERNS.

(** [path.split("/").filter(Boolean)] *)
Fixpoint segmentsFrom (current : string) (path : string) : list string :=
  match path with
  | EmptyString => if String.eqb current "" then [] else [Js.reverse current]
  | String c path' =>
      if Ascii.eqb c "/" then
        (if String.eqb current "" then [] else [Js.reverse current])
        ++ segmentsFrom "" path'
      else segmentsFrom (String c current) path'
  end.

Definition segments (path : string) : list string := segmentsFrom "" path.

Definition isValuableLink (url : string) : bool :=
  if isExcludedUrl url then false
  else
    let lowerUrl := Js.toLowerCase url in
    match newURL lowerUrl with
    | Some urlObj =>
        let path := pathname urlObj in
        if existsb (Js.includes path) VALUABLE_PATH_KEYWORDS then true
        else if (1 <? Crawler.strlen path) && negb (String.eqb path "/") then
          match last (segments path) with
          | Some lastSegment =>
              negb (Js.includes lastSegment ".")
              && (2 <? Crawler.strlen lastSegment)
              && (Crawler.strlen lastSegment <? 50)
          | None => false
          end
        else false
    | None => false
    end.

Definition isSameDomain (url1 url2 : string) : bool :=
  match newURL url1, newURL url2 with
  | Some u1, Some u2 => String.eqb (hostname u1) (hostname u2)
  | _, _ => false
  end.

Definition commonPaths : list string :=
  ["/guides"; "/guide"; "/api"; "/reference"; "/docs"; "/documentation";
   "/getting-started"; "/quickstart"; "/tutorial"; "/tutorials"; "/examples";
   "/concepts"; "/basics"; "/overview"; "/introduction"; "/authentication";
   "/configuration"; "/installation"; "/setup"].

Definition generateCommonDocPaths (baseUrl : string) : list string :=
  match newURL baseUrl with
  | Some urlObj => map (λ path, origin urlObj +:+ path) commonPaths
  | None => []
  end.

(** *** [recursiveCrawl] *)

(** [allUrls] is a [Set] that is later turned into an array: it is the
    list of its members in insertion order.  [crawledUrls] is only asked
    for membership. *)
Record CrawlState : Type := mkState {
  allUrls : list string;
  crawledUrls : gset string;
  results : list ScrapedContent;
  paywalledUrls : list string
}.

Definition setAdd (x : string) (s : list string) : list string :=
  if bool_decide (x ∈ s) then s else s ++ [x].

Definition setHas (x : string) (s : list string) : bool := bool_decide (x ∈ s).

(** Lines 286-293: the fallback on the common documentation paths. *)
Definition addCommonPaths (crawled : gset string) (paths all : list string)
    : list string :=
  foldl (λ all path,
           if negb (bool_decide (path ∈ crawled)) && negb (setHas path all)
              && (Z.of_nat (length all) <? MAX_TOTAL_URLS)
           then setAdd path all else all)
        all paths.

(** Lines 256-297: one iteration of the loop over the results of
    phase 1. *)
Definition visit (st : CrawlState) (content : ScrapedContent) : CrawlState :=
  let crawled := {[ url content ]} ∪ crawledUrls st in
  if truthy (isPaywalled content) then
    {| allUrls := allUrls st; crawledUrls := crawled; results := results st;
       paywalledUrls := paywalledUrls st ++ [url content] |}
  else if success content && (0 <? Crawler.strlen (markdown content)) then
    let extractedLinks := extractLinks (markdown content) (url content) in
    let valuableLinks :=
      filter (λ link,
                isSameDomain link (url content) && isValuableLink link
                && negb (bool_decide (link ∈ crawled))
                && negb (setHas link (allUrls st)) = true)
             extractedLinks in
    let linksToAdd := Js.slice valuableLinks 0 MAX_PAGES_PER_URL in
    let all1 := foldl (λ all link, setAdd link all) (allUrls st) linksToAdd in
    let all2 :=
      if Z.of_nat (length valuableLinks) <? 3
      then addCommonPaths crawled (generateCommonDocPaths (url content)) all1
      else all1 in
    {| allUrls := all2; crawledUrls := crawled;
       results := results st ++ [content]; paywalledUrls := paywalledUrls st |}
  else
    {| allUrls := allUrls st; crawledUrls := crawled; results := results st;
       paywalledUrls := paywalledUrls st |}.

(** Lines 311-318: one iteration of the loop over the results of
    phase 2. *)
Definition collectAdditional (st : CrawlState) (content : ScrapedContent)
    : CrawlState :=
  if truthy (isPaywalled content) then
    {| allUrls := allUrls st; crawledUrls := crawledUrls st; results := results st;
       paywalledUrls := paywalledUrls st ++ [url content] |}
  else if success content && (100 <? Crawler.strlen (markdown content)) then
    {| allUrls := allUrls st; crawledUrls := crawledUrls st;
       results := results st ++ [content]; paywalledUrls := paywalledUrls st |}
  else st.

Context (env : Env).

(** Lines 237-299.  A rejection of [scrapeUrls] in phase 1 leaves the
    function. *)
Definition phase1 (initialUrls : list string) (w : World)
    : (CrawlState + Js.Thrown) * World :=
  let st0 :=
    {| allUrls := Js.dedupe [] initialUrls; crawledUrls := ∅;
       results := []; paywalledUrls := [] |} in
  let initialBatch :=
    Js.slice initialUrls 0 (Z.min (Z.of_nat (length initialUrls)) 5) in
  match scrapeUrls env initialBatch w with
  | (inl initialResults, w') => (inl (foldl visit st0 initialResults), w')
  | (inr e, w') => (inr e, w')
  end.

(** Line 302. *)
Definition additionalUrls (st : CrawlState) : list string :=
  filter (λ url, negb (bool_decide (url ∈ crawledUrls st)) = true) (allUrls st).

(** Lines 304-322.  A rejection of [scrapeUrls] in phase 2 is caught. *)
Definition phase2 (st : CrawlState) (w : World) : CrawlState * World :=
  match additionalUrls st with
  | [] => (st, w)
  | urls =>
      match scrapeUrls env urls w with
      | (inl additionalContent, w') => (foldl collectAdditional st additionalContent, w')
      | (inr _, w') => (st, w')
      end
  end.

(** Lines 326-331: the paywalled URLs ride on the first result. *)
Definition attachPaywalled (st : CrawlState) : list ScrapedContent :=
  match paywalledUrls st, results st with
  | _ :: _, first :: rest =>
      {| url := url first; markdown := markdown first; success := success first;
         error := error first; isPaywalled := isPaywalled first;
         fallbackUsed := fallbackUsed first; crawledAt := crawledAt first;
         _paywalledUrls := Some (paywalledUrls st) |} :: rest
  | _, _ => results st
  end.

Definition recursiveCrawl (initialUrls : list string) (topic : string) (w : World)
    : (list ScrapedContent + Js.Thrown) * World :=
  match phase1 initialUrls w with
  | (inl st1, w1) =>
      let '(st2, w2) := phase2 st1 w1 in
      (inl (attachPaywalled st2), w2)
  | (inr e, w1) => (inr e, w1)
  end.

End Links.

(** [getPaywalledUrls], lines 334-347: the URLs of the results flagged
    as paywalled and the lists that ride on results, without
    duplicates.  A list that rides on a result is an array, which is
    truthy even when empty. *)
Definition getPaywalledUrls (results : list ScrapedContent) : list string :=
  Js.dedupe []
    (flat_map (λ result,
                 (if truthy (isPaywalled result) then [url result] else [])
                 ++ default [] (_paywalledUrls result))
              results).

End Crawler.

(** ** The topic cache ([lib/cache.ts]) *)

Module TopicCache.

Import Crawler.

Record CachedContent : Type := mkCached {
  topic : string;
  urls : list string;
  content : list ScrapedContent;
  cachedAt : Z;
  expiresAt : Z
}.

Definition CACHE_TTL_MS : Z := 24 * 60 * 60 * 1000.

(** [s.replace(/\s+/g, " ")]: every run of white space becomes one
    space.  [inRun] tells that the character before was white space. *)
Fixpoint collapseSpaces (inRun : bool) (s : string) : string :=
  match s with
  | EmptyString => EmptyString
  | String c s' =>
      if Js.isSpace c then
        if inRun then collapseSpaces true s'
        else String " " (collapseSpaces true s')
      else String c (collapseSpaces false s')
  end.

Definition normalize (topic : string) : string :=
  collapseSpaces false (Js.trim (Js.toLowerCase topic)).

(** What a file of the cache directory holds: the JSON text of a
    record, which [JSON.parse] gives back as it was written (the
    timestamps are instants in milliseconds instead of their ISO
    strings, which compare the same way), or something that
    [JSON.parse] rejects. *)
Inductive FileData : Type :=
| Json (data : CachedContent)
| Unreadable.

(** The environment: the clock, and the failures of the file system
    (a call of [fs] throws when [fails] says so), both indexed by the
    number of questions asked so far. *)
Record Env : Type := mkEnv {
  clock : nat → Z;
  fails : nat → bool
}.

(** The state: the files of the cache directory by name, and the
    number of questions asked. *)
Record Disk : Type := mkDisk {
  files : gmap string FileData;
  tick : nat
}.

Section Cache.

(** [crypto.createHash("md5").update(s).digest("hex")] *)
Context (md5 : string → string).
Context (env : Env).

Definition generateCacheKey (topic : string) : string := md5 (normalize topic).

Definition cachePath (topic : string) : string :=
  generateCacheKey topic +:+ ".json".

Definition advance (n : nat) (d : Disk) : Disk :=
  {| files := files d; tick := (tick d + n)%nat |}.

(** Lines 367-401.  The questions asked, in order: [statSync],
    [readFileSync], the clock, and [unlinkSync] when the record has
    expired.  Any of the three calls of [fs] may throw; the [catch]
    returns [null]. *)
Definition getCachedContent (topic : string) (d : Disk)
    : option CachedContent * Disk :=
  let path := cachePath topic in
  match files d !! path with
  | None => (None, d)
  | Some file =>
      if fails env (tick d) then (None, advance 1 d)
      else if fails env (S (tick d)) then (None, advance 2 d)
      else
        match file with
        | Unreadable => (None, advance 2 d)
        | Json data =>
            let now := clock env (S (S (tick d))) in
            if expiresAt data <? now then
              if fails env (S (S (S (tick d)))) then (None, advance 4 d)
              else (None, {| files := delete path (files d);
                             tick := (tick d + 4)%nat |})
            else (Some data, advance 3 d)
        end
  end.

(** Lines 403-434.  The questions asked, in order: the clock twice,
    [writeFileSync] and [statSync]; a throw of either is caught. *)
Definition cacheContent (topic : string) (urls : list string)
    (content : list ScrapedContent) (d : Disk) : Disk :=
  let path := cachePath topic in
  let cachedAt := clock env (tick d) in
  let expiresAt := clock env (S (tick d)) + CACHE_TTL_MS in
  let cacheData :=
    {| topic := topic; urls := urls; content := content;
       cachedAt := cachedAt; expiresAt := expiresAt |} in
  if fails env (S (S (tick d))) then advance 3 d
  else {| files := <[path := Json cacheData]> (files d);
          tick := (tick d + 4)%nat |}.

(** Lines 436-445: files are removed one by one until a removal
    throws. *)
Fixpoint unlinkAll (names : list string) (d : Disk) : Disk :=
  match names with
  | [] => d
  | name :: names' =>
      if fails env (tick d) then advance 1 d
      else unlinkAll names' {| files := delete name (files d); tick := S (tick d) |}
  end.

Definition clearCache (d : Disk) : Disk :=
  if fails env (tick d) then advance 1 d
  else unlinkAll (map fst (map_to_list (files d))) (advance 1 d).

End Cache.

End TopicCache.

(** ** Further methods of the JavaScript runtime *)

Module JsLib.

Import Crawler.

(** [String.prototype.slice(start, end)] and [slice(start)], whose end
    is the length. *)
Definition sliceString (s : string) (start stop : Z) : string :=
  String.string_of_list_ascii (Js.slice (String.list_ascii_of_string s) start stop).

Definition sliceFrom (s : string) (start : Z) : string :=
  sliceString s start (strlen s).

(** The line feed. *)
Definition LF : string := String "010" "".

(** [Array.prototype.sort(compare)] for a comparator that returns a
    number.  The sort is stable, and with a comparator that orders the
    elements by a key its result does not depend on the algorithm; it
    is written as an insertion from the right: an element goes before
    the first one that the comparator does not put ahead of it. *)
Fixpoint insertSorted {A} (compare : A → A → Q) (x : A) (l : list A) : list A :=
  match l with
  | [] => [x]
  | y :: l' =>
      if Qle_bool (compare x y) 0 then x :: l
      else y :: insertSorted compare x l'
  end.

Definition sort {A} (compare : A → A → Q) (l : list A) : list A :=
  foldr (insertSorted compare) [] l.

End JsLib.

(** ** The request handler ([app/api/generate/route.ts]) *)

Module Route.

Import Crawler JsLib.

Definition MAX_SOURCES : Z := 10.
Definition MAX_CONTENT_LENGTH : Z := 2000.

Record Scored : Type := mkScored {
  source : ScrapedContent;
  score : Q
}.

Definition apiKeywords : list string :=
  ["api"; "endpoint"; "method"; "parameter"; "request"; "response"].

Definition officialDomains : list string :=
  ["docs."; "developer."; "api."; "reference."].

(** The function mapped over the sources by [rankSources], lines
    19-40.  The score is a JavaScript number, a multiple of 2.5 that
    floating point holds exactly; here it is a rational. *)
Definition scoreSource (source : ScrapedContent) : Scored :=
  let score := 0%Q in
  let length := strlen (markdown source) in
  let score :=
    if 1000 <? length then (score + 30)%Q
    else if 500 <? length then (score + 20)%Q
    else if 200 <? length then (score + 10)%Q
    else score in
  let codeBlocks := (inject_Z (countMatches "```" (markdown source) 0) / 2)%Q in
  let score := (score + codeBlocks * 5)%Q in
  let score := if Js.includes (markdown source) "## " then (score + 10)%Q else score in
  let score := if Js.includes (markdown source) "### " then (score + 5)%Q else score in
  let hasApiContent :=
    existsb (λ kw, Js.includes (Js.toLowerCase (markdown source)) kw) apiKeywords in
  let score := if hasApiContent then (score + 15)%Q else score in
  let score :=
    if existsb (λ d, Js.includes (url source) d) officialDomains
    then (score + 10)%Q else score in
  {| source := source; score := score |}.

Definition rankSources (sources : list ScrapedContent) : list ScrapedContent :=
  map source (sort (λ a b, (score b - score a)%Q) (map scoreSource sources)).

Definition trimContent (sources : list ScrapedContent) : list ScrapedContent :=
  map (λ source,
         {| url := url source;
            markdown := sliceString (markdown source) 0 MAX_CONTENT_LENGTH;
            success := success source;
            error := error source;
            isPaywalled := isPaywalled source;
            fallbackUsed := fallbackUsed source;
            crawledAt := crawledAt source;
            _paywalledUrls := _paywalledUrls source |})
      sources.

(** Lines 272-284 of [POST]: the sources handed to the generation, or
    the message of the error event. *)
Definition selectSources (scrapedContent : list ScrapedContent)
    : list ScrapedContent + string :=
  let successfulScrapes := filter (λ c, success c = true) scrapedContent in
  let rankedSources := rankSources successfulScrapes in
  let selectedSources := trimContent (Js.slice rankedSources 0 MAX_SOURCES) in
  if (length selectedSources <? 2)%nat
  then inr ("Need at least 2 valid sources, only found "
            +:+ pretty (length selectedSources))
  else inl selectedSources.

(** Line 273. *)
Definition paywalledUrls (scrapedContent : list ScrapedContent) : list string :=
  map url (filter (λ c, truthy (isPaywalled c) = true) scrapedContent).

(** Lines 256-263: the check made on what [recursiveCrawl] returned. *)
Definition nothingScraped (scrapedContent : list ScrapedContent) : bool :=
  let successfulScrapes :=
    filter (λ c, success c && negb (truthy (isPaywalled c)) = true) scrapedContent in
  (length successfulScrapes =? 0)%nat.

(** Lines 321 and 350-355: the warnings of the metadata about
    paywalled sources. *)
Definition paywallWarnings (scrapedContent selectedSources : list ScrapedContent)
    : list string :=
  let paywalledUrls := paywalledUrls scrapedContent in
  let fallbackUsed := existsb (λ s, truthy (fallbackUsed s)) selectedSources in
  (if (0 <? length paywalledUrls)%nat
   then [pretty (length paywalledUrls) +:+ " source(s) paywalled/blocked"
         +:+ (if fallbackUsed then " (fallback used)" else "")]
   else [])
  ++ (if fallbackUsed
      then ["Some sources flagged as paywalled but used due to substantial content (>1000 chars)"]
      else []).

End Route.

(** ** The web search ([lib/serper.ts]) *)

Module Serper.

(** An entry of [data.organic] as the service sends it, and a search
    result as [searchWeb] returns it.  Nothing checks the fields of
    the former, so each of them may be missing. *)
Record Organic : Type := mkOrganic {
  organic_title : option string;
  organic_link : option string;
  organic_snippet : option string
}.

Record SearchResult : Type := mkSearchResult {
  title : option string;
  link : option string;
  snippet : string
}.

(** What [response.json()] resolves to: it rejects, or gives an object
    whose [organic], when present, is an array. *)
Inductive Body : Type :=
| Unparsable (e : Js.Thrown)
| Parsed (organic : option (list Organic)).

Record Response : Type := mkResponse {
  ok : bool;
  status : Z;
  statusText : string;
  json : Body
}.

Inductive FetchOutcome : Type :=
| Rejected (e : Js.Thrown)
| Responded (response : Response).

(** The environment: the key of the service, and what the service
    answers to a key and a query. *)
Record Env : Type := mkEnv {
  SERPER_API_KEY : option string;
  fetch : string → string → FetchOutcome
}.

Definition excludedDomains : list string :=
  ["youtube.com"; "facebook.com"; "twitter.com"; "reddit.com"; "quora.com";
   "pinterest.com"; "tiktok.com"; "instagram.com"].

Definition newError (message : string) : Js.Thrown :=
  Js.ErrorObject false "Error" message.

(** [result.link.toLowerCase()] on an entry without [link]. *)
Definition linkMissing : Js.Thrown :=
  Js.ErrorObject true "TypeError"
    "Cannot read properties of undefined (reading 'toLowerCase')".

(** Lines 45-48: the filter, which throws at the first entry without a
    link. *)
Fixpoint keepAllowed (organic : list Organic) : list Organic + Js.Thrown :=
  match organic with
  | [] => inl []
  | result :: organic' =>
      match organic_link result with
      | None => inr linkMissing
      | Some link =>
          let url := Js.toLowerCase link in
          let keep := negb (existsb (λ domain, Js.includes url domain) excludedDomains) in
          match keepAllowed organic' with
          | inr e => inr e
          | inl rest => inl (if keep then result :: rest else rest)
          end
      end
  end.

Definition toResult (result : Organic) : SearchResult :=
  {| title := organic_title result;
     link := organic_link result;
     snippet := Js.orElse (organic_snippet result) "" |}.

(** The body of the [try], lines 10-54. *)
Definition search (env : Env) (apiKey query : string) : list SearchResult + Js.Thrown :=
  match fetch env apiKey query with
  | Rejected e => inr e
  | Responded response =>
      if negb (ok response) then
        inr (newError ("Serper API error: " +:+ pretty (status response)
                       +:+ " " +:+ statusText response))
      else
        match json response with
        | Unparsable e => inr e
        | Parsed data_organic =>
            match data_organic with
            | None | Some [] => inr (newError "No search results found")
            | Some organic =>
                match keepAllowed organic with
                | inr e => inr e
                | inl filtered => inl (map toResult (Js.slice filtered 0 15))
                end
            end
        end
  end.

Definition searchWeb (env : Env) (query : string) : list SearchResult + Js.Thrown :=
  if Js.falsy (SERPER_API_KEY env) then
    inr (newError "SERPER_API_KEY is not configured")
  else
    let apiKey := default "" (SERPER_API_KEY env) in
    match search env apiKey query with
    | inl results => inl results
    | inr error =>
        if Js.instanceofError error then
          inr (newError ("Failed to search web: " +:+ Js.message error))
        else inr (newError "Failed to search web: Unknown error")
    end.

End Serper.

(** ** The generation passes ([lib/anthropic.ts]) *)

Module Generator.

Import Crawler JsLib.

(** Lines 102-118. *)
Definition stripCodeFences (content : string) : string :=
  let result := Js.trim content in
  let result :=
    if Js.startsWith result "```markdown" then sliceFrom result (strlen "```markdown")
    else if Js.startsWith result "```md" then sliceFrom result (strlen "```md")
    else if Js.startsWith result "```" then sliceFrom result 3
    else result in
  let result :=
    if Js.endsWith result "```" then sliceString result 0 (-3) else result in
  Js.trim result.

(** The match of [/## Sources\n\n([\s\S]*?)(\n##|$)/], lines 406-407.
    The expression matches at the first [## Sources] followed by an
    empty line, since what follows can always match; [afterFirst]
    gives the text after it.  The group is lazy: it stops before the
    first [\n##], or at the end of the text. *)
Fixpoint afterFirst (needle s : string) : option string :=
  if String.prefix needle s
  then Some (sliceFrom s (strlen needle))
  else match s with
       | EmptyString => None
       | String _ s' => afterFirst needle s'
       end.

Fixpoint textBefore (needle s : string) : string :=
  if String.prefix needle s then EmptyString
  else match s with
       | EmptyString => EmptyString
       | String c s' => String c (textBefore needle s')
       end.

(** [[^\s\)]+] at the start of [s]: the longest run of characters that
    are neither white space nor a closing parenthesis. *)
Definition urlChar (c : ascii) : bool :=
  negb (Js.isSpace c) && negb (Ascii.eqb c ")").

Fixpoint solidRun (s : string) : string :=
  match s with
  | EmptyString => EmptyString
  | String c s' => if urlChar c then String c (solidRun s') else EmptyString
  end.

(** [/https?:\/\/[^\s\)]+/] at the start of [s]. *)
Definition urlAt (s : string) : option string :=
  if String.prefix "https://" s then
    let rest := solidRun (sliceFrom s 8) in
    if String.eqb rest "" then None else Some ("https://" +:+ rest)
  else if String.prefix "http://" s then
    let rest := solidRun (sliceFrom s 7) in
    if String.eqb rest "" then None else Some ("http://" +:+ rest)
  else None.

(** [section.match(urlRegex)] with the flag [g]: the matches from left
    to right, each search starting where the match before ended.
    [skip] counts the characters of the current match still to
    pass. *)
Fixpoint urlMatches (s : string) (skip : nat) : list string :=
  match s with
  | EmptyString => []
  | String _ s' =>
      match skip with
      | S skip' => urlMatches s' skip'
      | O =>
          match urlAt s with
          | Some u => u :: urlMatches s' (String.length u - 1)
          | None => urlMatches s' 0
          end
      end
  end.

(** Lines 405-411. *)
Definition extractSourceUrls (content : string) : list string :=
  match afterFirst ("## Sources" +:+ LF +:+ LF) content with
  | None => []
  | Some rest =>
      let section := textBefore (LF +:+ "##") rest in
      Js.dedupe [] (urlMatches section 0)
  end.

End Generator.

(** * Proofs *)

(** ** The validator *)

Module ValidatorProofs.

Import Validator.

(** *** The [Map] operations *)

Lemma mapGet_mapReplace_eq key e c :
  mapHas key c = true → mapGet key (mapReplace key e c) = Some e.
Proof.
  unfold mapHas. induction c as [|[k e'] c IH]; simpl; [done|].
  destruct (String.eqb_spec k key) as [->|Hne]; simpl.
  - by rewrite String.eqb_refl.
  - intros Hc. destruct (String.eqb_spec k key); [done|]. by apply IH.
Qed.

Lemma mapGet_mapReplace_ne key key' e c :
  key ≠ key' → mapGet key' (mapReplace key e c) = mapGet key' c.
Proof.
  intros Hne. induction c as [|[k e'] c IH]; simpl; [done|].
  destruct (String.eqb_spec k key) as [->|Hk]; simpl.
  - destruct (String.eqb_spec key key'); done.
  - destruct (String.eqb_spec k key'); done.
Qed.

Lemma mapGet_app key c1 c2 :
  mapGet key (c1 ++ c2) =
  match mapGet key c1 with Some e => Some e | None => mapGet key c2 end.
Proof.
  induction c1 as [|[k e'] c1 IH]; simpl; [done|].
  by destruct (String.eqb k key).
Qed.

Lemma mapGet_mapSet_eq key e c : mapGet key (mapSet key e c) = Some e.
Proof.
  unfold mapSet. destruct (mapHas key c) eqn:Hc.
  - by apply mapGet_mapReplace_eq.
  - rewrite mapGet_app. unfold mapHas in Hc.
    destruct (mapGet key c); [done|]. simpl. by rewrite String.eqb_refl.
Qed.

Lemma mapGet_mapSet_ne key key' e c :
  key ≠ key' → mapGet key' (mapSet key e c) = mapGet key' c.
Proof.
  intros Hne. unfold mapSet. destruct (mapHas key c).
  - by apply mapGet_mapReplace_ne.
  - rewrite mapGet_app. destruct (mapGet key' c); [done|]. simpl.
    by destruct (String.eqb_spec key key').
Qed.

Lemma mapDelete_absent key c : mapGet key c = None → mapDelete key c = c.
Proof.
  induction c as [|[k e] c IH]; simpl; [done|].
  destruct (String.eqb k key); [done|]. intros Hc. by rewrite IH.
Qed.

Lemma mapDelete_sublist key c : sublist (mapDelete key c) c.
Proof.
  induction c as [|[k e] c IH]; simpl; [done|].
  destruct (String.eqb k key).
  - by apply sublist_cons.
  - by apply sublist_skip.
Qed.

Lemma mapGet_elem key e c : mapGet key c = Some e → (key, e) ∈ c.
Proof.
  induction c as [|[k e'] c IH]; simpl; [done|].
  destruct (String.eqb_spec k key) as [->|Hne].
  - intros [= ->]. apply list_elem_of_here.
  - intros Hc. apply list_elem_of_further. by apply IH.
Qed.

Lemma mapReplace_Forall (P : string * CacheEntry → Prop) key e c :
  Forall P c → P (key, e) → Forall P (mapReplace key e c).
Proof.
  intros Hc He. induction Hc as [|[k e'] c Hk Hc IH]; simpl; [done|].
  destruct (String.eqb_spec k key) as [->|Hne]; by constructor.
Qed.

Lemma mapSet_Forall (P : string * CacheEntry → Prop) key e c :
  Forall P c → P (key, e) → Forall P (mapSet key e c).
Proof.
  intros Hc He. unfold mapSet. destruct (mapHas key c).
  - by apply mapReplace_Forall.
  - apply Forall_app. split; [done|]. by constructor.
Qed.

Lemma mapDelete_Forall (P : string * CacheEntry → Prop) key c :
  Forall P c → Forall P (mapDelete key c).
Proof.
  induction 1 as [|[k e] c Hk Hc IH]; simpl; [done|].
  destruct (String.eqb k key); [done|]. by constructor.
Qed.

(** *** Invariants of the cache that hold under every interleaving

    [Keeps J P E t]: the task [t] only stores entries that satisfy [J],
    returns values that satisfy [P] and throws values that satisfy
    [E], provided the entries it reads from the cache satisfy [J].
    The judgement looks at the tree of [t] only, so it holds however
    the task is run. *)

Section Invariant.

Context (J : string → CacheEntry → Prop).

Definition cacheInv (c : Cache) : Prop := Forall (λ kv, J kv.1 kv.2) c.

Definition opOk (op : Op) : Prop :=
  match op with
  | CacheSet key e => J key e
  | _ => True
  end.

Definition answerOk (op : Op) : answer op → Prop :=
  match op return answer op → Prop with
  | CacheGet key => λ x, ∀ e, x = Some e → J key e
  | CacheEntries => λ x, cacheInv x
  | _ => λ _, True
  end.

Inductive Keeps {A} (P : A → Prop) (E : Js.Thrown → Prop) : Task A → Prop :=
| Keeps_Ret a : P a → Keeps P E (Ret a)
| Keeps_Throw e : E e → Keeps P E (Throw e)
| Keeps_Do op k :
    opOk op → (∀ x, answerOk op x → Keeps P E (k x)) → Keeps P E (Do op k).

Lemma Keeps_mono {A} (P P' : A → Prop) (E E' : Js.Thrown → Prop) t :
  (∀ a, P a → P' a) → (∀ e, E e → E' e) → Keeps P E t → Keeps P' E' t.
Proof.
  intros HP HE. induction 1 as [a Ha|e He|op k Hop Hk IH].
  - apply Keeps_Ret. auto.
  - apply Keeps_Throw. auto.
  - apply Keeps_Do; auto.
Qed.

Lemma Keeps_bind {A B} (Q : A → Prop) (P : B → Prop) E t (f : A → Task B) :
  Keeps Q E t → (∀ a, Q a → Keeps P E (f a)) → Keeps P E (t ≫= f).
Proof.
  intros Ht Hf. induction Ht as [a Ha|e He|op k Hop Hk IH].
  - by apply Hf.
  - by apply Keeps_Throw.
  - apply Keeps_Do; [done|]. intros x Hx. by apply IH.
Qed.

Lemma Keeps_tryCatch {A} (P : A → Prop) (E' E : Js.Thrown → Prop) t h :
  Keeps P E' t → (∀ e, E' e → Keeps P E (h e)) → Keeps P E (tryCatch t h).
Proof.
  intros Ht Hh. induction Ht as [a Ha|e He|op k Hop Hk IH].
  - by apply Keeps_Ret.
  - by apply Hh.
  - apply Keeps_Do; [done|]. intros x Hx. by apply IH.
Qed.

Lemma Keeps_call {A} (P : A → Prop) E op (k : answer op → Task A) :
  opOk op → (∀ x, answerOk op x → Keeps P E (k x)) → Keeps P E (call op ≫= k).
Proof. intros Hop Hk. by apply Keeps_Do. Qed.

Lemma Keeps_forEach {A} E (l : list A) (f : A → Task unit) :
  (∀ x, Keeps (λ _, True) E (f x)) → Keeps (λ _, True) E (forEach l f).
Proof.
  intros Hf. induction l as [|x l IH]; simpl.
  - by apply Keeps_Ret.
  - eapply Keeps_bind; [apply Hf|]. intros _ _. apply IH.
Qed.

Lemma Keeps_cleanCache E : Keeps (λ _, True) E cleanCache.
Proof.
  unfold cleanCache. apply Keeps_call; [done|]. intros now _.
  apply Keeps_call; [done|]. intros entries _.
  apply Keeps_forEach. intros kv. destruct (_ <? _).
  - by apply Keeps_Do; [|intros; apply Keeps_Ret].
  - by apply Keeps_Ret.
Qed.

Lemma Keeps_setCache E u r :
  (∀ expiry, J u {| result := r; expiresAt := expiry |}) →
  Keeps (λ _, True) E (setCache u r).
Proof.
  intros HJ. unfold setCache. apply Keeps_call; [done|]. intros size _.
  eapply Keeps_bind with (Q := λ _, True).
  - destruct (_ <=? _); [|by apply Keeps_Ret].
    eapply Keeps_bind; [apply Keeps_cleanCache|]. intros _ _.
    apply Keeps_call; [done|]. intros size' _.
    destruct (_ <=? _); [|by apply Keeps_Ret].
    apply Keeps_call; [done|]. intros entries _.
    apply Keeps_forEach. intros key.
    by apply Keeps_Do; [|intros; apply Keeps_Ret].
  - intros _ _. apply Keeps_call; [done|]. intros now _.
    apply Keeps_Do; [apply HJ|]. intros; by apply Keeps_Ret.
Qed.

Lemma Keeps_getCached E u :
  Keeps (λ o, ∀ r, o = Some r → ∃ expiry, J u {| result := r; expiresAt := expiry |})
        E (getCached u).
Proof.
  unfold getCached. apply Keeps_call; [done|]. intros [c|] Hc.
  - apply Keeps_call; [done|]. intros now _. destruct (_ <? _).
    + apply Keeps_Ret. intros r [= <-]. exists (expiresAt c).
      destruct c. by apply Hc.
    + apply Keeps_call; [done|]. intros _ _. by apply Keeps_Ret.
  - apply Keeps_call; [done|]. intros _ _. by apply Keeps_Ret.
Qed.

(** Soundness: the operations keep the invariant of the cache. *)
Lemma perform_inv env op w :
  cacheInv (cache w) → opOk op →
  answerOk op (perform env op w).1 ∧ cacheInv (cache (perform env op w).2).
Proof.
  intros Hc Hop. destruct op; simpl; split; try done.
  - intros e He. apply mapGet_elem in He.
    unfold cacheInv in Hc. rewrite Forall_forall in Hc. by apply (Hc (key, e)).
  - by apply (mapSet_Forall (λ kv, J kv.1 kv.2)).
  - by apply (mapDelete_Forall (λ kv, J kv.1 kv.2)).
Qed.

Lemma run_Keeps env {A} (P : A → Prop) E (t : Task A) w :
  Keeps P E t → cacheInv (cache w) →
  match (run env t w).1 with inl a => P a | inr e => E e end
  ∧ cacheInv (cache (run env t w).2).
Proof.
  intros Ht. revert w. induction Ht as [a Ha|e He|op k Hop Hk IH]; intros w Hw.
  - done.
  - done.
  - simpl. destruct (perform_inv env op w Hw Hop) as [Hx Hw'].
    destruct (perform env op w) as [x w']. by apply IH.
Qed.

End Invariant.

(** *** The equations of the two loops *)

Section Unfold.

Context `{UrlApi}.

Definition follower (budget : nat) (tmo rt : Z)
    : option (string → Task ValidationResult) :=
  match budget with
  | O => None
  | S budget' => Some (validateUrlAt budget' tmo rt)
  end.

Lemma validateUrlAt_eq budget tmo rt u :
  validateUrlAt budget tmo rt u =
  (cached ← getCached u;
   match cached with
   | Some r => Ret r
   | None =>
       retryLoop (follower budget tmo rt) u tmo rt (Z.to_nat (rt + 1)) 0 None
   end).
Proof. by destruct budget. Qed.

Definition onError (follow : option (string → Task ValidationResult))
    (u : string) (tmo rt : Z) (remaining : nat) (attemptNo : Z)
    (e : Js.Thrown) : Task ValidationResult :=
  let '(lastError', break) := classify e in
  if break then allRetriesFailed u (Some lastError')
  else
    (if (attemptNo <? rt) && negb (Js.includes lastError' "timeout")
     then call (Sleep 500) else Ret tt) ;;
    retryLoop follow u tmo rt remaining (attemptNo + 1) (Some lastError').

Lemma retryLoop_S follow u tmo rt remaining attemptNo lastError :
  retryLoop follow u tmo rt (S remaining) attemptNo lastError =
  tryCatch (attempt follow u tmo) (onError follow u tmo rt remaining attemptNo).
Proof. done. Qed.

End Unfold.

(** *** Well-formed results

    The shape every result of [validateUrl] has: an invalid result
    carries a message, a valid one carries none, [finalUrl] is only
    set on a redirect status, and outside the redirect statuses
    [valid] is the test for a 2xx status. *)

Definition wellFormed (r : ValidationResult) : Prop :=
  (valid r = false → ∃ msg, error r = Some msg ∧ msg ≠ "")
  ∧ (valid r = true → error r = None)
  ∧ (finalUrl r ≠ None → 300 ≤ status r < 400)
  ∧ (¬ (300 ≤ status r < 400) →
     finalUrl r = None ∧ valid r = (200 <=? status r) && (status r <? 300)).

(** The invariant of the validation cache: an entry sits under the URL
    of its result, and its result is well formed. *)
Definition entryOk (key : string) (e : CacheEntry) : Prop :=
  url (result e) = key ∧ wellFormed (result e).

Definition resultFor (u : string) (r : ValidationResult) : Prop :=
  url r = u ∧ wellFormed r.

Section WellFormed.

Context `{UrlApi}.

Lemma orElse_nonempty a d : d ≠ "" → Js.orElse a d ≠ "".
Proof.
  intros Hd. destruct a as [s|]; simpl; [|done].
  by destruct (String.eqb_spec s "").
Qed.

Lemma Keeps_store E u r :
  resultFor u r → Keeps entryOk (resultFor u) E (setCache u r ;; Ret r).
Proof.
  intros Hr. eapply Keeps_bind.
  - apply Keeps_setCache. intros expiry. exact Hr.
  - intros _ _. by apply Keeps_Ret.
Qed.

Lemma Keeps_fetch u m tmo :
  Keeps entryOk (λ _, True) (λ _, True) (fetch u m tmo).
Proof.
  apply Keeps_Do; [done|]. intros [resp|e] _.
  - by apply Keeps_Ret.
  - by apply Keeps_Throw.
Qed.

Lemma Keeps_probe u tmo :
  Keeps entryOk (λ _, True) (λ _, True) (probe u tmo).
Proof.
  unfold probe. eapply Keeps_bind; [apply Keeps_fetch|]. intros resp _.
  destruct (_ || _).
  - eapply Keeps_tryCatch; [apply Keeps_fetch|]. intros e _. by apply Keeps_Throw.
  - by apply Keeps_Ret.
Qed.

Lemma Keeps_interpret follow u resp :
  (∀ v, follow = Some v →
        ∀ x, Keeps entryOk (resultFor x) (λ _, True) (v x)) →
  Keeps entryOk (resultFor u) (λ _, True) (interpret follow u resp).
Proof.
  intros Hfollow. unfold interpret.
  destruct ((300 <=? Response.status resp) && (Response.status resp <? 400))
    eqn:Hred.
  - assert (300 ≤ Response.status resp < 400) as Hst by lia.
    destruct (Js.falsy (Response.location resp)).
    + apply Keeps_call; [done|]. intros now _. apply Keeps_store.
      split; [done|]. repeat split; simpl; try done; try lia.
      intros _. by eexists.
    + destruct follow as [v|].
      * eapply Keeps_bind; [by apply Hfollow|]. intros inner [Hurl Hwf].
        apply Keeps_call; [done|]. intros _ _.
        apply Keeps_call; [done|]. intros now _. apply Keeps_store.
        split; [done|]. destruct Hwf as (Hinv & Hval & _).
        repeat split; simpl; try done; try lia.
      * apply Keeps_call; [done|]. intros now _. apply Keeps_store.
        split; [done|]. repeat split; simpl; try done; try lia.
        intros _. by eexists.
  - assert (¬ (300 ≤ Response.status resp < 400)) as Hst by lia.
    apply Keeps_call; [done|]. intros now _. apply Keeps_store.
    split; [done|]. repeat split; simpl; try done.
    + destruct ((200 <=? _) && _); [done|].
      intros _. eexists. split; [reflexivity|]. by simpl.
    + by destruct ((200 <=? _) && _).
Qed.

Lemma Keeps_allRetriesFailed E u lastError :
  Keeps entryOk (resultFor u) E (allRetriesFailed u lastError).
Proof.
  unfold allRetriesFailed. apply Keeps_call; [done|]. intros now _.
  apply Keeps_store. split; [done|]. repeat split; simpl; try done; try lia.
  intros _. eexists. split; [done|]. by apply orElse_nonempty.
Qed.

Lemma Keeps_retryLoop E follow u tmo rt remaining attemptNo lastError :
  (∀ v, follow = Some v →
        ∀ x, Keeps entryOk (resultFor x) (λ _, True) (v x)) →
  Keeps entryOk (resultFor u) E
        (retryLoop follow u tmo rt remaining attemptNo lastError).
Proof.
  intros Hfollow. revert attemptNo lastError.
  induction remaining as [|remaining IH]; intros attemptNo lastError.
  - apply Keeps_allRetriesFailed.
  - rewrite retryLoop_S. eapply Keeps_tryCatch.
    + unfold attempt. eapply Keeps_bind; [apply Keeps_probe|].
      intros resp _. by apply Keeps_interpret.
    + intros e _. unfold onError. destruct (classify e) as [lastError' [|]].
      * apply Keeps_allRetriesFailed.
      * eapply Keeps_bind with (Q := λ _, True).
        -- destruct (_ && _); [|by apply Keeps_Ret].
           by apply Keeps_Do; [|intros; apply Keeps_Ret].
        -- intros _ _. apply IH.
Qed.

(** Every result of [validateUrl] is for the URL asked and well
    formed, every entry it stores keeps the invariant, and no
    exception leaves it. *)
Lemma Keeps_validateUrlAt budget tmo rt u :
  Keeps entryOk (resultFor u) (λ _, False) (validateUrlAt budget tmo rt u).
Proof.
  revert u. induction budget as [|budget IH]; intros u;
    rewrite validateUrlAt_eq;
    (eapply Keeps_bind; [apply Keeps_getCached|]); intros [r|] Hr.
  - apply Keeps_Ret. destruct (Hr r eq_refl) as [expiry Hentry]. exact Hentry.
  - by apply Keeps_retryLoop.
  - apply Keeps_Ret. destruct (Hr r eq_refl) as [expiry Hentry]. exact Hentry.
  - apply Keeps_retryLoop. intros v [= <-] x.
    eapply Keeps_mono; [| |apply IH]; done.
Qed.

End WellFormed.

(** *** Running a task alone *)

Section Sequential.

Context (env : Env) `{UrlApi}.

Lemma withCache_id w : withCache (cache w) w = w.
Proof. by destruct w. Qed.

Lemma run_bind {A B} (t : Task A) (f : A → Task B) w :
  run env (t ≫= f) w =
  match run env t w with
  | (inl a, w') => run env (f a) w'
  | (inr e, w') => (inr e, w')
  end.
Proof.
  revert w. induction t as [a|e|op k IH]; intros w; simpl; [done..|].
  destruct (perform env op w) as [x w']. apply IH.
Qed.

Lemma run_tryCatch {A} (t : Task A) (h : Js.Thrown → Task A) w :
  run env (tryCatch t h) w =
  match run env t w with
  | (inl a, w') => (inl a, w')
  | (inr e, w') => run env (h e) w'
  end.
Proof.
  revert w. induction t as [a|e|op k IH]; intros w; simpl; [done..|].
  destruct (perform env op w) as [x w']. apply IH.
Qed.

#[local] Arguments mbind : simpl never.
#[local] Arguments cleanCache : simpl never.
#[local] Arguments setCache : simpl never.
#[local] Arguments getCached : simpl never.
#[local] Arguments allRetriesFailed : simpl never.
#[local] Arguments probe : simpl never.
#[local] Arguments interpret : simpl never.
#[local] Arguments attempt : simpl never.
#[local] Arguments validateUrlAt : simpl never.

Ltac run_step := rewrite ?run_bind, ?run_tryCatch; simpl.

(** The effect of [cleanCache] on the cache when the clock reads [now]. *)
Definition sweep (now : Z) (entries c : Cache) : Cache :=
  foldl (λ c kv, if expiresAt kv.2 <? now then mapDelete kv.1 c else c) c entries.

Definition deleteAll (keys : list string) (c : Cache) : Cache :=
  foldl (λ c key, mapDelete key c) c keys.

Lemma sweep_Forall (P : string * CacheEntry → Prop) now entries c :
  Forall P c → Forall P (sweep now entries c).
Proof.
  revert c. induction entries as [|kv entries IH]; intros c Hc; simpl; [done|].
  apply IH. destruct (_ <? _); [by apply mapDelete_Forall|done].
Qed.

Lemma deleteAll_Forall (P : string * CacheEntry → Prop) keys c :
  Forall P c → Forall P (deleteAll keys c).
Proof.
  revert c. induction keys as [|k keys IH]; intros c Hc; simpl; [done|].
  apply IH. by apply mapDelete_Forall.
Qed.

Lemma run_forEach_sweep now entries w :
  run env (forEach entries (λ kv,
    if expiresAt kv.2 <? now then call (CacheDelete kv.1) else Ret tt)) w
  = (inl tt, withCache (sweep now entries (cache w)) w).
Proof.
  unfold sweep. revert w. induction entries as [|kv entries IH]; intros w; simpl.
  - by rewrite withCache_id.
  - rewrite run_bind. by destruct (_ <? _); simpl; rewrite IH.
Qed.

Lemma run_forEach_delete keys w :
  run env (forEach keys (λ key, call (CacheDelete key))) w
  = (inl tt, withCache (deleteAll keys (cache w)) w).
Proof.
  unfold deleteAll. revert w. induction keys as [|k keys IH]; intros w; simpl.
  - by rewrite withCache_id.
  - rewrite IH. done.
Qed.

Lemma run_cleanCache w :
  run env cleanCache w
  = (inl tt, withCache (sweep (clock env (tick w)) (cache w) (cache w)) (ticked w)).
Proof. unfold cleanCache. do 2 run_step. by rewrite run_forEach_sweep. Qed.

#[local] Opaque cleanCache.

(** [setCache] returns, leaves the trace alone, and ends by storing
    the entry with the expiry [CACHE_TTL] after its last reading of the
    clock; what it evicts before comes from the cache it found. *)
Lemma run_setCache u r w :
  ∃ c n,
    run env (setCache u r) w
    = (inl tt, {| cache := mapSet u {| result := r; expiresAt := clock env n + CACHE_TTL |} c;
                  tick := S n; trace := trace w |})
    ∧ (tick w ≤ n)%nat
    ∧ (∀ P : string * CacheEntry → Prop, Forall P (cache w) → Forall P c)
    ∧ (Z.of_nat (length (cache w)) < MAX_CACHE_SIZE → c = cache w ∧ n = tick w).
Proof.
  unfold setCache. do 2 run_step.
  destruct (MAX_CACHE_SIZE <=? Z.of_nat (length (cache w))) eqn:Hfull.
  - run_step.
    rewrite run_cleanCache. run_step.
    destruct (MAX_CACHE_SIZE <=? Z.of_nat (length (sweep _ _ _))) eqn:Hstill.
    + run_step.
      rewrite run_forEach_delete. run_step.
      eexists _, _. split; [reflexivity|]. simpl. split; [lia|]. split.
      * intros P HP. by apply deleteAll_Forall, sweep_Forall.
      * unfold MAX_CACHE_SIZE in *. lia.
    + run_step.
      eexists _, _. split; [reflexivity|]. simpl. split; [lia|]. split.
      * intros P HP. by apply sweep_Forall.
      * unfold MAX_CACHE_SIZE in *. lia.
  - run_step. eexists _, _. split; [reflexivity|]. simpl. split; [lia|].
    split; done.
Qed.

#[local] Opaque setCache.

(** [w'] is [w] after [setCache u r]. *)
Definition stored (u : string) (r : ValidationResult) (w w' : World) : Prop :=
  ∃ c n,
    w' = {| cache := mapSet u {| result := r; expiresAt := clock env n + CACHE_TTL |} c;
            tick := S n; trace := trace w |}
    ∧ (tick w ≤ n)%nat
    ∧ (∀ P : string * CacheEntry → Prop, Forall P (cache w) → Forall P c)
    ∧ (Z.of_nat (length (cache w)) < MAX_CACHE_SIZE → c = cache w ∧ n = tick w).

(** The common end of every path, [setCache(url, result); return result]. *)
Lemma run_store u r w :
  ∃ w', run env (setCache u r ;; Ret r) w = (inl r, w') ∧ stored u r w w'.
Proof.
  destruct (run_setCache u r w) as (c & n & Hrun & Hrest).
  run_step. rewrite Hrun. eexists. split; [reflexivity|].
  by exists c, n.
Qed.

Lemma stored_lookup u r w w' :
  stored u r w w' →
  ∃ n, (tick w ≤ n)%nat ∧ tick w' = S n ∧ trace w' = trace w
       ∧ mapGet u (cache w') = Some {| result := r; expiresAt := clock env n + CACHE_TTL |}.
Proof.
  intros (c & n & -> & Hn & _). exists n. simpl.
  by rewrite mapGet_mapSet_eq.
Qed.

(** *** [getCached] *)

(** The entry of [u] that a lookup in [w] would serve. *)
Definition liveEntry (w : World) (u : string) : option CacheEntry :=
  match mapGet u (cache w) with
  | Some e => if clock env (tick w) <? expiresAt e then Some e else None
  | None => None
  end.

(** The world after a lookup of [u] that finds nothing to serve. *)
Definition missed (w : World) (u : string) : World :=
  match mapGet u (cache w) with
  | Some _ => withCache (mapDelete u (cache w)) (ticked w)
  | None => w
  end.

Lemma run_getCached_hit u e w :
  liveEntry w u = Some e →
  run env (getCached u) w = (inl (Some (result e)), ticked w).
Proof.
  unfold liveEntry, getCached. run_step.
  destruct (mapGet u (cache w)) as [e'|]; [|done].
  run_step. destruct (_ <? _); [|done]. by intros [= ->].
Qed.

Lemma run_getCached_miss u w :
  liveEntry w u = None →
  run env (getCached u) w = (inl None, missed w u).
Proof.
  unfold liveEntry, getCached, missed. run_step.
  destruct (mapGet u (cache w)) as [e'|] eqn:Hget.
  - run_step. by destruct (_ <? _).
  - intros _. simpl. by rewrite mapDelete_absent, withCache_id.
Qed.

#[local] Opaque getCached.

Lemma missed_trace w u : trace (missed w u) = trace w.
Proof. unfold missed. by destruct (mapGet u (cache w)). Qed.

Lemma missed_tick w u : (tick w ≤ tick (missed w u) ≤ S (tick w))%nat.
Proof. unfold missed. destruct (mapGet u (cache w)); simpl; lia. Qed.

Lemma missed_Forall (P : string * CacheEntry → Prop) w u :
  Forall P (cache w) → Forall P (cache (missed w u)).
Proof.
  unfold missed. destruct (mapGet u (cache w)); simpl; [|done].
  apply mapDelete_Forall.
Qed.

Lemma missed_empty w u : cache w = [] → missed w u = w.
Proof. unfold missed. by intros ->. Qed.

(** *** The pieces of [validateUrl] *)

Lemma run_validateUrlAt_hit budget tmo rt u e w :
  liveEntry w u = Some e →
  run env (validateUrlAt budget tmo rt u) w = (inl (result e), ticked w).
Proof.
  intros Hlive. rewrite validateUrlAt_eq. run_step.
  by rewrite (run_getCached_hit _ _ _ Hlive).
Qed.

Lemma run_validateUrlAt_miss budget tmo rt u w :
  liveEntry w u = None →
  run env (validateUrlAt budget tmo rt u) w =
  run env (retryLoop (follower budget tmo rt) u tmo rt (Z.to_nat (rt + 1)) 0 None)
      (missed w u).
Proof.
  intros Hlive. rewrite validateUrlAt_eq. run_step.
  by rewrite (run_getCached_miss _ _ Hlive).
Qed.

Lemma run_allRetriesFailed u lastError w :
  ∃ w',
    run env (allRetriesFailed u lastError) w
    = (inl {| url := u; valid := false; status := 0; finalUrl := None;
              error := Some (Js.orElse lastError "Request failed");
              checkedAt := clock env (tick w) |}, w')
    ∧ stored u {| url := u; valid := false; status := 0; finalUrl := None;
                  error := Some (Js.orElse lastError "Request failed");
                  checkedAt := clock env (tick w) |} (ticked w) w'.
Proof. unfold allRetriesFailed. run_step. apply run_store. Qed.

#[local] Opaque allRetriesFailed.

(** The probe, by what the network answers. *)
Lemma run_probe_rejected u tmo w e :
  net env (tick w) u HEAD tmo = inr e →
  run env (probe u tmo) w = (inr e, ticked (logged (Fetch u HEAD tmo) w)).
Proof. intros Hnet. unfold probe, fetch. run_step. by rewrite Hnet. Qed.

Lemma run_probe_head u tmo w resp :
  net env (tick w) u HEAD tmo = inl resp →
  Response.status resp ≠ 405 → Response.status resp ≠ 501 →
  run env (probe u tmo) w = (inl resp, ticked (logged (Fetch u HEAD tmo) w)).
Proof.
  intros Hnet H405 H501. unfold probe, fetch. run_step. rewrite Hnet. simpl.
  destruct (Z.eqb_spec (Response.status resp) 405); [done|].
  by destruct (Z.eqb_spec (Response.status resp) 501).
Qed.

Lemma run_probe_get u tmo w resp :
  net env (tick w) u HEAD tmo = inl resp →
  Response.status resp = 405 ∨ Response.status resp = 501 →
  run env (probe u tmo) w =
  (net env (S (tick w)) u GET tmo,
   ticked (logged (Fetch u GET tmo) (ticked (logged (Fetch u HEAD tmo) w)))).
Proof.
  intros Hnet Hst. unfold probe, fetch. run_step. rewrite Hnet. simpl.
  replace ((Response.status resp =? 405) || (Response.status resp =? 501))
    with true by (destruct Hst as [-> | ->]; done).
  simpl. by destruct (net env (S (tick w)) u GET tmo).
Qed.

#[local] Opaque probe.

(** The four results [interpret] builds. *)
Definition isRedirect (resp : Response.t) : bool :=
  (300 <=? Response.status resp) && (Response.status resp <? 400).

Definition isSuccess (resp : Response.t) : bool :=
  (200 <=? Response.status resp) && (Response.status resp <? 300).

Definition target (u : string) (resp : Response.t) : string :=
  resolveRedirect u (default "" (Response.location resp)).

Definition terminalResult (u : string) (resp : Response.t) (now : Z) : ValidationResult :=
  {| url := u; valid := isSuccess resp; status := Response.status resp;
     finalUrl := None;
     error := if isSuccess resp then None
              else Some ("HTTP " +:+ pretty (Response.status resp));
     checkedAt := now |}.

Definition noLocationResult (u : string) (resp : Response.t) (now : Z) : ValidationResult :=
  {| url := u; valid := false; status := Response.status resp; finalUrl := None;
     error := Some "Redirect with no Location header"; checkedAt := now |}.

Definition tooManyResult (u : string) (resp : Response.t) (now : Z) : ValidationResult :=
  {| url := u; valid := false; status := Response.status resp; finalUrl := None;
     error := Some "Too many redirects"; checkedAt := now |}.

Definition followedResult (u : string) (resp : Response.t)
    (inner : ValidationResult) (now : Z) : ValidationResult :=
  {| url := u; valid := valid inner; status := Response.status resp;
     finalUrl := Some (Js.orElse (finalUrl inner) (target u resp));
     error := error inner; checkedAt := now |}.

Lemma run_interpret_terminal follow u resp w :
  isRedirect resp = false →
  ∃ w', run env (interpret follow u resp) w
        = (inl (terminalResult u resp (clock env (tick w))), w')
      ∧ stored u (terminalResult u resp (clock env (tick w))) (ticked w) w'.
Proof.
  unfold isRedirect. intros Hred. unfold interpret. rewrite Hred.
  run_step. apply run_store.
Qed.

Lemma run_interpret_noLocation follow u resp w :
  isRedirect resp = true → Js.falsy (Response.location resp) = true →
  ∃ w', run env (interpret follow u resp) w
        = (inl (noLocationResult u resp (clock env (tick w))), w')
      ∧ stored u (noLocationResult u resp (clock env (tick w))) (ticked w) w'.
Proof.
  unfold isRedirect. intros Hred Hloc. unfold interpret. rewrite Hred, Hloc.
  run_step. apply run_store.
Qed.

Lemma run_interpret_tooMany u resp w :
  isRedirect resp = true → Js.falsy (Response.location resp) = false →
  ∃ w', run env (interpret None u resp) w
        = (inl (tooManyResult u resp (clock env (tick w))), w')
      ∧ stored u (tooManyResult u resp (clock env (tick w))) (ticked w) w'.
Proof.
  unfold isRedirect. intros Hred Hloc. unfold interpret. rewrite Hred, Hloc.
  run_step. apply run_store.
Qed.

Lemma run_interpret_followed validateUrl' u resp w inner w1 :
  isRedirect resp = true → Js.falsy (Response.location resp) = false →
  run env (validateUrl' (target u resp)) w = (inl inner, w1) →
  ∃ w', run env (interpret (Some validateUrl') u resp) w
        = (inl (followedResult u resp inner (clock env (tick w1))), w')
      ∧ stored u (followedResult u resp inner (clock env (tick w1))) (ticked w1) w'.
Proof.
  unfold isRedirect, target. intros Hred Hloc Hin.
  unfold interpret. rewrite Hred, Hloc.
  run_step. rewrite Hin. run_step.
  destruct (run_store u (followedResult u resp inner (clock env (tick w1)))
              (ticked w1)) as (w' & Hrun & Hst).
  rewrite run_bind in Hrun. by exists w'.
Qed.

Lemma run_interpret_followed_thrown validateUrl' u resp w e w1 :
  isRedirect resp = true → Js.falsy (Response.location resp) = false →
  run env (validateUrl' (target u resp)) w = (inr e, w1) →
  run env (interpret (Some validateUrl') u resp) w = (inr e, w1).
Proof.
  unfold isRedirect, target. intros Hred Hloc Hin.
  unfold interpret. rewrite Hred, Hloc.
  run_step. by rewrite Hin.
Qed.

#[local] Opaque interpret.

Lemma run_retryLoop_S follow u tmo rt remaining attemptNo lastError w :
  run env (retryLoop follow u tmo rt (S remaining) attemptNo lastError) w =
  match run env (probe u tmo) w with
  | (inl resp, w1) =>
      match run env (interpret follow u resp) w1 with
      | (inl r, w2) => (inl r, w2)
      | (inr e, w2) => run env (onError follow u tmo rt remaining attemptNo e) w2
      end
  | (inr e, w1) => run env (onError follow u tmo rt remaining attemptNo e) w1
  end.
Proof.
  rewrite retryLoop_S, run_tryCatch. unfold attempt. rewrite run_bind.
  destruct (run env (probe u tmo) w) as [[resp|e] w1]; [|done].
  by destruct (run env (interpret follow u resp) w1) as [[r|e] w2].
Qed.

(** *** Every call returns, and caches what it returns *)

Lemma probe_tick u tmo w o w1 :
  run env (probe u tmo) w = (o, w1) → (tick w < tick w1)%nat.
Proof.
  destruct (net env (tick w) u HEAD tmo) as [resp|e] eqn:Hnet.
  - destruct (decide (Response.status resp = 405 ∨ Response.status resp = 501))
      as [Hst|Hst].
    + rewrite (run_probe_get _ _ _ _ Hnet Hst). intros [= _ <-]. simpl. lia.
    + rewrite (run_probe_head _ _ _ _ Hnet) by tauto. intros [= _ <-]. simpl. lia.
  - rewrite (run_probe_rejected _ _ _ _ Hnet). intros [= _ <-]. simpl. lia.
Qed.

(** What a call that had to probe leaves behind: the result under its
    URL, stored by a [setCache] that started in [w0]. *)
Definition settled (u : string) (w : World) (r : ValidationResult) (w' : World) : Prop :=
  url r = u ∧ ∃ w0, (tick w ≤ tick w0)%nat ∧ stored u r w0 w'.

(** A nested call that returns, later than it started. *)
Definition returning (v : string → Task ValidationResult) : Prop :=
  ∀ x w, ∃ r w', run env (v x) w = (inl r, w') ∧ (tick w ≤ tick w')%nat.

Lemma interpret_settled follow u resp w :
  (∀ v, follow = Some v → returning v) →
  ∃ r w', run env (interpret follow u resp) w = (inl r, w') ∧ settled u w r w'.
Proof.
  intros Hfollow.
  destruct (isRedirect resp) eqn:Hred.
  - destruct (Js.falsy (Response.location resp)) eqn:Hloc.
    + destruct (run_interpret_noLocation follow u resp w Hred Hloc) as (w' & -> & Hst).
      eexists _, w'. split; [done|]. split; [done|].
      exists (ticked w). simpl. split; [lia|done].
    + destruct follow as [v|].
      * destruct (Hfollow v eq_refl (target u resp) w) as (inner & w1 & Hin & Htick).
        destruct (run_interpret_followed v u resp w inner w1 Hred Hloc Hin)
          as (w' & -> & Hst).
        eexists _, w'. split; [done|]. split; [done|].
        exists (ticked w1). simpl. split; [lia|done].
      * destruct (run_interpret_tooMany u resp w Hred Hloc) as (w' & -> & Hst).
        eexists _, w'. split; [done|]. split; [done|].
        exists (ticked w). simpl. split; [lia|done].
  - destruct (run_interpret_terminal follow u resp w Hred) as (w' & -> & Hst).
    eexists _, w'. split; [done|]. split; [done|].
    exists (ticked w). simpl. split; [lia|done].
Qed.

Lemma settled_mono u w1 w2 r w' :
  (tick w1 ≤ tick w2)%nat → settled u w2 r w' → settled u w1 r w'.
Proof. intros Hle (Hu & w0 & H0 & Hst). split; [done|]. exists w0. split; [lia|done]. Qed.

Lemma allRetriesFailed_settled u lastError w :
  ∃ r w', run env (allRetriesFailed u lastError) w = (inl r, w')
          ∧ settled u w r w' ∧ valid r = false ∧ status r = 0
          ∧ error r = Some (Js.orElse lastError "Request failed").
Proof.
  destruct (run_allRetriesFailed u lastError w) as (w' & -> & Hst).
  eexists _, w'. split; [done|]. split; [|done]. split; [done|].
  exists (ticked w). simpl. split; [lia|done].
Qed.

Lemma retryLoop_settled follow u tmo rt remaining attemptNo lastError w :
  (∀ v, follow = Some v → returning v) →
  ∃ r w', run env (retryLoop follow u tmo rt remaining attemptNo lastError) w
          = (inl r, w') ∧ settled u w r w'.
Proof.
  intros Hfollow. revert attemptNo lastError w.
  induction remaining as [|remaining IH]; intros attemptNo lastError w.
  - destruct (allRetriesFailed_settled u lastError w) as (r & w' & Hrun & Hs & _).
    by exists r, w'.
  - rewrite run_retryLoop_S.
    assert (∀ e w1, (tick w ≤ tick w1)%nat →
      ∃ r w', run env (onError follow u tmo rt remaining attemptNo e) w1
              = (inl r, w') ∧ settled u w r w') as Hcatch.
    { intros e w1 Hle. unfold onError. destruct (classify e) as [lastError' [|]].
      - destruct (allRetriesFailed_settled u (Some lastError') w1)
          as (r & w' & Hrun & Hs & _).
        exists r, w'. split; [done|]. by eapply settled_mono.
      - run_step.
        destruct ((attemptNo <? rt) && negb (Js.includes lastError' "timeout")); simpl.
        + destruct (IH (attemptNo + 1) (Some lastError') (logged (Sleep 500) w1))
            as (r & w' & Hrun & Hs).
          exists r, w'. split; [done|]. eapply settled_mono; [|done]. simpl. lia.
        + destruct (IH (attemptNo + 1) (Some lastError') w1) as (r & w' & Hrun & Hs).
          exists r, w'. split; [done|]. by eapply settled_mono. }
    destruct (run env (probe u tmo) w) as [[resp|e] w1] eqn:Hprobe.
    + apply probe_tick in Hprobe.
      destruct (interpret_settled follow u resp w1 Hfollow) as (r & w' & -> & Hs).
      exists r, w'. split; [done|]. eapply settled_mono; [|done]. lia.
    + apply probe_tick in Hprobe. apply Hcatch. lia.
Qed.

Lemma settled_tick u w r w' : settled u w r w' → (tick w < tick w')%nat.
Proof.
  intros (_ & w0 & Hle & Hst). apply stored_lookup in Hst as (n & Hn & -> & _). lia.
Qed.

Lemma validateUrlAt_returning budget tmo rt :
  returning (validateUrlAt budget tmo rt).
Proof.
  induction budget as [|budget IH]; intros u w;
    (destruct (liveEntry w u) as [e|] eqn:Hlive;
     [rewrite (run_validateUrlAt_hit _ _ _ _ _ _ Hlive);
      eexists _, _; split; [done|]; simpl; lia|]);
    rewrite (run_validateUrlAt_miss _ _ _ _ _ Hlive).
  - destruct (retryLoop_settled (follower 0 tmo rt) u tmo rt
                (Z.to_nat (rt + 1)) 0 None (missed w u)) as (r & w' & -> & Hs);
      [done|].
    exists r, w'. split; [done|]. apply settled_tick in Hs.
    pose proof (missed_tick w u). lia.
  - destruct (retryLoop_settled (follower (S budget) tmo rt) u tmo rt
                (Z.to_nat (rt + 1)) 0 None (missed w u)) as (r & w' & -> & Hs).
    { by intros v [= <-]. }
    exists r, w'. split; [done|]. apply settled_tick in Hs.
    pose proof (missed_tick w u). lia.
Qed.

Lemma follower_returning budget tmo rt v :
  follower budget tmo rt = Some v → returning v.
Proof.
  destruct budget; [done|]. intros [= <-]. apply validateUrlAt_returning.
Qed.

(** A call that finds no live entry probes, returns, and leaves its
    result in the cache under its URL. *)
Lemma validateUrlAt_settled budget tmo rt u w :
  liveEntry w u = None →
  ∃ r w', run env (validateUrlAt budget tmo rt u) w = (inl r, w')
          ∧ settled u w r w'.
Proof.
  intros Hlive. rewrite (run_validateUrlAt_miss _ _ _ _ _ Hlive).
  destruct (retryLoop_settled (follower budget tmo rt) u tmo rt
              (Z.to_nat (rt + 1)) 0 None (missed w u)) as (r & w' & Hrun & Hs).
  { apply follower_returning. }
  exists r, w'. split; [done|]. eapply settled_mono; [|done].
  apply missed_tick.
Qed.

(** *** The cache serves what was stored *)

Lemma validateUrlAt_cached budget tmo rt u w r w' :
  run env (validateUrlAt budget tmo rt u) w = (inl r, w') →
  ∃ e, mapGet u (cache w') = Some e ∧ result e = r
       ∧ (liveEntry w u = None →
          ∃ n, (tick w ≤ n < tick w')%nat ∧ expiresAt e = clock env n + CACHE_TTL).
Proof.
  intros Hrun. destruct (liveEntry w u) as [e|] eqn:Hlive.
  - rewrite (run_validateUrlAt_hit _ _ _ _ _ _ Hlive) in Hrun.
    injection Hrun as <- <-. exists e. split; [|done].
    unfold liveEntry in Hlive. simpl.
    destruct (mapGet u (cache w)) as [e'|]; [|done].
    destruct (_ <? _); [|done]. by injection Hlive as ->.
  - destruct (validateUrlAt_settled budget tmo rt u w Hlive)
      as (r' & w'' & Hrun' & _ & w0 & Hle & Hst).
    rewrite Hrun in Hrun'. injection Hrun' as <- <-.
    apply stored_lookup in Hst as (n & Hn & Htick & _ & Hget).
    eexists. split; [exact Hget|]. split; [done|]. intros _. exists n.
    simpl. split; [lia|done].
Qed.

Lemma validateUrlAt_served budget tmo rt u w e :
  mapGet u (cache w) = Some e → clock env (tick w) < expiresAt e →
  run env (validateUrlAt budget tmo rt u) w = (inl (result e), ticked w).
Proof.
  intros Hget Hclock. apply run_validateUrlAt_hit.
  unfold liveEntry. rewrite Hget.
  by destruct (Z.ltb_spec (clock env (tick w)) (expiresAt e)); [|lia].
Qed.

(** C7. Whatever [validateUrl] returns is in the cache under its URL
    when it returns; a result obtained by probing was stored with an
    expiry of five minutes after a reading of the clock made during
    the call.  A second call on the same URL, made while the clock is
    before that expiry, returns the first result and completes no
    request: of two such calls only the first reaches the network. *)
Theorem result_cached_for_ttl u options w :
  CACHE_TTL = 5 * 60 * 1000 ∧
  ∃ r w1 e,
    run env (validateUrl u options) w = (inl r, w1)
    ∧ mapGet u (cache w1) = Some e ∧ result e = r
    ∧ (liveEntry w u = None →
       ∃ n, (tick w ≤ n < tick w1)%nat ∧ expiresAt e = clock env n + CACHE_TTL)
    ∧ (clock env (tick w1) < expiresAt e →
       ∃ w2, run env (validateUrl u options) w1 = (inl r, w2)
             ∧ trace w2 = trace w1 ∧ cache w2 = cache w1).
Proof.
  split; [done|]. unfold validateUrl.
  set (budget := Z.to_nat _). set (tmo := cfg_timeout _). set (rt := cfg_retries _).
  destruct (validateUrlAt_returning budget tmo rt u w) as (r & w1 & Hrun & _).
  destruct (validateUrlAt_cached _ _ _ _ _ _ _ Hrun) as (e & Hget & Hres & Hfresh).
  exists r, w1, e. repeat split; try done.
  intros Hclock. exists (ticked w1).
  rewrite (validateUrlAt_served budget tmo rt u w1 e Hget Hclock).
  by rewrite Hres.
Qed.

(** *** Redirect chains *)

(** The statuses on which the probe falls back on a ranged GET. *)
Definition refused (resp : Response.t) : bool :=
  (Response.status resp =? 405) || (Response.status resp =? 501).

(** [ProbeAnswer tmo u resp]: whenever [u] is probed, [resp] is the
    response the probe goes on with.  Either the HEAD request is
    answered by [resp], which does not refuse the method; or the HEAD
    request is answered 405 or 501 and the ranged GET that follows is
    answered by [resp]. *)
Inductive ProbeAnswer (tmo : Z) (u : string) (resp : Response.t) : Prop :=
| answer_head :
    (∀ t, net env t u HEAD tmo = inl resp) →
    refused resp = false →
    ProbeAnswer tmo u resp
| answer_get head :
    (∀ t, net env t u HEAD tmo = inl head) →
    refused head = true →
    (∀ t, net env t u GET tmo = inl resp) →
    ProbeAnswer tmo u resp.

(** [RedirectChain tmo u n v]: the probe of [u] answers a redirect
    with a [Location], so does the probe of its target, and so on [n]
    times, up to [v], whose probe answers a 2xx status. *)
Inductive RedirectChain (tmo : Z) : string → nat → string → Prop :=
| chain_end u resp :
    isSuccess resp = true →
    ProbeAnswer tmo u resp →
    RedirectChain tmo u 0 u
| chain_hop u resp n v :
    isRedirect resp = true →
    Js.falsy (Response.location resp) = false →
    ProbeAnswer tmo u resp →
    RedirectChain tmo (target u resp) n v →
    RedirectChain tmo u (S n) v.

Lemma target_nonempty u resp :
  Js.falsy (Response.location resp) = false → target u resp ≠ "".
Proof.
  unfold target, resolveRedirect. destruct (Response.location resp) as [loc|]; [|done].
  simpl. intros Hloc.
  assert (loc ≠ "") as Hne by (intros ->; done).
  destruct (negb (Js.startsWith loc "http")); [|done].
  destruct (newURL u) as [base|]; [|done].
  destruct (newURLFrom loc (origin base)) as [tgt|] eqn:Htgt; [|done].
  by eapply newURLFrom_href.
Qed.

Lemma chain_terminal_nonempty tmo u n v :
  RedirectChain tmo u (S n) v → v ≠ "".
Proof.
  revert u. induction n as [|n IH]; intros u Hchain;
    inversion Hchain as [|? resp ? ? Hred Hloc Hnet Hrest]; subst.
  - inversion Hrest; subst. by apply target_nonempty.
  - by eapply IH.
Qed.

Lemma redirect_not_refused resp :
  isRedirect resp = true →
  Response.status resp ≠ 405 ∧ Response.status resp ≠ 501.
Proof. unfold isRedirect. lia. Qed.

Lemma success_not_refused resp :
  isSuccess resp = true →
  Response.status resp ≠ 405 ∧ Response.status resp ≠ 501
  ∧ isRedirect resp = false.
Proof. unfold isSuccess, isRedirect. lia. Qed.

(** The probe of a URL with a [ProbeAnswer] returns it, after one
    request or two, and leaves the cache alone. *)
Lemma run_probe_answer tmo u resp w :
  ProbeAnswer tmo u resp →
  ∃ wp, run env (probe u tmo) w = (inl resp, wp) ∧ cache wp = cache w
        ∧ (trace wp = trace w ++ [Fetch u HEAD tmo]
           ∨ trace wp = trace w ++ [Fetch u HEAD tmo; Fetch u GET tmo]).
Proof.
  intros [Hhead Hok|head Hhead Hno Hget].
  - unfold refused in Hok. apply orb_false_iff in Hok as [H405 H501].
    rewrite (run_probe_head u tmo w resp (Hhead _)) by lia.
    eexists. split; [done|]. split; [done|]. by left.
  - unfold refused in Hno.
    rewrite (run_probe_get u tmo w head (Hhead _)) by lia.
    rewrite Hget. eexists. split; [done|]. split; [done|]. right.
    simpl. by rewrite <- app_assoc.
Qed.

(** One step of a followed redirect: the result of the outer call is
    built from the result of the nested one. *)
Lemma run_validateUrlAt_follow budget tmo rt u w resp :
  0 ≤ rt → liveEntry w u = None →
  net env (tick (missed w u)) u HEAD tmo = inl resp →
  isRedirect resp = true → Js.falsy (Response.location resp) = false →
  ∃ inner w1 w',
    run env (validateUrlAt budget tmo rt (target u resp))
        (ticked (logged (Fetch u HEAD tmo) (missed w u))) = (inl inner, w1)
    ∧ run env (validateUrlAt (S budget) tmo rt u) w
      = (inl (followedResult u resp inner (clock env (tick w1))), w')
    ∧ stored u (followedResult u resp inner (clock env (tick w1))) (ticked w1) w'.
Proof.
  intros Hrt Hlive Hnet Hred Hloc.
  destruct (redirect_not_refused resp Hred) as [H405 H501].
  destruct (validateUrlAt_returning budget tmo rt (target u resp)
              (ticked (logged (Fetch u HEAD tmo) (missed w u))))
    as (inner & w1 & Hin & _).
  rewrite (run_validateUrlAt_miss _ _ _ _ _ Hlive).
  destruct (Z.to_nat (rt + 1)) as [|remaining] eqn:Hrem; [lia|].
  rewrite run_retryLoop_S, (run_probe_head _ _ _ _ Hnet H405 H501).
  destruct (run_interpret_followed (validateUrlAt budget tmo rt) u resp _ inner w1
              Hred Hloc Hin) as (w' & Hrun & Hst).
  simpl. rewrite Hrun. by exists inner, w1, w'.
Qed.

Lemma liveEntry_empty w u : cache w = [] → liveEntry w u = None.
Proof. unfold liveEntry. by intros ->. Qed.

(** A call whose first probe is answered is decided by that answer. *)
Lemma run_validateUrlAt_probed budget tmo rt u w resp wp :
  0 ≤ rt → liveEntry w u = None →
  run env (probe u tmo) (missed w u) = (inl resp, wp) →
  run env (validateUrlAt budget tmo rt u) w
  = run env (interpret (follower budget tmo rt) u resp) wp.
Proof.
  intros Hrt Hlive Hprobe. rewrite (run_validateUrlAt_miss _ _ _ _ _ Hlive).
  destruct (Z.to_nat (rt + 1)) as [|remaining] eqn:Hrem; [lia|].
  rewrite run_retryLoop_S, Hprobe.
  destruct (interpret_settled (follower budget tmo rt) u resp wp)
    as (r & w' & -> & _); [apply follower_returning|done].
Qed.

Lemma chain_resolved tmo rt u n v :
  0 ≤ rt → RedirectChain tmo u n v →
  ∀ budget w, cache w = [] →
  ∃ r w', run env (validateUrlAt budget tmo rt u) w = (inl r, w')
    ∧ ((n ≤ budget)%nat →
       valid r = true ∧ error r = None
       ∧ finalUrl r = match n with O => None | S _ => Some v end)
    ∧ ((budget < n)%nat →
       valid r = false ∧ error r = Some "Too many redirects").
Proof.
  intros Hrt. induction 1 as [u resp Hok Hans|u resp n v Hred Hloc Hans Hrest IH];
    intros budget w Hempty.
  - destruct (success_not_refused resp Hok) as (_ & _ & Hred).
    destruct (run_probe_answer tmo u resp w Hans) as (wp & Hprobe & _).
    rewrite <- (missed_empty w u Hempty) in Hprobe.
    rewrite (run_validateUrlAt_probed budget tmo rt u w resp wp Hrt
               (liveEntry_empty w u Hempty) Hprobe).
    destruct (run_interpret_terminal (follower budget tmo rt) u resp wp Hred)
      as (w' & Hrun & _).
    eexists _, w'. split; [exact Hrun|]. simpl.
    fold (isSuccess resp). rewrite Hok. split; [done|lia].
  - destruct (run_probe_answer tmo u resp w Hans) as (wp & Hprobe & Hcache & _).
    rewrite <- (missed_empty w u Hempty) in Hprobe.
    rewrite (run_validateUrlAt_probed budget tmo rt u w resp wp Hrt
               (liveEntry_empty w u Hempty) Hprobe).
    destruct budget as [|budget].
    + destruct (run_interpret_tooMany u resp wp Hred Hloc) as (w' & Hrun & _).
      eexists _, w'. split; [exact Hrun|]. simpl. split; [lia|done].
    + destruct (IH budget wp) as (inner & w1 & Hin & Hwithin & Hover).
      { by rewrite Hcache. }
      destruct (run_interpret_followed (validateUrlAt budget tmo rt) u resp wp
                  inner w1 Hred Hloc Hin) as (w' & Hrun & _).
      eexists _, w'. split; [exact Hrun|]. simpl. split.
      * intros Hle. destruct Hwithin as (Hv & He & Hf); [lia|].
        split; [done|]. split; [done|]. rewrite Hf. f_equal.
        destruct n as [|n]; simpl.
        -- by inversion Hrest.
        -- apply chain_terminal_nonempty in Hrest.
           by destruct (String.eqb_spec v "").
      * intros Hlt. apply Hover. lia.
Qed.

(** C2. A URL whose probe responses form a chain of [n] redirects that
    ends at a URL answering 2xx, validated from an empty cache.  The
    response of a probe is the answer to its HEAD request or, when
    that answer is 405 or 501, the answer to the ranged GET that
    follows; any hop of the chain may be of either kind.  With
    [maxRedirects >= n] the result is valid, without error, and for
    [n >= 1] its [finalUrl] is the last URL of the chain (for [n = 0]
    there is no redirect and [finalUrl] is absent); with
    [maxRedirects < n] the result is invalid with the error
    "Too many redirects".  In a chain of at least one hop followed with
    [maxRedirects > 0], the probe answers the first redirect, the rest
    of the chain starts at its target, and [valid] and [error] of the
    result are those of the nested call on the target, made with one
    redirect less, while [finalUrl] is that call's [finalUrl], or the
    target when it has none. *)
Theorem redirect_chain_resolved u options n v w :
  0 ≤ cfg_retries (withDefaults options) →
  RedirectChain (cfg_timeout (withDefaults options)) u n v →
  cache w = [] →
  ∃ r w',
    run env (validateUrl u options) w = (inl r, w')
    ∧ (Z.of_nat n ≤ cfg_maxRedirects (withDefaults options) →
       valid r = true ∧ error r = None
       ∧ (n ≠ 0%nat → finalUrl r = Some v) ∧ (n = 0%nat → finalUrl r = None))
    ∧ (cfg_maxRedirects (withDefaults options) < Z.of_nat n → n ≠ 0%nat →
       valid r = false ∧ error r = Some "Too many redirects")
    ∧ (n ≠ 0%nat → 0 < cfg_maxRedirects (withDefaults options) →
       ∃ resp wp inner w1,
         run env (probe u (cfg_timeout (withDefaults options))) w = (inl resp, wp)
         ∧ isRedirect resp = true
         ∧ RedirectChain (cfg_timeout (withDefaults options)) (target u resp)
             (Nat.pred n) v
         ∧ run env (validateUrlAt (Z.to_nat (cfg_maxRedirects (withDefaults options) - 1))
                      (cfg_timeout (withDefaults options))
                      (cfg_retries (withDefaults options)) (target u resp)) wp
           = (inl inner, w1)
         ∧ valid r = valid inner ∧ error r = error inner
         ∧ finalUrl r = Some (Js.orElse (finalUrl inner) (target u resp))).
Proof.
  intros Hrt Hchain Hempty. unfold validateUrl.
  set (m := cfg_maxRedirects _) in *. set (tmo := cfg_timeout _) in *.
  set (rt := cfg_retries _) in *.
  destruct (chain_resolved tmo rt u n v Hrt Hchain (Z.to_nat m) w Hempty)
    as (r & w' & Hrun & Hwithin & Hover).
  exists r, w'. split; [done|]. split; [|split].
  - intros Hle. destruct Hwithin as (Hv & He & Hf); [lia|].
    split; [done|]. split; [done|]. split.
    + intros Hn. by destruct n.
    + by intros ->.
  - intros Hlt Hn. apply Hover. lia.
  - intros Hn Hm.
    inversion Hchain as [|? resp ? ? Hred Hloc Hans Hrest]; subst; [done|].
    destruct (run_probe_answer tmo u resp w Hans) as (wp & Hprobe & Hcache & _).
    destruct (Z.to_nat m) as [|budget] eqn:Hbudget; [lia|].
    destruct (validateUrlAt_returning budget tmo rt (target u resp) wp)
      as (inner & w1 & Hin & _).
    exists resp, wp, inner, w1. split; [done|]. split; [done|]. split; [done|].
    replace (Z.to_nat (m - 1)) with budget by lia. split; [done|].
    rewrite <- (missed_empty w u Hempty) in Hprobe.
    rewrite (run_validateUrlAt_probed (S budget) tmo rt u w resp wp Hrt
               (liveEntry_empty w u Hempty) Hprobe) in Hrun.
    destruct (run_interpret_followed (validateUrlAt budget tmo rt) u resp wp
                inner w1 Hred Hloc Hin) as (w'' & Hrun' & _).
    simpl in Hrun. rewrite Hrun' in Hrun. by injection Hrun as <- <-.
Qed.

(** *** Results and the resolution of a URL *)











(** C10. The cache is keyed by the URL alone.  Once a call with
    options [o1] has returned, a call on the same URL with any other
    options [o2], made while the clock is before the expiry of the
    entry, returns the first result and reaches no network.  The same
    holds for the target of a followed redirect: the nested call on
    the target ran with [maxRedirects - 1], its result stays in the
    cache under the target (unless the cache is full and evicts it),
    and a later call on the target gets that result whatever budget it
    is given. *)
Theorem cache_ignores_options u o1 o2 w :
  (∃ r w1 e,
     run env (validateUrl u o1) w = (inl r, w1)
     ∧ mapGet u (cache w1) = Some e
     ∧ (clock env (tick w1) < expiresAt e →
        run env (validateUrl u o2) w1 = (inl r, ticked w1)))
  ∧ (∀ resp,
       0 ≤ cfg_retries (withDefaults o1) →
       0 < cfg_maxRedirects (withDefaults o1) →
       liveEntry w u = None →
       net env (tick (missed w u)) u HEAD (cfg_timeout (withDefaults o1)) = inl resp →
       isRedirect resp = true →
       Js.falsy (Response.location resp) = false →
       target u resp ≠ u →
       ∃ inner w0 r w1,
         run env (validateUrlAt (Z.to_nat (cfg_maxRedirects (withDefaults o1) - 1))
                    (cfg_timeout (withDefaults o1)) (cfg_retries (withDefaults o1))
                    (target u resp))
             (ticked (logged (Fetch u HEAD (cfg_timeout (withDefaults o1)))
                        (missed w u)))
         = (inl inner, w0)
         ∧ run env (validateUrl u o1) w = (inl r, w1)
         ∧ (Z.of_nat (length (cache w0)) < MAX_CACHE_SIZE →
            ∃ e, mapGet (target u resp) (cache w1) = Some e
                 ∧ result e = inner
                 ∧ (clock env (tick w1) < expiresAt e →
                    run env (validateUrl (target u resp) o2) w1
                    = (inl inner, ticked w1)))).
Proof.
  split.
  - unfold validateUrl.
    destruct (validateUrlAt_returning (Z.to_nat (cfg_maxRedirects (withDefaults o1)))
                (cfg_timeout (withDefaults o1)) (cfg_retries (withDefaults o1)) u w)
      as (r & w1 & Hrun & _).
    destruct (validateUrlAt_cached _ _ _ _ _ _ _ Hrun) as (e & Hget & Hres & _).
    exists r, w1, e. split; [done|]. split; [done|]. intros Hclock.
    rewrite (validateUrlAt_served _ _ _ u w1 e Hget Hclock). by rewrite Hres.
  - intros resp Hrt Hm Hlive Hnet Hred Hloc Hne. unfold validateUrl.
    set (tmo := cfg_timeout (withDefaults o1)) in *.
    set (rt := cfg_retries (withDefaults o1)) in *.
    destruct (Z.to_nat (cfg_maxRedirects (withDefaults o1))) as [|budget] eqn:Hb;
      [lia|].
    replace (Z.to_nat (cfg_maxRedirects (withDefaults o1) - 1)) with budget by lia.
    destruct (run_validateUrlAt_follow budget tmo rt u w resp Hrt Hlive Hnet Hred Hloc)
      as (inner & w0 & w1 & Hin & Hrun & Hst).
    eexists inner, w0, _, w1. split; [done|]. split; [exact Hrun|]. intros Hsmall.
    destruct (validateUrlAt_cached _ _ _ _ _ _ _ Hin) as (e & Hget & Hres & _).
    destruct Hst as (c & n & -> & _ & _ & Hexact).
    destruct (Hexact Hsmall) as [-> ->]. simpl.
    exists e. rewrite mapGet_mapSet_ne by done. split; [done|]. split; [done|].
    intros Hclock.
    rewrite (validateUrlAt_served _ _ _ (target u resp) _ e); [by rewrite Hres| |done].
    simpl. by rewrite mapGet_mapSet_ne.
Qed.

(** *** Failing closed *)



(** *** Timeouts *)

Lemma classify_abort msg :
  classify (Js.ErrorObject false "AbortError" msg) = ("Request timeout", true).
Proof. done. Qed.

(** C5 (amended). A probe that ends in the abort of its timer is not
    retried: whatever [retries] is, the call makes one attempt, sleeps
    for no backoff, and returns the invalid result "Request timeout".
    The attempt is the HEAD request alone when that request is aborted;
    when the server refuses HEAD (405 or 501) it is the HEAD request
    and the ranged GET, which has a timer of its own, and nothing
    follows the abort of the GET either.

    Time is read off the clock of the environment: its reading at a
    tick is the time at which the question of that tick is asked, so
    the reading at the tick of a request is the time the request is
    sent, and the next reading the time it is settled.  The result is
    stamped as soon as the aborted request is settled.  A request
    being settled, by its answer or by its abort, no later than
    [timeout] after it was sent, the result comes within one [timeout]
    of the sending of the HEAD request when that request is aborted,
    and within two when the GET is. *)
Theorem timeout_not_retried u options w msg :
  0 ≤ cfg_retries (withDefaults options) →
  liveEntry w u = None →
  (∀ t, net env t u HEAD (cfg_timeout (withDefaults options))
        = inr (Js.ErrorObject false "AbortError" msg)
      ∨ (∃ resp, net env t u HEAD (cfg_timeout (withDefaults options)) = inl resp
                 ∧ (Response.status resp = 405 ∨ Response.status resp = 501)
                 ∧ net env (S t) u GET (cfg_timeout (withDefaults options))
                   = inr (Js.ErrorObject false "AbortError" msg))) →
  ∃ r w',
    run env (validateUrl u options) w = (inl r, w')
    ∧ valid r = false ∧ status r = 0 ∧ error r = Some "Request timeout"
    ∧ (trace w' = trace w ++ [Fetch u HEAD (cfg_timeout (withDefaults options))]
       ∨ trace w' = trace w ++ [Fetch u HEAD (cfg_timeout (withDefaults options));
                                Fetch u GET (cfg_timeout (withDefaults options))])
    ∧ (net env (tick (missed w u)) u HEAD (cfg_timeout (withDefaults options))
         = inr (Js.ErrorObject false "AbortError" msg) →
       trace w' = trace w ++ [Fetch u HEAD (cfg_timeout (withDefaults options))]
       ∧ checkedAt r = clock env (S (tick (missed w u)))
       ∧ (clock env (S (tick (missed w u)))
            ≤ clock env (tick (missed w u)) + cfg_timeout (withDefaults options) →
          checkedAt r
            ≤ clock env (tick (missed w u)) + cfg_timeout (withDefaults options)))
    ∧ (∀ resp,
         net env (tick (missed w u)) u HEAD (cfg_timeout (withDefaults options))
           = inl resp →
         trace w' = trace w ++ [Fetch u HEAD (cfg_timeout (withDefaults options));
                                Fetch u GET (cfg_timeout (withDefaults options))]
         ∧ checkedAt r = clock env (S (S (tick (missed w u))))
         ∧ (clock env (S (tick (missed w u)))
              ≤ clock env (tick (missed w u)) + cfg_timeout (withDefaults options) →
            clock env (S (S (tick (missed w u))))
              ≤ clock env (S (tick (missed w u))) + cfg_timeout (withDefaults options) →
            checkedAt r
              ≤ clock env (tick (missed w u))
                + 2 * cfg_timeout (withDefaults options))).
Proof.
  intros Hrt Hmiss Hnet. unfold validateUrl.
  set (tmo := cfg_timeout (withDefaults options)) in *.
  set (rt := cfg_retries (withDefaults options)) in *.
  rewrite run_validateUrlAt_miss by done.
  destruct (Z.to_nat (rt + 1)) as [|remaining] eqn:Hrem; [lia|].
  rewrite run_retryLoop_S.
  destruct (Hnet (tick (missed w u))) as [Habort | (resp & Hhead & Hst & Hget)].
  - rewrite (run_probe_rejected _ _ _ _ Habort). unfold onError.
    rewrite classify_abort.
    destruct (run_allRetriesFailed u (Some "Request timeout")
                (ticked (logged (Fetch u HEAD tmo) (missed w u))))
      as (w' & Hrun & Hst).
    rewrite Hrun. eexists _, w'. split; [reflexivity|].
    apply stored_lookup in Hst as (n & _ & _ & Htr & _).
    simpl in Htr. rewrite missed_trace in Htr.
    split; [done|]. split; [done|]. split; [done|]. split; [by left|].
    split.
    + intros _. split; [done|]. split; [done|]. simpl. lia.
    + intros resp' Hresp. congruence.
  - rewrite (run_probe_get _ _ _ _ Hhead Hst), Hget. unfold onError.
    rewrite classify_abort.
    destruct (run_allRetriesFailed u (Some "Request timeout")
                (ticked (logged (Fetch u GET tmo)
                   (ticked (logged (Fetch u HEAD tmo) (missed w u))))))
      as (w' & Hrun & Hst').
    rewrite Hrun. eexists _, w'. split; [reflexivity|].
    apply stored_lookup in Hst' as (n & _ & _ & Htr & _).
    simpl in Htr. rewrite missed_trace, <- app_assoc in Htr.
    split; [done|]. split; [done|]. split; [done|]. split; [by right|].
    split.
    + intros Habort. congruence.
    + intros resp' _. split; [done|]. split; [done|]. simpl. lia.
Qed.

End Sequential.

(** An environment without a network: every [fetch] is rejected the
    way the runtime rejects a URL it cannot parse. *)
Definition unparsableEnv : Env :=
  {| clock := λ n, Z.of_nat n;
     net := λ _ u _ _,
       inr (Js.ErrorObject true "TypeError" ("Failed to parse URL from " +:+ u));
     interleaving := λ _, [] |}.


(** A site where [/a] redirects to [/b] with a relative [Location],
    [/b] redirects to [/c] with an absolute one, and [/c] answers 200. *)
Definition chainEnv : Env :=
  {| clock := λ n, Z.of_nat n;
     net := λ _ u _ _,
       if String.eqb u "https://example.com/a"
       then inl (Response.make 301 (Some "/b"))
       else if String.eqb u "https://example.com/b"
       then inl (Response.make 302 (Some "https://example.com/c"))
       else if String.eqb u "https://example.com/c"
       then inl (Response.make 200 None)
       else inl (Response.make 404 None);
     interleaving := λ _, [] |}.

(** The same chain on a site that does not allow HEAD on [/a] and has
    not implemented it on [/c]: both answer the ranged GET. *)
Definition detourEnv : Env :=
  {| clock := λ n, Z.of_nat n;
     net := λ _ u m _,
       if String.eqb u "https://example.com/a"
       then match m with
            | HEAD => inl (Response.make 405 None)
            | GET => inl (Response.make 301 (Some "/b"))
            end
       else if String.eqb u "https://example.com/b"
       then inl (Response.make 302 (Some "https://example.com/c"))
       else if String.eqb u "https://example.com/c"
       then match m with
            | HEAD => inl (Response.make 501 None)
            | GET => inl (Response.make 200 None)
            end
       else inl (Response.make 404 None);
     interleaving := λ _, [] |}.

Lemma detourEnv_chain tmo :
  RedirectChain detourEnv (H := PlainUrl.api) tmo
    "https://example.com/a" 2 "https://example.com/c".
Proof.
  apply (chain_hop detourEnv tmo _ (Response.make 301 (Some "/b"))); [done..| |].
  { by apply (answer_get detourEnv tmo _ _ (Response.make 405 None)). }
  apply (chain_hop detourEnv tmo _
           (Response.make 302 (Some "https://example.com/c"))); [done..| |].
  { by apply answer_head. }
  apply (chain_end detourEnv tmo _ (Response.make 200 None)); [done|].
  by apply (answer_get detourEnv tmo _ _ (Response.make 501 None)).
Qed.

Lemma redirect_chain_resolved_witness :
  (∃ r w',
     run detourEnv (validateUrl (H := PlainUrl.api) "https://example.com/a" noOptions)
         initialWorld = (inl r, w')
     ∧ valid r = true ∧ finalUrl r = Some "https://example.com/c"
     ∧ trace w' = [Fetch "https://example.com/a" HEAD 5000;
                   Fetch "https://example.com/a" GET 5000;
                   Fetch "https://example.com/b" HEAD 5000;
                   Fetch "https://example.com/c" HEAD 5000;
                   Fetch "https://example.com/c" GET 5000])
  ∧ (∃ r w',
       run detourEnv
           (validateUrl (H := PlainUrl.api) "https://example.com/a"
              {| concurrency := None; timeout := None;
                 maxRedirects := Some 1; retries := None |})
           initialWorld = (inl r, w')
       ∧ valid r = false ∧ error r = Some "Too many redirects").
Proof.
  split.
  - destruct (redirect_chain_resolved detourEnv (H := PlainUrl.api)
                "https://example.com/a" noOptions 2
                "https://example.com/c" initialWorld)
      as (r & w' & Hrun & Hwithin & _); [done|apply detourEnv_chain|done|].
    exists r, w'. split; [done|].
    destruct Hwithin as (Hv & _ & Hf & _); [done|]. split; [done|].
    split; [by apply Hf|]. vm_compute in Hrun. by injection Hrun as <- <-.
  - destruct (redirect_chain_resolved detourEnv (H := PlainUrl.api)
                "https://example.com/a"
                {| concurrency := None; timeout := None;
                   maxRedirects := Some 1; retries := None |} 2
                "https://example.com/c" initialWorld)
      as (r & w' & Hrun & _ & Hover & _); [done|apply detourEnv_chain|done|].
    exists r, w'. split; [done|]. by apply Hover.
Defined.





(** On the site of [chainEnv], a call on [/a] with [maxRedirects = 1]
    leaves [/b] in the cache as a redirect overflow; a call on [/b]
    with the default budget of 3 is then served that entry, although
    from an empty cache the same call finds [/b] valid. *)
Lemma cache_ignores_options_witness :
  ∃ r w1 inner,
    run chainEnv
        (validateUrl (H := PlainUrl.api) "https://example.com/a"
           {| concurrency := None; timeout := None;
              maxRedirects := Some 1; retries := None |})
        initialWorld = (inl r, w1)
    ∧ run chainEnv (validateUrl (H := PlainUrl.api) "https://example.com/b" noOptions)
          w1 = (inl inner, ticked w1)
    ∧ valid inner = false ∧ error inner = Some "Too many redirects"
    ∧ ∃ fresh w3,
        run chainEnv (validateUrl (H := PlainUrl.api) "https://example.com/b" noOptions)
            initialWorld = (inl fresh, w3)
        ∧ valid fresh = true.
Proof.
  destruct (cache_ignores_options chainEnv (H := PlainUrl.api)
              "https://example.com/a"
              {| concurrency := None; timeout := None;
                 maxRedirects := Some 1; retries := None |}
              noOptions initialWorld) as [_ Hhop].
  destruct (Hhop (Response.make 301 (Some "/b")))
    as (inner & w0 & r & w1 & Hin & Hrun & Hserved); [done..|].
  vm_compute in Hin. injection Hin as <- <-.
  destruct Hserved as (e & Hget & Hres & Hsecond); [done|].
  vm_compute in Hrun. injection Hrun as <- <-.
  vm_compute in Hget. injection Hget as <-.
  eexists _, _, _. split; [reflexivity|]. split; [by apply Hsecond|].
  split; [done|]. split; [done|].
  eexists _, _. split; [vm_compute; reflexivity|]. done.
Defined.

(** An environment with one page that answers 200, and a clock that
    advances one millisecond per reading. *)
Definition onePageEnv : Env :=
  {| clock := λ n, Z.of_nat n;
     net := λ _ u _ _,
       if String.eqb u "https://example.com/" then inl (Response.make 200 None)
       else inl (Response.make 404 None);
     interleaving := λ _, [] |}.

Lemma result_cached_for_ttl_witness :
  ∃ r w1 w2,
    run onePageEnv (validateUrl (H := PlainUrl.api) "https://example.com/" noOptions)
        initialWorld = (inl r, w1)
    ∧ run onePageEnv (validateUrl (H := PlainUrl.api) "https://example.com/" noOptions)
          w1 = (inl r, w2)
    ∧ valid r = true
    ∧ trace w2 = [Fetch "https://example.com/" HEAD 5000].
Proof.
  destruct (result_cached_for_ttl onePageEnv (H := PlainUrl.api)
              "https://example.com/" noOptions initialWorld)
    as (_ & r & w1 & e & Hrun & Hget & Hres & _ & Hsecond).
  vm_compute in Hrun. injection Hrun as <- <-.
  vm_compute in Hget. injection Hget as <-.
  destruct Hsecond as (w2 & Hrun2 & Htrace & _); [vm_compute; done|].
  eexists _, _, w2. split; [reflexivity|]. split; [exact Hrun2|].
  split; [done|]. exact Htrace.
Defined.

(** An environment in which every request runs into its abort timer. *)
Definition abortingEnv : Env :=
  {| clock := λ n, Z.of_nat n;
     net := λ _ _ _ _, inr Js.abortError;
     interleaving := λ _, [] |}.

(** A server that answers HEAD with 405 after 4999 ms and never
    answers the ranged GET, whose timer fires 5000 ms after it was
    sent: the clock reads 0 when the HEAD request is sent, 4999 when
    the GET is, and 9999 from then on. *)
Definition silentAfterRefusalEnv : Env :=
  {| clock := λ n, match n with O => 0 | S O => 4999 | _ => 9999 end;
     net := λ _ _ m _,
       match m with
       | HEAD => inl (Response.make 405 None)
       | GET => inr Js.abortError
       end;
     interleaving := λ _, [] |}.

(** C5, as stated, fails: with the default options ([timeout] 5000,
    [retries] 1) the call below makes one attempt and takes 9999 ms,
    close to two timeouts, which is [timeout * (retries + 1)], although
    each of its two requests is settled within its own timer. *)
Lemma fallback_takes_two_timeouts :
  ∃ r w',
    run silentAfterRefusalEnv
        (validateUrl (H := PlainUrl.api) "https://example.com/a" noOptions)
        initialWorld = (inl r, w')
    ∧ error r = Some "Request timeout"
    ∧ trace w' = [Fetch "https://example.com/a" HEAD 5000;
                  Fetch "https://example.com/a" GET 5000]
    ∧ cfg_timeout (withDefaults noOptions) = 5000
    ∧ cfg_retries (withDefaults noOptions) = 1
    ∧ clock silentAfterRefusalEnv 1 - clock silentAfterRefusalEnv 0 < 5000
    ∧ clock silentAfterRefusalEnv 2 - clock silentAfterRefusalEnv 1 = 5000
    ∧ checkedAt r - clock silentAfterRefusalEnv 0 = 9999.
Proof. eexists _, _. split; [vm_compute; reflexivity|]. done. Qed.

Lemma timeout_not_retried_witness :
  (∃ r w',
     run abortingEnv
         (validateUrl (H := PlainUrl.api) "http://example.com:81"
            {| concurrency := None; timeout := Some 2000;
               maxRedirects := None; retries := Some 2 |})
         initialWorld = (inl r, w')
     ∧ valid r = false ∧ status r = 0 ∧ error r = Some "Request timeout"
     ∧ trace w' = [Fetch "http://example.com:81" HEAD 2000]
     ∧ checkedAt r ≤ 2000)
  ∧ (∃ r w',
       run silentAfterRefusalEnv
           (validateUrl (H := PlainUrl.api) "https://example.com/a"
              {| concurrency := None; timeout := None;
                 maxRedirects := None; retries := Some 4 |})
           initialWorld = (inl r, w')
       ∧ error r = Some "Request timeout"
       ∧ trace w' = [Fetch "https://example.com/a" HEAD 5000;
                     Fetch "https://example.com/a" GET 5000]
       ∧ checkedAt r ≤ 2 * 5000).
Proof.
  split.
  - destruct (timeout_not_retried abortingEnv (H := PlainUrl.api)
                "http://example.com:81"
                {| concurrency := None; timeout := Some 2000;
                   maxRedirects := None; retries := Some 2 |}
                initialWorld "This operation was aborted")
      as (r & w' & Hrun & Hv & Hs & He & _ & Hhead & _).
    + simpl. lia.
    + reflexivity.
    + intros t. left. reflexivity.
    + destruct Hhead as (Htrace & _ & Htime); [reflexivity|].
      exists r, w'. repeat split; try done. apply Htime. simpl. lia.
  - destruct (timeout_not_retried silentAfterRefusalEnv (H := PlainUrl.api)
                "https://example.com/a"
                {| concurrency := None; timeout := None;
                   maxRedirects := None; retries := Some 4 |}
                initialWorld "This operation was aborted")
      as (r & w' & Hrun & _ & _ & He & _ & _ & Hget).
    + simpl. lia.
    + reflexivity.
    + intros t. right. exists (Response.make 405 None). split; [done|].
      split; [by left|done].
    + destruct (Hget (Response.make 405 None)) as (Htrace & _ & Htime);
        [reflexivity|].
      exists r, w'. repeat split; try done. apply Htime; simpl; lia.
Defined.

(** *** Batches *)

Section Batches.

Context (env : Env) `{UrlApi}.

(** A member of a batch that will return a result for [u]. *)
Definition slotFor (u : string) (s : Slot ValidationResult) : Prop :=
  match s with
  | Settled (inl r) => resultFor u r
  | Settled (inr _) => False
  | Waiting op k =>
      opOk entryOk op
      ∧ ∀ x, answerOk entryOk op x → Keeps entryOk (resultFor u) (λ _, False) (k x)
  end.

Lemma advance_slotFor u t w :
  Keeps entryOk (resultFor u) (λ _, False) t → cacheInv entryOk (cache w) →
  slotFor u (advance env t w).1 ∧ cacheInv entryOk (cache (advance env t w).2).
Proof.
  intros Ht. revert w. induction Ht as [a Ha|e He|op k Hop Hk IH]; intros w Hw.
  - done.
  - done.
  - simpl. destruct (isAwait op); [done|].
    destruct (perform_inv entryOk env op w Hw Hop) as [Hx Hw'].
    destruct (perform env op w) as [x w']. by apply IH.
Qed.

Lemma resume_slotFor u s w :
  slotFor u s → cacheInv entryOk (cache w) →
  slotFor u (resume env s w).1 ∧ cacheInv entryOk (cache (resume env s w).2).
Proof.
  destruct s as [[r|e]|op k]; simpl; [done..|]. intros [Hop Hk] Hw.
  destruct (perform_inv entryOk env op w Hw Hop) as [Hx Hw'].
  destruct (perform env op w) as [x w']. apply advance_slotFor; auto.
Qed.

Lemma settle_slotFor u s w :
  slotFor u s → cacheInv entryOk (cache w) →
  (∃ r, (settle env s w).1 = inl r ∧ resultFor u r)
  ∧ cacheInv entryOk (cache (settle env s w).2).
Proof.
  destruct s as [[r|e]|op k]; simpl; [by eauto|done|]. intros [Hop Hk] Hw.
  destruct (perform_inv entryOk env op w Hw Hop) as [Hx Hw'].
  destruct (perform env op w) as [x w']. simpl in *.
  pose proof (run_Keeps entryOk env _ _ _ w' (Hk x Hx) Hw') as [Hr Hc].
  destruct (run env (k x) w') as [[r|e] w'']; [|done]. by eauto.
Qed.

Lemma startAll_slotFor batch ts w :
  Forall2 (λ u t, Keeps entryOk (resultFor u) (λ _, False) t) batch ts →
  cacheInv entryOk (cache w) →
  Forall2 slotFor batch (startAll env ts w).1
  ∧ cacheInv entryOk (cache (startAll env ts w).2).
Proof.
  intros Hts. revert w. induction Hts as [|u t batch ts Ht Hts IH]; intros w Hw; simpl.
  - by split; [constructor|].
  - destruct (advance_slotFor u t w Ht Hw) as [Hs Hw1].
    destruct (advance env t w) as [s w1].
    destruct (IH w1 Hw1) as [Hss Hw2].
    destruct (startAll env ts w1) as [ss w2]. by split; [constructor|].
Qed.

Lemma drive_slotFor order batch slots w :
  Forall2 slotFor batch slots → cacheInv entryOk (cache w) →
  Forall2 slotFor batch (drive env order slots w).1
  ∧ cacheInv entryOk (cache (drive env order slots w).2).
Proof.
  revert slots w. induction order as [|i order IH]; intros slots w Hslots Hw; simpl.
  - done.
  - destruct (slots !! i) as [s|] eqn:Hi; [|by apply IH].
    destruct (Forall2_lookup_r _ _ _ _ _ Hslots Hi) as (u & Hu & Hs).
    destruct (resume_slotFor u s w Hs Hw) as [Hs' Hw'].
    destruct (resume env s w) as [s' w']. apply IH; [|done].
    rewrite <- (list_insert_id batch i u Hu). by apply Forall2_insert.
Qed.

Lemma settleAll_slotFor batch slots w :
  Forall2 slotFor batch slots → cacheInv entryOk (cache w) →
  Forall2 (λ u o, ∃ r, o = inl r ∧ resultFor u r) batch (settleAll env slots w).1
  ∧ cacheInv entryOk (cache (settleAll env slots w).2).
Proof.
  intros Hslots. revert w.
  induction Hslots as [|u s batch slots Hs Hslots IH]; intros w Hw; simpl.
  - by split; [constructor|].
  - destruct (settle_slotFor u s w Hs Hw) as [Hr Hw1].
    destruct (settle env s w) as [o w1].
    destruct (IH w1 Hw1) as [Hrs Hw2].
    destruct (settleAll env slots w1) as [os w2]. by split; [constructor|].
Qed.

Lemma collect_results batch (os : list (ValidationResult + Js.Thrown)) :
  Forall2 (λ u o, ∃ r, o = inl r ∧ resultFor u r) batch os →
  ∃ rs, collect os = inl rs ∧ Forall2 resultFor batch rs.
Proof.
  induction 1 as [|u o batch os (r & -> & Hr) Hos (rs & Hrs & IH)]; simpl.
  - exists []. by split; [|constructor].
  - rewrite Hrs. exists (r :: rs). by split; [|constructor].
Qed.

(** [Promise.all] over the calls of a batch, under every interleaving
    of its members: a result per URL, in the order of the URLs. *)
Lemma promiseAll_ordered options batch w :
  cacheInv entryOk (cache w) →
  ∃ rs w',
    promiseAll env (map (λ url, validateUrl url options) batch) w = (inl rs, w')
    ∧ Forall2 resultFor batch rs
    ∧ cacheInv entryOk (cache w').
Proof.
  intros Hw. unfold promiseAll.
  assert (Forall2 (λ u t, Keeps entryOk (resultFor u) (λ _, False) t) batch
            (map (λ url, validateUrl url options) batch)) as Hts.
  { induction batch as [|u batch IH]; simpl; constructor; [|done].
    unfold validateUrl. apply Keeps_validateUrlAt. }
  destruct (startAll_slotFor batch _ w Hts Hw) as [Hslots Hw1].
  destruct (startAll env _ w) as [slots w1].
  destruct (drive_slotFor (interleaving env (tick w)) batch slots w1 Hslots Hw1)
    as [Hslots' Hw2].
  destruct (drive env _ slots w1) as [slots' w2].
  destruct (settleAll_slotFor batch slots' w2 Hslots' Hw2) as [Hos Hw3].
  destruct (settleAll env slots' w2) as [os w3].
  destruct (collect_results batch os Hos) as (rs & -> & Hrs).
  by exists rs, w3.
Qed.

Lemma slice_chunk (urls : list string) i c :
  0 ≤ i → 0 < c → i < Z.of_nat (length urls) →
  Js.slice urls i (i + c) = take (Z.to_nat c) (drop (Z.to_nat i) urls).
Proof.
  intros Hi Hc Hlen. unfold Js.slice, Js.clampIndex.
  destruct (Z.ltb_spec i 0); [lia|]. destruct (Z.ltb_spec (i + c) 0); [lia|].
  rewrite (Z.min_l i) by lia.
  destruct (Z.le_gt_cases (i + c) (Z.of_nat (length urls))) as [Hfit|Hover].
  - rewrite Z.min_l by lia. f_equal. lia.
  - rewrite Z.min_r by lia.
    rewrite !take_ge; [done|rewrite length_drop; lia..].
Qed.

Lemma chunksOf_enough fuel size (urls : list string) :
  (1 ≤ size)%nat → (length urls ≤ fuel)%nat →
  chunksOf fuel size urls = chunks size urls.
Proof.
  intros Hsize. unfold chunks.
  remember (length urls) as n eqn:Hn. revert urls fuel Hn.
  induction (lt_wf n) as [n _ IH]. intros urls fuel -> Hfuel.
  destruct urls as [|u urls]; [by destruct fuel|].
  destruct fuel as [|fuel]; [simpl in Hfuel; lia|].
  cbn [chunksOf length]. f_equal.
  rewrite (IH (length (drop size (u :: urls)))) with (fuel := fuel);
    [|rewrite length_drop; simpl; lia|done|rewrite length_drop; simpl in *; lia].
  symmetry.
  apply (IH (length (drop size (u :: urls))));
    [rewrite length_drop; simpl; lia|done|rewrite length_drop; simpl; lia].
Qed.

Lemma concat_chunks size (urls : list string) :
  (1 ≤ size)%nat → concat (chunks size urls) = urls.
Proof.
  intros Hsize. remember (length urls) as n eqn:Hn. revert urls Hn.
  induction (lt_wf n) as [n _ IH]. intros urls ->.
  destruct urls as [|u urls]; [done|].
  unfold chunks. cbn [chunksOf length concat].
  rewrite chunksOf_enough by (try done; rewrite length_drop; simpl; lia).
  rewrite (IH (length (drop size (u :: urls)))); [|rewrite length_drop; simpl; lia|done].
  apply take_drop.
Qed.

Lemma chunks_sizes size (urls : list string) :
  (1 ≤ size)%nat →
  Forall (λ batch, (1 ≤ length batch ≤ size)%nat) (chunks size urls).
Proof.
  intros Hsize. remember (length urls) as n eqn:Hn. revert urls Hn.
  induction (lt_wf n) as [n _ IH]. intros urls ->.
  destruct urls as [|u urls]; [constructor|].
  unfold chunks. cbn [chunksOf length].
  rewrite chunksOf_enough by (try done; rewrite length_drop; simpl; lia).
  constructor.
  - rewrite length_take. simpl. lia.
  - apply (IH (length (drop size (u :: urls)))); [rewrite length_drop; simpl; lia|done].
Qed.

(** The loop over [i] runs the chunks one after the other. *)
Lemma batchLoop_chunks urls options c fuel i results w :
  1 ≤ c → 0 ≤ i →
  (Z.to_nat (Z.of_nat (length urls) - i) ≤ fuel)%nat →
  batchLoop env fuel urls options c i results w
  = Some (runChunks env (chunks (Z.to_nat c) (drop (Z.to_nat i) urls))
            options results w).
Proof.
  intros Hc. revert i results w.
  induction fuel as [|fuel IH]; intros i results w Hi Hfuel.
  - simpl. destruct (Z.ltb_spec i (Z.of_nat (length urls))); [lia|].
    by rewrite drop_ge by lia.
  - simpl. destruct (Z.ltb_spec i (Z.of_nat (length urls))) as [Hlt|Hge].
    + rewrite slice_chunk by lia.
      destruct (drop (Z.to_nat i) urls) as [|u rest] eqn:Hdrop.
      { apply (f_equal length) in Hdrop. rewrite length_drop in Hdrop.
        simpl in Hdrop. lia. }
      unfold chunks. cbn [chunksOf length runChunks]. rewrite <- Hdrop.
      destruct (promiseAll env _ w) as [[rs|e] w']; [|done].
      rewrite IH by lia.
      rewrite chunksOf_enough; [|lia|].
      * do 3 f_equal. rewrite drop_drop. f_equal. lia.
      * rewrite Hdrop, length_drop.
        assert (length (u :: rest) = length urls - Z.to_nat i)%nat as Hl
          by (rewrite <- Hdrop, length_drop; done).
        simpl in *. lia.
    + by rewrite drop_ge by lia.
Qed.

Lemma runChunks_ordered options batches done results w :
  cacheInv entryOk (cache w) → Forall2 resultFor done results →
  ∃ out w',
    runChunks env batches options results w = (inl out, w')
    ∧ Forall2 resultFor (done ++ concat batches) out
    ∧ cacheInv entryOk (cache w').
Proof.
  revert done results w.
  induction batches as [|batch batches IH]; intros done results w Hw Hdone; simpl.
  - exists results, w. by rewrite app_nil_r.
  - destruct (promiseAll_ordered options batch w Hw) as (rs & w' & -> & Hrs & Hw').
    destruct (IH (done ++ batch) (results ++ rs) w' Hw') as (out & w'' & Hrun & Hout & Hw'').
    { by apply Forall2_app. }
    exists out, w''. by rewrite app_assoc.
Qed.

(** C8 (amended). For every list of URLs and every options record
    whose [concurrency] is at least 1, [validateUrls] returns (the
    loop ends within [length urls] iterations), under every
    interleaving of the members of a batch; its output has the length
    of the input and its i-th result is a well-formed result for the
    i-th URL; and the loop is the sequence of [Promise.all]s over the
    consecutive chunks of [concurrency] URLs, each completed before the
    next one starts. *)
Theorem validateUrls_ordered urls options w fuel :
  1 ≤ cfg_concurrency (withDefaults options) →
  (length urls ≤ fuel)%nat →
  cacheInv entryOk (cache w) →
  ∃ results w',
    validateUrls env fuel urls options w = Some (inl results, w')
    ∧ length results = length urls
    ∧ Forall2 (λ u r, url r = u ∧ wellFormed r) urls results
    ∧ validateUrls env fuel urls options w
      = Some (runChunks env
                (chunks (Z.to_nat (cfg_concurrency (withDefaults options))) urls)
                options [] (run env cleanCache w).2)
    ∧ concat (chunks (Z.to_nat (cfg_concurrency (withDefaults options))) urls) = urls
    ∧ Forall (λ batch,
                (1 ≤ length batch
                 ≤ Z.to_nat (cfg_concurrency (withDefaults options)))%nat)
             (chunks (Z.to_nat (cfg_concurrency (withDefaults options))) urls).
Proof.
  intros Hc Hfuel Hw.
  set (c := cfg_concurrency (withDefaults options)) in *.
  assert (validateUrls env fuel urls options w
          = Some (runChunks env (chunks (Z.to_nat c) urls) options []
                    (run env cleanCache w).2)) as Hloop.
  { unfold validateUrls. fold c. destruct urls as [|u urls]; [done|].
    cbn [length Nat.eqb]. by rewrite batchLoop_chunks by (simpl in *; lia). }
  pose proof (run_Keeps entryOk env (λ _, True) (λ _, False) cleanCache w
                (Keeps_cleanCache entryOk _) Hw) as [_ Hw1].
  destruct (runChunks_ordered options (chunks (Z.to_nat c) urls) [] []
              (run env cleanCache w).2 Hw1) as (out & w' & Hrun & Hout & _);
    [constructor|].
  rewrite concat_chunks in Hout by lia. simpl in Hout.
  exists out, w'. split; [by rewrite Hloop, Hrun|].
  split; [symmetry; by eapply Forall2_length|]. split; [done|].
  split; [done|]. split; [apply concat_chunks; lia|apply chunks_sizes; lia].
Qed.

(** With [concurrency = 0] the index of the loop never advances: the
    batch is empty and the loop runs on. *)
Lemma promiseAll_nil w :
  promiseAll env (@nil (Task ValidationResult)) w = (inl [], w).
Proof.
  unfold promiseAll. simpl.
  assert (∀ order, drive env order (@nil (Slot ValidationResult)) w = ([], w)) as ->.
  { induction order as [|i order IH]; simpl; [done|]. exact IH. }
  done.
Qed.

Lemma batchLoop_stuck (urls : list string) options fuel results w :
  urls ≠ [] → batchLoop env fuel urls options 0 0 results w = None.
Proof.
  intros Hne. revert results. induction fuel as [|fuel IH]; intros results; simpl.
  - destruct urls; [done|]. simpl. done.
  - destruct urls as [|u urls]; [done|].
    replace (Js.slice (u :: urls) 0 (0 + 0)) with (@nil string) by done.
    cbn [map length]. rewrite promiseAll_nil.
    destruct (Z.ltb_spec 0 (Z.of_nat (S (length urls)))); [|lia].
    rewrite app_nil_r. apply IH.
Qed.

End Batches.

(** The site of [onePageEnv], with a runtime that wakes the second
    member of a batch before the first. *)
Definition reorderingEnv : Env :=
  {| clock := λ n, Z.of_nat n;
     net := net onePageEnv;
     interleaving := λ _, [1; 0; 1]%nat |}.

Definition twoAtATime : ValidationOptions :=
  {| concurrency := Some 2; timeout := None; maxRedirects := None; retries := None |}.

Definition zeroAtATime : ValidationOptions :=
  {| concurrency := Some 0; timeout := None; maxRedirects := None; retries := None |}.

(** C8, as stated for every options record, fails: with
    [concurrency = 0] and a URL to validate, the loop is still running
    after any number of iterations, and no list is returned. *)
Lemma validateUrls_zero_concurrency_diverges :
  concurrency zeroAtATime = Some 0
  ∧ ∀ fuel,
      validateUrls onePageEnv (H := PlainUrl.api) fuel ["https://example.com/"]
        zeroAtATime initialWorld = None.
Proof.
  split; [done|]. intros fuel. unfold validateUrls. cbn [length Nat.eqb].
  by apply batchLoop_stuck.
Qed.

Lemma validateUrls_ordered_witness :
  ∃ results w',
    validateUrls reorderingEnv (H := PlainUrl.api) 3
      ["https://example.com/"; "https://example.com/missing"; "https://example.com/"]
      twoAtATime initialWorld = Some (inl results, w')
    ∧ length results = 3%nat
    ∧ Forall2 (λ u r, url r = u)
        ["https://example.com/"; "https://example.com/missing"; "https://example.com/"]
        results.
Proof.
  destruct (validateUrls_ordered reorderingEnv (H := PlainUrl.api)
              ["https://example.com/"; "https://example.com/missing";
               "https://example.com/"]
              twoAtATime initialWorld 3)
    as (results & w' & Hrun & Hlen & Hfor & _).
  - simpl. lia.
  - simpl. lia.
  - constructor.
  - exists results, w'. split; [done|]. split; [done|].
    eapply Forall2_impl; [exact Hfor|]. by intros u r [Hu _].
Defined.

End ValidatorProofs.

(** ** The topic cache *)

Module TopicCacheProofs.

Import Crawler TopicCache.

Section Cache.

Context (md5 : string → string) (env : Env).

Lemma getCachedContent_live topic d data :
  (∀ t, fails env t = false) →
  files d !! cachePath md5 topic = Some (Json data) →
  clock env (tick d + 2) ≤ expiresAt data →
  getCachedContent md5 env topic d = (Some data, advance 3 d).
Proof.
  intros Hio Hfile Hclock. unfold getCachedContent. rewrite Hfile, !Hio.
  replace (S (S (tick d))) with (tick d + 2)%nat by lia.
  by destruct (Z.ltb_spec (expiresAt data) (clock env (tick d + 2))); [lia|].
Qed.

Lemma getCachedContent_expired topic d data :
  (∀ t, fails env t = false) →
  files d !! cachePath md5 topic = Some (Json data) →
  expiresAt data < clock env (tick d + 2) →
  getCachedContent md5 env topic d
  = (None, {| files := delete (cachePath md5 topic) (files d);
              tick := (tick d + 4)%nat |}).
Proof.
  intros Hio Hfile Hclock. unfold getCachedContent. rewrite Hfile, !Hio.
  replace (S (S (tick d))) with (tick d + 2)%nat by lia.
  by destruct (Z.ltb_spec (expiresAt data) (clock env (tick d + 2))); [|lia].
Qed.

Lemma cacheContent_written topic links docs d :
  (∀ t, fails env t = false) →
  cacheContent md5 env topic links docs d
  = {| files := <[cachePath md5 topic :=
                   Json {| topic := topic; urls := links; content := docs;
                           cachedAt := clock env (tick d);
                           expiresAt := clock env (S (tick d)) + CACHE_TTL_MS |}]>
                (files d);
       tick := (tick d + 4)%nat |}.
Proof. intros Hio. unfold cacheContent. by rewrite Hio. Qed.

End Cache.

(** A working file system whose clock advances a millisecond per
    reading, and one whose clock jumps two days ahead after the
    write. *)
Definition steadyEnv : Env :=
  {| clock := λ n, Z.of_nat n; fails := λ _, false |}.

Definition twoDaysLaterEnv : Env :=
  {| clock := λ n, if (n <? 4)%nat then Z.of_nat n else 2 * 24 * 60 * 60 * 1000;
     fails := λ _, false |}.

Definition sampleDocument : ScrapedContent :=
  {| url := "https://react.dev/reference/react/hooks";
     markdown := "# Built-in React Hooks";
     success := true; error := None; isPaywalled := Some false;
     fallbackUsed := None; crawledAt := 0; _paywalledUrls := None |}.

Definition emptyDisk : Disk := {| files := ∅; tick := 0 |}.

End TopicCacheProofs.

(** ** The crawler *)

Module CrawlerProofs.

Import Crawler.

Section Fetching.

Context `{UrlApi} (env : Env).

Lemma strlen_pos s : s ≠ "" → (0 <? strlen s) = true.
Proof. destruct s; [done|]. intros _. apply Z.ltb_lt. unfold strlen. simpl. lia. Qed.

Lemma orElse_some s : s ≠ "" → Js.orElse (Some s) "" = s.
Proof. intros Hs. simpl. by destruct (String.eqb_spec s ""). Qed.

(** With a key configured, [scrapeUrls] hands every URL it is given to
    the service, in order, whatever comes back. *)
Lemma scrapeAll_fetched urls w :
  Js.falsy (HYPERBROWSER_API_KEY env) = false →
  ∃ rs, scrapeAll env urls w
        = (inl rs, {| tick := (tick w + 2 * length urls)%nat;
                      fetched := fetched w ++ urls |})
        ∧ map url rs = urls.
Proof.
  intros Hkey. revert w. induction urls as [|u urls IH]; intros w; simpl.
  - exists []. split; [|done]. rewrite app_nil_r. destruct w. simpl. do 2 f_equal. lia.
  - unfold scrapeUrl. rewrite Hkey.
    destruct (startAndWait env (S (tick w)) u) as [data|e];
      match goal with
      | |- context [scrapeAll env urls ?w1] =>
          destruct (IH w1) as (rs & -> & Hrs)
      end; simpl;
      (eexists; split; [do 2 f_equal; [lia|by rewrite <- app_assoc]|];
       simpl; by rewrite Hrs).
Qed.

Lemma scrapeUrls_fetched urls w :
  Js.falsy (HYPERBROWSER_API_KEY env) = false →
  (scrapeUrls env urls w).2
  = {| tick := (tick w + 2 * length urls)%nat; fetched := fetched w ++ urls |}.
Proof.
  intros Hkey. unfold scrapeUrls.
  destruct (scrapeAll_fetched urls w Hkey) as (rs & -> & _).
  destruct (filter _ rs); [|done].
  by destruct (filter _ (filter _ rs)).
Qed.

Lemma phase2_fetched st w :
  Js.falsy (HYPERBROWSER_API_KEY env) = false →
  fetched (phase2 env st w).2 = fetched w ++ additionalUrls st.
Proof.
  intros Hkey. unfold phase2. destruct (additionalUrls st) as [|u urls] eqn:Hurls.
  - by rewrite app_nil_r.
  - pose proof (scrapeUrls_fetched (u :: urls) w Hkey) as Hw.
    destruct (scrapeUrls env (u :: urls) w) as [[rs|e] w']; simpl in *; by rewrite Hw.
Qed.

(** What the crawl hands to the service: the first five seeds, then the
    URLs queued and not marked as crawled after phase 1. *)
Lemma recursiveCrawl_fetched initialUrls topic w st w1 :
  Js.falsy (HYPERBROWSER_API_KEY env) = false →
  phase1 env initialUrls w = (inl st, w1) →
  ∃ rs w2, recursiveCrawl env initialUrls topic w = (inl rs, w2)
           ∧ fetched w2
             = fetched w
               ++ Js.slice initialUrls 0 (Z.min (Z.of_nat (length initialUrls)) 5)
               ++ additionalUrls st.
Proof.
  intros Hkey Hphase1. unfold recursiveCrawl. rewrite Hphase1.
  pose proof (phase2_fetched st w1 Hkey) as Hf.
  destruct (phase2 env st w1) as [st2 w2]. eexists _, w2. split; [done|].
  simpl in Hf. rewrite Hf, app_assoc. f_equal.
  unfold phase1 in Hphase1.
  pose proof (scrapeUrls_fetched
                (Js.slice initialUrls 0 (Z.min (Z.of_nat (length initialUrls)) 5))
                w Hkey) as Hw.
  destruct (scrapeUrls env _ w) as [[rs|e] w']; [|done].
  injection Hphase1 as _ <-. simpl in Hw. by rewrite Hw.
Qed.

(** A page that the service returns and that is not taken for a
    paywall. *)
Definition fetchedPage (u md : string) (at_ : Z) : ScrapedContent :=
  {| url := u; markdown := md; success := true; error := None;
     isPaywalled := Some false; fallbackUsed := None; crawledAt := at_;
     _paywalledUrls := None |}.

Lemma scrapeUrl_page u md w :
  Js.falsy (HYPERBROWSER_API_KEY env) = false →
  startAndWait env (S (tick w)) u = Scraped (Some md) →
  md ≠ "" →
  calculatePaywallScore md u < PAYWALL_THRESHOLD →
  scrapeUrl env u w
  = (inl (fetchedPage u md (now env (tick w))),
     {| tick := S (S (tick w)); fetched := fetched w ++ [u] |}).
Proof.
  intros Hkey Hsdk Hmd Hscore. unfold scrapeUrl.
  rewrite Hkey, Hsdk, (orElse_some md Hmd), (strlen_pos md Hmd).
  by destruct (Z.leb_spec PAYWALL_THRESHOLD (calculatePaywallScore md u)); [lia|].
Qed.

Lemma scrapeUrls_page u md w :
  Js.falsy (HYPERBROWSER_API_KEY env) = false →
  startAndWait env (S (tick w)) u = Scraped (Some md) →
  md ≠ "" →
  calculatePaywallScore md u < PAYWALL_THRESHOLD →
  scrapeUrls env [u] w
  = (inl [fetchedPage u md (now env (tick w))],
     {| tick := S (S (tick w)); fetched := fetched w ++ [u] |}).
Proof.
  intros Hkey Hsdk Hmd Hscore. unfold scrapeUrls. cbn [scrapeAll].
  rewrite (scrapeUrl_page u md w Hkey Hsdk Hmd Hscore).
  cbn [filter list_filter fetchedPage success markdown isPaywalled truthy default].
  rewrite (strlen_pos md Hmd). by simpl.
Qed.

(** What [visit] does to the queue on a fetched page. *)
Lemma visit_page st u md at_ :
  md ≠ "" →
  allUrls (visit st (fetchedPage u md at_))
  = (let crawled := {[ u ]} ∪ crawledUrls st in
     let valuableLinks :=
       filter (λ link,
                 isSameDomain link u && isValuableLink link
                 && negb (bool_decide (link ∈ crawled))
                 && negb (setHas link (allUrls st)) = true)
              (extractLinks md u) in
     let all1 :=
       foldl (λ all link, setAdd link all) (allUrls st)
             (Js.slice valuableLinks 0 MAX_PAGES_PER_URL) in
     if Z.of_nat (length valuableLinks) <? 3
     then addCommonPaths crawled (generateCommonDocPaths u) all1
     else all1)
  ∧ crawledUrls (visit st (fetchedPage u md at_)) = {[ u ]} ∪ crawledUrls st.
Proof.
  intros Hmd. unfold visit, fetchedPage. simpl. by rewrite (strlen_pos md Hmd).
Qed.

End Fetching.

(** *** The scenario of the documentation site *)

#[local] Existing Instance PlainUrl.api.

Definition start : string := "https://docs.example.com/start".
Definition api : string := "https://docs.example.com/api".
Definition guide : string := "https://docs.example.com/guide".
Definition other : string := "https://other.com/x".

(** The common documentation paths under the origin of the site, less
    the two the page links to. *)
Definition fallbackUrls : list string :=
  ["https://docs.example.com/guides"; "https://docs.example.com/reference";
   "https://docs.example.com/docs"; "https://docs.example.com/documentation";
   "https://docs.example.com/getting-started";
   "https://docs.example.com/quickstart"; "https://docs.example.com/tutorial";
   "https://docs.example.com/tutorials"; "https://docs.example.com/examples";
   "https://docs.example.com/concepts"; "https://docs.example.com/basics";
   "https://docs.example.com/overview"; "https://docs.example.com/introduction";
   "https://docs.example.com/authentication";
   "https://docs.example.com/configuration";
   "https://docs.example.com/installation"; "https://docs.example.com/setup"].

(** C3 (amended). A crawl seeded with the single URL [start], whose
    page is fetched, not paywalled, and has exactly the links [api],
    [guide] and [other]: after phase 1 the URLs queued and not visited
    are [api] and [guide], followed by the 17 common documentation
    paths of the origin that the fallback adds because fewer than 3
    links were kept; the cross-domain link [other] is not queued; and
    phase 2 hands all 19 queued URLs to the fetcher, [api] and [guide]
    first. *)
Theorem scenario_queue env md topic :
  Js.falsy (HYPERBROWSER_API_KEY env) = false →
  startAndWait env 1 start = Scraped (Some md) →
  md ≠ "" →
  calculatePaywallScore md start < PAYWALL_THRESHOLD →
  extractLinks (H := PlainUrl.api) md start = [api; guide; other] →
  ∃ st w1,
    phase1 (H := PlainUrl.api) env [start] initialWorld = (inl st, w1)
    ∧ additionalUrls st = api :: guide :: fallbackUrls
    ∧ (other ∉ allUrls st)
    ∧ (∃ rs w2,
         recursiveCrawl (H := PlainUrl.api) env [start] topic initialWorld
         = (inl rs, w2)
         ∧ fetched w2 = start :: api :: guide :: fallbackUrls).
Proof.
  intros Hkey Hsdk Hmd Hscore Hlinks.
  assert (phase1 (H := PlainUrl.api) env [start] initialWorld
          = (inl (foldl visit
                    {| allUrls := [start]; crawledUrls := ∅; results := [];
                       paywalledUrls := [] |}
                    [fetchedPage start md (now env 0)]),
             {| tick := 2; fetched := [start] |})) as Hphase1.
  { unfold phase1.
    replace (Js.slice [start] 0 (Z.min (Z.of_nat (length [start])) 5))
      with [start] by done.
    by rewrite (scrapeUrls_page env start md initialWorld Hkey Hsdk Hmd Hscore). }
  destruct (visit_page (H := PlainUrl.api)
              {| allUrls := [start]; crawledUrls := ∅; results := [];
                 paywalledUrls := [] |} start md (now env 0) Hmd)
    as [Hall Hcrawled].
  rewrite Hlinks in Hall. simpl in Hcrawled.
  assert (allUrls (visit {| allUrls := [start]; crawledUrls := ∅; results := [];
                            paywalledUrls := [] |}
                     (fetchedPage start md (now env 0)))
          = start :: api :: guide :: fallbackUrls) as Hqueue.
  { rewrite Hall. vm_compute. reflexivity. }
  eexists _, _. split; [exact Hphase1|]. cbn [foldl].
  assert (additionalUrls
            (visit {| allUrls := [start]; crawledUrls := ∅; results := [];
                      paywalledUrls := [] |}
               (fetchedPage start md (now env 0)))
          = api :: guide :: fallbackUrls) as Hmore.
  { unfold additionalUrls. rewrite Hqueue, Hcrawled. vm_compute. reflexivity. }
  split; [exact Hmore|]. split.
  - rewrite Hqueue. vm_compute. intros Hin.
    repeat (apply elem_of_cons in Hin as [Heq|Hin]; [discriminate Heq|]).
    by apply elem_of_nil in Hin.
  - destruct (recursiveCrawl_fetched (H := PlainUrl.api) env [start] topic
                initialWorld _ _ Hkey Hphase1) as (rs & w2 & Hrun & Hfetched).
    exists rs, w2. split; [done|]. rewrite Hfetched. cbn [foldl]. by rewrite Hmore.
Qed.

(** The documentation site of the scenario: the start page links to
    [/api], [/guide] and another site; nothing else can be fetched. *)
Definition startPage : string :=
  "[API](/api) and [Guide](/guide) and [Other](https://other.com/x)".

Definition docsEnv : Env :=
  {| HYPERBROWSER_API_KEY := Some "key";
     now := λ n, Z.of_nat n;
     startAndWait := λ _ u,
       if String.eqb u start then Scraped (Some startPage)
       else Failed (Js.ErrorObject false "Error" "Not Found") |}.

(** C3, as stated, fails: after phase 1 the queue holds 19 URLs, not
    the two links alone. *)
Lemma scenario_queue_has_fallback_paths :
  ∃ st w1,
    phase1 docsEnv [start] initialWorld = (inl st, w1)
    ∧ additionalUrls st = api :: guide :: fallbackUrls
    ∧ length (additionalUrls st) = 19%nat.
Proof. eexists _, _. split; [vm_compute; reflexivity|]. by vm_compute. Qed.

Lemma scenario_queue_witness :
  ∃ st w1,
    phase1 docsEnv [start] initialWorld = (inl st, w1)
    ∧ additionalUrls st = api :: guide :: fallbackUrls
    ∧ (other ∉ allUrls st)
    ∧ (∃ rs w2,
         recursiveCrawl docsEnv [start] "docs" initialWorld = (inl rs, w2)
         ∧ fetched w2 = start :: api :: guide :: fallbackUrls).
Proof.
  apply (scenario_queue docsEnv startPage "docs"); done.
Defined.

(** *** The ceilings of the crawl *)

(** Three seed pages of one site, each with eight links of its own. *)
Definition pageOf (dir : string) : string :=
  String.concat " "
    (map (λ name, "[" +:+ name +:+ "](" +:+ dir +:+ "/" +:+ name +:+ ")")
         ["intro"; "setup"; "usage"; "config"; "deploy"; "models"; "tools"; "faq"]).

Definition seedA : string := "https://docs.example.com/a".
Definition seedB : string := "https://docs.example.com/b".
Definition seedC : string := "https://docs.example.com/c".

Definition busyEnv : Env :=
  {| HYPERBROWSER_API_KEY := Some "key";
     now := λ n, Z.of_nat n;
     startAndWait := λ _ u,
       if String.eqb u seedA then Scraped (Some (pageOf "/a"))
       else if String.eqb u seedB then Scraped (Some (pageOf "/b"))
       else if String.eqb u seedC then Scraped (Some (pageOf "/c"))
       else Failed (Js.ErrorObject false "Error" "Not Found") |}.

(** C1 on the code.  With three seeds whose pages each have eight
    links, [allUrls] holds 27 URLs after phase 1, above
    [MAX_TOTAL_URLS], and all 27 are handed to the fetcher.  With the
    seeds [seedA] and [seedB] of which the service fails on [seedB],
    the fetcher drops the failed page from what it returns, the crawl
    does not mark [seedB] as crawled, and phase 2 fetches it again. *)
Theorem crawl_exceeds_its_ceilings :
  MAX_TOTAL_URLS = 25
  ∧ (∃ st w1,
       phase1 busyEnv [seedA; seedB; seedC] initialWorld = (inl st, w1)
       ∧ length (allUrls st) = 27%nat
       ∧ ∃ rs w2,
           recursiveCrawl busyEnv [seedA; seedB; seedC] "docs" initialWorld
           = (inl rs, w2)
           ∧ length (fetched w2) = 27%nat)
  ∧ (∃ rs w2,
       recursiveCrawl
         {| HYPERBROWSER_API_KEY := Some "key";
            now := λ n, Z.of_nat n;
            startAndWait := λ _ u,
              if String.eqb u seedA then Scraped (Some (pageOf "/a"))
              else Failed (Js.ErrorObject false "Error" "Not Found") |}
         [seedA; seedB] "docs" initialWorld = (inl rs, w2)
       ∧ take 3 (fetched w2) = [seedA; seedB; seedB]).
Proof.
  split; [done|]. split.
  - eexists _, _. split; [vm_compute; reflexivity|]. split; [by vm_compute|].
    eexists _, _. split; [vm_compute; reflexivity|]. by vm_compute.
  - eexists _, _. split; [vm_compute; reflexivity|]. by vm_compute.
Qed.

End CrawlerProofs.


(** ** The cache and the retry policy of the validator *)

Module ValidatorProperties.

Import Validator ValidatorProofs.

(** *** Expired entries *)

(** An entry that [cleanCache] keeps when the clock reads [now]. *)
Definition unexpired (now : Z) (kv : string * CacheEntry) : Prop :=
  now ≤ expiresAt kv.2.

#[local] Instance unexpired_dec now kv : Decision (unexpired now kv) :=
  Z.le_dec now (expiresAt kv.2).

Section Store.

Context (env : Env).

Lemma mapDelete_middle key e done rest :
  key ∉ done.*1 →
  mapDelete key (done ++ (key, e) :: rest) = done ++ rest.
Proof.
  induction done as [|[k e'] done IH]; simpl; intros Hkey.
  - by rewrite String.eqb_refl.
  - apply not_elem_of_cons in Hkey as [Hne Hkey].
    destruct (String.eqb_spec k key) as [->|_]; [done|]. by rewrite IH.
Qed.

Lemma sweep_unexpired now done entries :
  NoDup (done ++ entries).*1 →
  sweep now entries (done ++ entries) = done ++ filter (unexpired now) entries.
Proof.
  revert done. induction entries as [|[k e] entries IH]; intros done Hnd.
  - done.
  - unfold sweep. cbn [foldl]. fold (sweep now entries).
    cbn [fst snd]. destruct (Z.ltb_spec (expiresAt e) now) as [Hlt|Hge].
    + rewrite filter_cons_False by (unfold unexpired; simpl; lia).
      rewrite mapDelete_middle.
      * apply IH. rewrite fmap_app in *. rewrite fmap_cons in Hnd.
        apply NoDup_app in Hnd as (Hd & Hdisj & He).
        apply NoDup_cons in He as [_ He]. apply NoDup_app.
        split; [done|]. split; [|done].
        intros x Hx Hx'. apply (Hdisj x Hx). by apply list_elem_of_further.
      * rewrite fmap_app, fmap_cons in Hnd.
        apply NoDup_app in Hnd as (_ & Hdisj & _).
        intros Hk. apply (Hdisj k Hk). apply list_elem_of_here.
    + rewrite filter_cons_True by (unfold unexpired; simpl; lia).
      rewrite (cons_middle (k, e) done entries), app_assoc in Hnd |- *.
      rewrite (cons_middle (k, e) done (filter _ _)), app_assoc.
      by apply IH.
Qed.

Lemma sweep_own now c :
  NoDup c.*1 → sweep now c c = filter (unexpired now) c.
Proof. intros Hnd. by apply (sweep_unexpired now []). Qed.

Lemma cleanCache_filter w :
  NoDup (cache w).*1 →
  run env cleanCache w
  = (inl tt, {| cache := filter (unexpired (clock env (tick w))) (cache w);
                tick := S (tick w); trace := trace w |}).
Proof. intros Hnd. rewrite run_cleanCache. by rewrite sweep_own. Qed.

(** X8. In a cache whose keys are distinct, as those of a [Map] are,
    [cleanCache] removes the entries whose expiry lies before the
    reading of the clock and keeps the others in their order; an entry
    that expires at that very reading stays.  [validateUrls] on the
    empty list does this and nothing else: it returns the empty list
    without a request, whatever the options, [concurrency = 0]
    included. *)
Theorem cleanCache_drops_expired w :
  NoDup (cache w).*1 →
  run env cleanCache w
  = (inl tt, {| cache := filter (unexpired (clock env (tick w))) (cache w);
                tick := S (tick w); trace := trace w |})
  ∧ ∀ `{UrlApi} fuel options,
      validateUrls env fuel [] options w
      = Some (inl [], {| cache := filter (unexpired (clock env (tick w))) (cache w);
                         tick := S (tick w); trace := trace w |}).
Proof.
  intros Hnd. split; [by apply cleanCache_filter|].
  intros H fuel options. unfold validateUrls. by rewrite cleanCache_filter.
Qed.

(** *** Eviction *)

#[local] Arguments mbind : simpl never.
#[local] Opaque cleanCache.

Ltac step := rewrite ?run_bind, ?run_tryCatch; simpl.

Lemma deleteAll_oldest n c : deleteAll (take n c.*1) c = drop n c.
Proof.
  revert c. induction n as [|n IH]; intros [|[k e] c]; try done.
  cbn [fmap list_fmap take drop]. unfold deleteAll. cbn [foldl mapDelete fst].
  rewrite String.eqb_refl. apply IH.
Qed.

Lemma slice_oldest {A} (l : list A) n :
  0 ≤ n → Js.slice l 0 n = take (Z.to_nat n) l.
Proof.
  intros Hn. unfold Js.slice, Js.clampIndex.
  destruct (Z.ltb_spec 0 0); [lia|]. destruct (Z.ltb_spec n 0); [lia|].
  replace (0 `min` Z.of_nat (length l)) with 0 by lia.
  change (Z.to_nat 0) with 0%nat. rewrite drop_0, Z.sub_0_r.
  destruct (Z.le_gt_cases n (Z.of_nat (length l))).
  - by rewrite Z.min_l by lia.
  - rewrite Z.min_r by lia. rewrite Nat2Z.id.
    rewrite (take_ge l (length l)) by lia.
    by rewrite (take_ge l (Z.to_nat n)) by lia.
Qed.

(** The cache [setCache] stores into: the one it found, or, when that
    one was full, what is left of it once the expired entries and then
    the oldest ones are gone. *)
Definition makeRoom (now : Z) (c : Cache) : Cache :=
  if MAX_CACHE_SIZE <=? Z.of_nat (length c) then
    let c1 := sweep now c c in
    if MAX_CACHE_SIZE <=? Z.of_nat (length c1) then
      drop (Z.to_nat (Z.of_nat (length c1) - MAX_CACHE_SIZE + 1)) c1
    else c1
  else c.

Lemma run_setCache_makeRoom u r w :
  ∃ n, (tick w ≤ n ≤ S (tick w))%nat ∧
    run env (setCache u r) w
    = (inl tt,
       {| cache := mapSet u {| result := r; expiresAt := clock env n + CACHE_TTL |}
                     (makeRoom (clock env (tick w)) (cache w));
          tick := S n; trace := trace w |}).
Proof.
  unfold setCache, makeRoom. do 2 step.
  destruct (MAX_CACHE_SIZE <=? Z.of_nat (length (cache w))) eqn:Hfull.
  - exists (S (tick w)). split; [lia|].
    step. rewrite run_cleanCache. step.
    destruct (MAX_CACHE_SIZE <=? Z.of_nat (length (sweep _ _ _))) eqn:Hstill.
    + step. rewrite run_forEach_delete. step.
      rewrite slice_oldest by (apply Z.leb_le in Hstill; lia).
      by rewrite deleteAll_oldest.
    + by step.
  - exists (tick w). split; [lia|]. by step.
Qed.

Lemma length_mapReplace key e c : length (mapReplace key e c) = length c.
Proof.
  induction c as [|[k e'] c IH]; simpl; [done|].
  destruct (String.eqb k key); simpl; by rewrite ?IH.
Qed.

Lemma length_mapSet key e c : (length (mapSet key e c) ≤ S (length c))%nat.
Proof.
  unfold mapSet. destruct (mapHas key c).
  - rewrite length_mapReplace. lia.
  - rewrite length_app. simpl. lia.
Qed.

Lemma length_makeRoom now c :
  Z.of_nat (length (makeRoom now c)) < MAX_CACHE_SIZE.
Proof.
  unfold makeRoom.
  destruct (Z.leb_spec MAX_CACHE_SIZE (Z.of_nat (length c))); [|done].
  cbv zeta.
  destruct (Z.leb_spec MAX_CACHE_SIZE (Z.of_nat (length (sweep now c c)))); [|done].
  rewrite length_drop. unfold MAX_CACHE_SIZE in *. lia.
Qed.

Lemma sweep_nothing now entries c :
  Forall (unexpired now) entries → sweep now entries c = c.
Proof.
  unfold sweep. induction 1 as [|kv entries Hkv _ IH]; simpl; [done|].
  unfold unexpired in Hkv.
  by destruct (Z.ltb_spec (expiresAt kv.2) now); [lia|].
Qed.

Lemma mapGet_drop_None key n c : mapGet key c = None → mapGet key (drop n c) = None.
Proof.
  revert c. induction n as [|n IH]; intros [|[k e] c]; simpl; try done.
  destruct (String.eqb k key); [done|]. apply IH.
Qed.

(** X9. After [setCache] the cache holds at most [MAX_CACHE_SIZE]
    entries, whatever it held before, and the URL maps to the result
    just stored; no request is made.  When the cache is full of
    entries that have not expired and the URL is new, the entries
    evicted are the oldest ones: what remains is the cache without its
    first [size - 999] entries, followed by the new entry. *)
Theorem setCache_bounds_cache u r w :
  ∃ w' e,
    run env (setCache u r) w = (inl tt, w')
    ∧ Z.of_nat (length (cache w')) ≤ MAX_CACHE_SIZE
    ∧ mapGet u (cache w') = Some e ∧ result e = r
    ∧ trace w' = trace w
    ∧ (MAX_CACHE_SIZE ≤ Z.of_nat (length (cache w)) →
       Forall (unexpired (clock env (tick w))) (cache w) →
       mapGet u (cache w) = None →
       cache w'
       = drop (Z.to_nat (Z.of_nat (length (cache w)) - MAX_CACHE_SIZE + 1)) (cache w)
         ++ [(u, e)]).
Proof.
  destruct (run_setCache_makeRoom u r w) as (n & Hn & Hrun).
  eexists _, _. split; [exact Hrun|]. cbn [cache trace].
  split; [|split; [apply mapGet_mapSet_eq|split; [done|split; [done|]]]].
  - pose proof (length_mapSet u {| result := r; expiresAt := clock env n + CACHE_TTL |}
                  (makeRoom (clock env (tick w)) (cache w))).
    pose proof (length_makeRoom (clock env (tick w)) (cache w)). lia.
  - intros Hfull Hlive Hnew. unfold makeRoom.
    destruct (Z.leb_spec MAX_CACHE_SIZE (Z.of_nat (length (cache w)))); [|lia].
    cbv zeta. rewrite sweep_nothing by done.
    destruct (Z.leb_spec MAX_CACHE_SIZE (Z.of_nat (length (cache w)))); [|lia].
    unfold mapSet, mapHas. by rewrite mapGet_drop_None.
Qed.

End Store.

Section Calls.

Context (env : Env) `{UrlApi}.

#[local] Arguments mbind : simpl never.
#[local] Opaque cleanCache setCache getCached allRetriesFailed probe interpret.

Lemma run_trace {A} (t : Task A) w :
  ∃ tail, trace (run env t w).2 = trace w ++ tail.
Proof.
  revert w. induction t as [a|e|op k IH]; intros w; simpl.
  - exists []. by rewrite app_nil_r.
  - exists []. by rewrite app_nil_r.
  - destruct (perform env op w) as [x w1] eqn:Hop.
    destruct (IH x w1) as [tail ->].
    assert (∃ tail1, trace w1 = trace w ++ tail1) as [tail1 ->].
    { destruct op; simpl in Hop; injection Hop as _ <-; simpl;
        try (exists []; by rewrite app_nil_r); by eexists. }
    eexists. by rewrite <- app_assoc.
Qed.

Lemma probe_trace u tmo w o w1 :
  run env (probe u tmo) w = (o, w1) →
  ∃ tail, trace w1 = trace w ++ Fetch u HEAD tmo :: tail.
Proof.
  destruct (net env (tick w) u HEAD tmo) as [resp|e] eqn:Hnet.
  - destruct (decide (Response.status resp = 405 ∨ Response.status resp = 501))
      as [Hst|Hst].
    + rewrite (run_probe_get _ _ _ _ _ Hnet Hst). intros [= _ <-]. simpl.
      eexists. by rewrite <- app_assoc.
    + rewrite (run_probe_head _ _ _ _ _ Hnet) by tauto. intros [= _ <-].
      by exists [].
  - rewrite (run_probe_rejected _ _ _ _ _ Hnet). intros [= _ <-]. by exists [].
Qed.

Lemma liveEntry_expired u w e :
  mapGet u (cache w) = Some e → expiresAt e ≤ clock env (tick w) →
  liveEntry env w u = None.
Proof.
  intros Hget Hexp. unfold liveEntry. rewrite Hget.
  by destruct (Z.ltb_spec (clock env (tick w)) (expiresAt e)); [lia|].
Qed.

(** X10. An entry is not served at or after its expiry: a call on a
    URL whose entry has [expiresAt] at or before the reading of the
    clock sends a HEAD request for the URL, and when it returns the
    entry of the URL is the new result, with an expiry of five minutes
    after a reading of the clock made during the call. *)
Theorem expired_entry_reprobed u options w e :
  0 ≤ cfg_retries (withDefaults options) →
  mapGet u (cache w) = Some e →
  expiresAt e ≤ clock env (tick w) →
  ∃ r w' e' n tail,
    run env (validateUrl u options) w = (inl r, w')
    ∧ trace w' = trace w ++ Fetch u HEAD (cfg_timeout (withDefaults options)) :: tail
    ∧ mapGet u (cache w') = Some e' ∧ result e' = r
    ∧ (tick w ≤ n < tick w')%nat ∧ expiresAt e' = clock env n + CACHE_TTL.
Proof.
  intros Hrt Hget Hexp. unfold validateUrl.
  set (budget := Z.to_nat _). set (tmo := cfg_timeout _).
  set (rt := cfg_retries _) in *.
  pose proof (liveEntry_expired u w e Hget Hexp) as Hlive.
  destruct (validateUrlAt_returning env budget tmo rt u w) as (r & w' & Hrun & _).
  destruct (validateUrlAt_cached env _ _ _ _ _ _ _ Hrun) as (e' & Hget' & Hres & Hfresh).
  destruct (Hfresh Hlive) as (n & Hn & Hexp').
  assert (∃ tail, trace w' = trace w ++ Fetch u HEAD tmo :: tail) as [tail Htrace].
  { rewrite (run_validateUrlAt_miss env _ _ _ _ _ Hlive) in Hrun.
    destruct (Z.to_nat (rt + 1)) as [|remaining] eqn:Hrem; [lia|].
    rewrite run_retryLoop_S in Hrun.
    destruct (run env (probe u tmo) (missed w u)) as [o w1] eqn:Hprobe.
    apply probe_trace in Hprobe as [tail1 Hw1]. rewrite missed_trace in Hw1.
    assert (∃ tail2, trace w' = trace w1 ++ tail2) as [tail2 ->].
    { destruct o as [resp|e0].
      - pose proof (run_trace (interpret (follower budget tmo rt) u resp) w1)
          as [tail2 Hi].
        destruct (run env (interpret _ u resp) w1) as [[r'|e0] w2].
        + injection Hrun as _ <-. by exists tail2.
        + pose proof (run_trace (onError (follower budget tmo rt) u tmo rt
                                   remaining 0 e0) w2) as [tail3 Ho].
          rewrite Hrun in Ho. simpl in *. rewrite Ho, Hi.
          eexists. by rewrite <- app_assoc.
      - pose proof (run_trace (onError (follower budget tmo rt) u tmo rt
                                 remaining 0 e0) w1) as [tail3 Ho].
        rewrite Hrun in Ho. by exists tail3. }
    rewrite Hw1. eexists. by rewrite <- app_assoc. }
  by exists r, w', e', n, tail.
Qed.

(** X11. With a negative [retries] the loop of attempts is not
    entered: a call on a URL that is not in the cache makes no request
    and returns the invalid result with status 0 and "Request failed",
    which it stores under the URL. *)
Theorem negative_retries_skip_probe u options w :
  cfg_retries (withDefaults options) < 0 →
  liveEntry env w u = None →
  ∃ r w' e,
    run env (validateUrl u options) w = (inl r, w')
    ∧ trace w' = trace w
    ∧ valid r = false ∧ status r = 0 ∧ error r = Some "Request failed"
    ∧ mapGet u (cache w') = Some e ∧ result e = r.
Proof.
  intros Hrt Hlive. unfold validateUrl.
  rewrite (run_validateUrlAt_miss env _ _ _ _ _ Hlive).
  replace (Z.to_nat (cfg_retries (withDefaults options) + 1)) with 0%nat by lia.
  cbn [retryLoop].
  destruct (run_allRetriesFailed env u None (missed w u)) as (w' & Hrun & Hst).
  apply stored_lookup in Hst as (n & _ & _ & Htrace & Hget).
  eexists _, w', _. split; [exact Hrun|]. simpl in Htrace.
  rewrite missed_trace in Htrace. by repeat split.
Qed.

(** *** The retry policy *)

(** What a call awaits when each of its [attempts] probes is rejected
    with an error that is retried: a HEAD request per attempt, and
    between two attempts the pause of 500 ms when [pause] is set. *)
Fixpoint retryTrace (u : string) (tmo : Z) (pause : bool) (attempts : nat)
    : list Op :=
  match attempts with
  | O => []
  | S k =>
      Fetch u HEAD tmo ::
      match k with
      | O => []
      | S _ => (if pause then [Sleep 500] else []) ++ retryTrace u tmo pause k
      end
  end.

Lemma retryLoop_retried follow u tmo rt e l remaining attemptNo lastError w :
  (∀ t, net env t u HEAD tmo = inr e) →
  classify e = (l, false) → l ≠ "" →
  Z.of_nat remaining = rt + 1 - attemptNo →
  ∃ r w',
    run env (retryLoop follow u tmo rt remaining attemptNo lastError) w = (inl r, w')
    ∧ valid r = false ∧ status r = 0
    ∧ (remaining ≠ 0%nat → error r = Some l)
    ∧ trace w'
      = trace w ++ retryTrace u tmo (negb (Js.includes l "timeout")) remaining.
Proof.
  intros Hnet Hclass Hl. revert attemptNo lastError w.
  induction remaining as [|remaining IH]; intros attemptNo lastError w Hrem.
  - cbn [retryLoop].
    destruct (run_allRetriesFailed env u lastError w) as (w' & Hrun & Hst).
    apply stored_lookup in Hst as (n & _ & _ & Htrace & _).
    eexists _, w'. split; [exact Hrun|]. simpl in *.
    rewrite app_nil_r. by repeat split.
  - rewrite run_retryLoop_S, (run_probe_rejected env _ _ _ _ (Hnet (tick w))).
    unfold onError. rewrite Hclass. rewrite run_bind.
    destruct remaining as [|remaining].
    + replace (attemptNo <? rt) with false
        by (symmetry; apply Z.ltb_ge; lia).
      simpl. cbn [retryLoop].
      destruct (run_allRetriesFailed env u (Some l)
                  (ticked (logged (Fetch u HEAD tmo) w))) as (w' & Hrun & Hst).
      apply stored_lookup in Hst as (n & _ & _ & Htrace & _).
      eexists _, w'. split; [exact Hrun|]. simpl in *.
      repeat split; try done. intros _. f_equal.
      by destruct (String.eqb_spec l "").
    + replace (attemptNo <? rt) with true
        by (symmetry; apply Z.ltb_lt; lia).
      destruct (IH (attemptNo + 1) (Some l)
                  (if negb (Js.includes l "timeout")
                   then logged (Sleep 500) (ticked (logged (Fetch u HEAD tmo) w))
                   else ticked (logged (Fetch u HEAD tmo) w)))
        as (r & w' & Hrun & Hv & Hs & He & Htrace); [lia|].
      exists r, w'. split.
      { rewrite <- Hrun. by destruct (negb (Js.includes l "timeout")). }
      repeat split; try done; [by intros _; apply He|].
      rewrite Htrace. cbn [retryTrace].
      destruct (negb (Js.includes l "timeout")); simpl;
        by rewrite <- ?app_assoc.
Qed.

(** X12. A URL whose HEAD request is always rejected with a
    [TypeError] that mentions [fetch] is tried [retries + 1] times, and
    the invalid result has status 0 and the message of the error after
    "Network error: ".  Between two attempts the call pauses for 500 ms,
    unless that message contains "timeout", in which case the attempts
    follow each other without a pause. *)
Theorem network_errors_retried u options w name msg :
  0 ≤ cfg_retries (withDefaults options) →
  liveEntry env w u = None →
  Js.includes msg "fetch" = true →
  (∀ t, net env t u HEAD (cfg_timeout (withDefaults options))
        = inr (Js.ErrorObject true name msg)) →
  ∃ r w',
    run env (validateUrl u options) w = (inl r, w')
    ∧ valid r = false ∧ status r = 0
    ∧ error r = Some ("Network error: " +:+ msg)
    ∧ trace w'
      = trace w
        ++ retryTrace u (cfg_timeout (withDefaults options))
             (negb (Js.includes ("Network error: " +:+ msg) "timeout"))
             (Z.to_nat (cfg_retries (withDefaults options) + 1)).
Proof.
  intros Hrt Hlive Hmsg Hnet. unfold validateUrl.
  rewrite (run_validateUrlAt_miss env _ _ _ _ _ Hlive).
  set (tmo := cfg_timeout _) in *. set (rt := cfg_retries _) in *.
  destruct (retryLoop_retried
              (follower (Z.to_nat (cfg_maxRedirects (withDefaults options))) tmo rt)
              u tmo rt (Js.ErrorObject true name msg) ("Network error: " +:+ msg)
              (Z.to_nat (rt + 1)) 0 None (missed w u) Hnet)
    as (r & w' & Hrun & Hv & Hs & He & Htrace).
  - unfold classify. simpl. by rewrite Hmsg.
  - done.
  - lia.
  - exists r, w'. rewrite missed_trace in Htrace.
    repeat split; try done. apply He. lia.
Qed.

(** X13. An error that is not an abort and whose message does not
    mention [fetch] ends the call after its first attempt, whatever
    [retries] is: the result is invalid with status 0 and the message
    of the error ("Request failed" for an empty message, "Unknown
    error" for a thrown value that is not an [Error]). *)
Theorem unexpected_error_not_retried u options w e :
  0 ≤ cfg_retries (withDefaults options) →
  liveEntry env w u = None →
  Js.includes (Js.message e) "fetch" = false →
  Js.name e ≠ "AbortError" →
  net env (tick (missed w u)) u HEAD (cfg_timeout (withDefaults options)) = inr e →
  ∃ r w',
    run env (validateUrl u options) w = (inl r, w')
    ∧ valid r = false ∧ status r = 0
    ∧ error r = Some (match e with
                      | Js.ErrorObject _ _ "" => "Request failed"
                      | Js.ErrorObject _ _ message => message
                      | Js.OtherValue => "Unknown error"
                      end)
    ∧ trace w' = trace w ++ [Fetch u HEAD (cfg_timeout (withDefaults options))].
Proof.
  intros Hrt Hlive Hmsg Hname Hnet. unfold validateUrl.
  rewrite (run_validateUrlAt_miss env _ _ _ _ _ Hlive).
  set (tmo := cfg_timeout _) in *. set (rt := cfg_retries _) in *.
  destruct (Z.to_nat (rt + 1)) as [|remaining] eqn:Hrem; [lia|].
  rewrite run_retryLoop_S, (run_probe_rejected env _ _ _ _ Hnet).
  unfold onError.
  assert (classify e
          = (if Js.instanceofError e then Js.message e else "Unknown error", true))
    as ->.
  { unfold classify. rewrite Hmsg, !andb_false_r.
    destruct e as [tp nm m|]; simpl in *; [|done].
    by destruct (String.eqb_spec nm "AbortError"). }
  match goal with
  | |- context [run env (allRetriesFailed u ?le) ?w0] =>
      destruct (run_allRetriesFailed env u le w0) as (w' & Hrun & Hst)
  end.
  apply stored_lookup in Hst as (n & _ & _ & Htrace & _).
  eexists _, w'. split; [exact Hrun|]. simpl in *.
  rewrite missed_trace in Htrace. repeat split; try done.
  destruct e as [tp nm [|c m]|]; done.
Qed.

(** X14. When the server answers HEAD with 405 or 501, the verdict is
    that of the ranged GET request that follows in the same attempt:
    for a GET answer that is not a redirect, the result has the status
    of that answer and is valid exactly when it is a 2xx, and the call
    has made the two requests and no other.  A GET that is refused
    with 405 in turn gives the invalid result "HTTP 405". *)
Theorem head_refused_falls_back_to_get u options w head resp :
  0 ≤ cfg_retries (withDefaults options) →
  liveEntry env w u = None →
  (∀ t, net env t u HEAD (cfg_timeout (withDefaults options)) = inl head) →
  Response.status head = 405 ∨ Response.status head = 501 →
  (∀ t, net env t u GET (cfg_timeout (withDefaults options)) = inl resp) →
  isRedirect resp = false →
  ∃ r w',
    run env (validateUrl u options) w = (inl r, w')
    ∧ valid r = isSuccess resp ∧ status r = Response.status resp
    ∧ finalUrl r = None
    ∧ error r = (if isSuccess resp then None
                 else Some ("HTTP " +:+ pretty (Response.status resp)))
    ∧ trace w'
      = trace w ++ [Fetch u HEAD (cfg_timeout (withDefaults options));
                    Fetch u GET (cfg_timeout (withDefaults options))].
Proof.
  intros Hrt Hlive Hhead Hst Hget Hred. unfold validateUrl.
  rewrite (run_validateUrlAt_miss env _ _ _ _ _ Hlive).
  set (tmo := cfg_timeout _) in *. set (rt := cfg_retries _) in *.
  destruct (Z.to_nat (rt + 1)) as [|remaining] eqn:Hrem; [lia|].
  rewrite run_retryLoop_S, (run_probe_get env _ _ _ _ (Hhead _) Hst), Hget.
  match goal with
  | |- context [run env (interpret ?f u resp) ?w0] =>
      destruct (run_interpret_terminal env f u resp w0 Hred) as (w' & Hrun & Hstored)
  end.
  rewrite Hrun. apply stored_lookup in Hstored as (n & _ & _ & Htrace & _).
  eexists _, w'. split; [done|]. simpl in *.
  rewrite missed_trace, <- app_assoc in Htrace. by repeat split.
Qed.

End Calls.

Section Interleaved.

Context (env : Env) (I : Cache → Prop).

(** [awaits t w Φ]: the task [t], started in [w], ends in a world that
    satisfies [Φ], and the cache satisfies [I] each time the task is
    suspended, whatever the other tasks did to the world while it was
    suspended, as long as they left a cache that satisfies [I]. *)
Fixpoint awaits {A} (t : Task A) (w : World)
    (Φ : A + Js.Thrown → World → Prop) : Prop :=
  match t with
  | Ret a => Φ (inl a) w
  | Throw e => Φ (inr e) w
  | Do op k =>
      if isAwait op then
        I (cache w)
        ∧ ∀ w', I (cache w') →
                awaits (k (perform env op w').1) (perform env op w').2 Φ
      else awaits (k (perform env op w).1) (perform env op w).2 Φ
  end.

Fixpoint awaitFree {A} (t : Task A) : Prop :=
  match t with
  | Ret _ | Throw _ => True
  | Do op k => isAwait op = false ∧ ∀ x, awaitFree (k x)
  end.

Lemma awaits_mono {A} (t : Task A) w (Φ Ψ : A + Js.Thrown → World → Prop) :
  (∀ r w', Φ r w' → Ψ r w') → awaits t w Φ → awaits t w Ψ.
Proof.
  intros Himp. revert w. induction t as [a|e|op k IH]; intros w; simpl; auto.
  destruct (isAwait op); [|by apply IH].
  intros [Hw Hk]. split; [done|]. intros w' Hw'. by apply IH, Hk.
Qed.

Lemma awaits_bind {A B} (t : Task A) (f : A → Task B) w Φ :
  awaits t w (λ r w', match r with
                      | inl a => awaits (f a) w' Φ
                      | inr e => Φ (inr e) w'
                      end) →
  awaits (t ≫= f) w Φ.
Proof.
  revert w. induction t as [a|e|op k IH]; intros w; simpl; auto.
  destruct (isAwait op); [|by apply IH].
  intros [Hw Hk]. split; [done|]. intros w' Hw'. by apply IH, Hk.
Qed.

Lemma awaits_tryCatch {A} (t : Task A) (h : Js.Thrown → Task A) w Φ :
  awaits t w (λ r w', match r with
                      | inl a => Φ (inl a) w'
                      | inr e => awaits (h e) w' Φ
                      end) →
  awaits (tryCatch t h) w Φ.
Proof.
  revert w. induction t as [a|e|op k IH]; intros w; simpl; auto.
  destruct (isAwait op); [|by apply IH].
  intros [Hw Hk]. split; [done|]. intros w' Hw'. by apply IH, Hk.
Qed.

(** A task that is never suspended runs as it does alone. *)
Lemma awaits_awaitFree {A} (t : Task A) w Φ :
  awaitFree t → Φ (run env t w).1 (run env t w).2 → awaits t w Φ.
Proof.
  revert w. induction t as [a|e|op k IH]; intros w; simpl; auto.
  intros [-> Hk]. destruct (perform env op w) as [x w1]. by apply IH.
Qed.

Lemma awaitFree_bind {A B} (t : Task A) (f : A → Task B) :
  awaitFree t → (∀ a, awaitFree (f a)) → awaitFree (t ≫= f).
Proof.
  intros Ht Hf. induction t as [a|e|op k IH]; simpl in *; auto.
  destruct Ht as [Hop Hk]. split; [done|]. intros x. by apply IH.
Qed.

Lemma awaitFree_forEach {A} (l : list A) (f : A → Task unit) :
  (∀ x, awaitFree (f x)) → awaitFree (forEach l f).
Proof.
  intros Hf. induction l as [|x l IH]; simpl; [done|].
  apply awaitFree_bind; [apply Hf|]. by intros _.
Qed.

Lemma awaitFree_cleanCache : awaitFree cleanCache.
Proof.
  unfold cleanCache. repeat (apply awaitFree_bind; [by simpl|]; intros ?).
  apply awaitFree_forEach. intros kv. by destruct (_ <? _).
Qed.

Lemma awaitFree_getCached u : awaitFree (getCached u).
Proof.
  unfold getCached. apply awaitFree_bind; [by simpl|]. intros [c|].
  - apply awaitFree_bind; [by simpl|]. intros now. destruct (_ <? _); [done|].
    by apply awaitFree_bind; [simpl|].
  - by apply awaitFree_bind; [simpl|].
Qed.

Lemma awaitFree_setCache u r : awaitFree (setCache u r).
Proof.
  unfold setCache. apply awaitFree_bind; [by simpl|]. intros size.
  apply awaitFree_bind.
  - destruct (_ <=? _); [|done].
    apply awaitFree_bind; [apply awaitFree_cleanCache|]. intros _.
    apply awaitFree_bind; [by simpl|]. intros size'.
    destruct (_ <=? _); [|done].
    apply awaitFree_bind; [by simpl|]. intros entries.
    apply awaitFree_forEach. by intros key.
  - intros _. by apply awaitFree_bind; [simpl|].
Qed.

(** What runs alone ends as [awaits] says. *)
Lemma run_awaits {A} (t : Task A) w Φ :
  awaits t w Φ → Φ (run env t w).1 (run env t w).2.
Proof.
  revert w. induction t as [a|e|op k IH]; intros w; simpl; auto.
  destruct (isAwait op).
  - intros [Hw Hk]. specialize (Hk w Hw).
    destruct (perform env op w) as [x w1]. by apply IH.
  - intros Hk. destruct (perform env op w) as [x w1]. by apply IH.
Qed.

(** A task that keeps [I] from its call to its return, suspensions
    included. *)
Definition Bounded {A} (t : Task A) : Prop :=
  ∀ w, I (cache w) → awaits t w (λ _ w', I (cache w')).

Lemma Bounded_bind {A B} (t : Task A) (f : A → Task B) :
  Bounded t → (∀ a, Bounded (f a)) → Bounded (t ≫= f).
Proof.
  intros Ht Hf w Hw. apply awaits_bind. eapply awaits_mono; [|by apply Ht].
  intros [a|e] w' Hw'; [by apply Hf|done].
Qed.

Lemma Bounded_tryCatch {A} (t : Task A) (h : Js.Thrown → Task A) :
  Bounded t → (∀ e, Bounded (h e)) → Bounded (tryCatch t h).
Proof.
  intros Ht Hh w Hw. apply awaits_tryCatch. eapply awaits_mono; [|by apply Ht].
  intros [a|e] w' Hw'; [done|by apply Hh].
Qed.

Lemma Bounded_Ret {A} (a : A) : Bounded (Ret a).
Proof. by intros w Hw. Qed.

Lemma Bounded_Throw {A} e : Bounded (@Throw A e).
Proof. by intros w Hw. Qed.

(** The operations that neither store nor delete. *)
Lemma Bounded_call op :
  match op with CacheSet _ _ | CacheDelete _ => False | _ => True end →
  Bounded (call op).
Proof. intros Hop w Hw. destruct op; simpl; try done; by split. Qed.

Lemma Bounded_fetch u m tmo : Bounded (fetch u m tmo).
Proof.
  intros w Hw. simpl. split; [done|]. intros w' Hw'.
  by destruct (net env (tick w') u m tmo).
Qed.

(** The members of a batch: settled, or suspended with a continuation
    that keeps [I] wherever it is resumed. *)
Definition slotOk {A} (s : Slot A) : Prop :=
  match s with
  | Settled _ => True
  | Waiting op k =>
      ∀ w, I (cache w) →
           awaits (k (perform env op w).1) (perform env op w).2
                  (λ _ w', I (cache w'))
  end.

Lemma advance_awaits {A} (t : Task A) w :
  awaits t w (λ _ w', I (cache w')) →
  I (cache (advance env t w).2) ∧ slotOk (advance env t w).1.
Proof.
  revert w. induction t as [a|e|op k IH]; intros w; simpl; auto.
  destruct (isAwait op); [by intros [Hw Hk]|].
  intros Hk. destruct (perform env op w) as [x w1]. by apply IH.
Qed.

Lemma resume_awaits {A} (s : Slot A) w :
  slotOk s → I (cache w) →
  I (cache (resume env s w).2) ∧ slotOk (resume env s w).1.
Proof.
  destruct s as [r|op k]; simpl; [done|]. intros Hk Hw. specialize (Hk w Hw).
  destruct (perform env op w) as [x w1]. by apply advance_awaits.
Qed.

Lemma settle_awaits {A} (s : Slot A) w :
  slotOk s → I (cache w) → I (cache (settle env s w).2).
Proof.
  destruct s as [r|op k]; simpl; [done|]. intros Hk Hw. specialize (Hk w Hw).
  destruct (perform env op w) as [x w1]. by apply run_awaits in Hk.
Qed.

Lemma startAll_awaits {A} (ts : list (Task A)) w :
  Forall Bounded ts → I (cache w) →
  I (cache (startAll env ts w).2) ∧ Forall slotOk (startAll env ts w).1.
Proof.
  intros Hts. revert w. induction Hts as [|t ts Ht Hts IH]; intros w Hw; simpl.
  - done.
  - destruct (advance_awaits t w (Ht w Hw)) as [Hw1 Hs].
    destruct (advance env t w) as [s w1]. simpl in *.
    destruct (IH w1 Hw1) as [Hw2 Hss].
    destruct (startAll env ts w1) as [ss w2]. simpl in *. split; [done|].
    by constructor.
Qed.

Lemma drive_awaits {A} order (slots : list (Slot A)) w :
  Forall slotOk slots → I (cache w) →
  I (cache (drive env order slots w).2)
  ∧ Forall slotOk (drive env order slots w).1.
Proof.
  revert slots w. induction order as [|i order IH]; intros slots w Hss Hw; simpl.
  - done.
  - destruct (slots !! i) as [s|] eqn:Hi; [|by apply IH].
    assert (slotOk s) as Hs.
    { rewrite Forall_forall in Hss. apply Hss. by eapply list_elem_of_lookup_2. }
    destruct (resume_awaits s w Hs Hw) as [Hw1 Hs1].
    destruct (resume env s w) as [s1 w1]. simpl in *.
    apply IH; [|done]. by apply Forall_insert.
Qed.

Lemma settleAll_awaits {A} (slots : list (Slot A)) w :
  Forall slotOk slots → I (cache w) → I (cache (settleAll env slots w).2).
Proof.
  intros Hss. revert w. induction Hss as [|s slots Hs Hss IH]; intros w Hw; simpl.
  - done.
  - pose proof (settle_awaits s w Hs Hw) as Hw1.
    destruct (settle env s w) as [r w1]. simpl in *.
    specialize (IH w1 Hw1). by destruct (settleAll env slots w1) as [rs w2].
Qed.

Lemma promiseAll_awaits {A} (ts : list (Task A)) w :
  Forall Bounded ts → I (cache w) → I (cache (promiseAll env ts w).2).
Proof.
  intros Hts Hw. unfold promiseAll.
  destruct (startAll_awaits ts w Hts Hw) as [Hw1 Hss].
  destruct (startAll env ts w) as [slots w1]. simpl in *.
  destruct (drive_awaits (interleaving env (tick w)) slots w1 Hss Hw1)
    as [Hw2 Hss2].
  destruct (drive env _ slots w1) as [slots2 w2]. simpl in *.
  pose proof (settleAll_awaits slots2 w2 Hss2 Hw2) as Hw3.
  by destruct (settleAll env slots2 w2) as [rs w3].
Qed.

End Interleaved.

Section CacheSize.

Context (env : Env) `{UrlApi}.

#[local] Arguments mbind : simpl never.

Definition withinLimit (c : Cache) : Prop :=
  Z.of_nat (length c) ≤ MAX_CACHE_SIZE.

Lemma length_mapDelete key c : (length (mapDelete key c) ≤ length c)%nat.
Proof.
  induction c as [|[k e] c IH]; simpl; [done|].
  destruct (String.eqb k key); simpl; lia.
Qed.

Lemma length_sweep now entries c : (length (sweep now entries c) ≤ length c)%nat.
Proof.
  unfold sweep. revert c. induction entries as [|kv entries IH]; intros c; simpl.
  - done.
  - etrans; [apply IH|]. destruct (_ <? _); [apply length_mapDelete|done].
Qed.

Lemma Bounded_getCached u : Bounded env withinLimit (getCached u).
Proof.
  intros w Hw. apply awaits_awaitFree; [apply awaitFree_getCached|].
  unfold withinLimit in *.
  destruct (liveEntry env w u) as [e|] eqn:Hlive.
  - by rewrite (run_getCached_hit env _ _ _ Hlive).
  - rewrite (run_getCached_miss env _ _ Hlive). unfold missed.
    destruct (mapGet u (cache w)); [|done]. simpl.
    pose proof (length_mapDelete u (cache w)). lia.
Qed.

Lemma Bounded_cleanCache : Bounded env withinLimit cleanCache.
Proof.
  intros w Hw. apply awaits_awaitFree; [apply awaitFree_cleanCache|].
  rewrite run_cleanCache. unfold withinLimit in *. simpl.
  pose proof (length_sweep (clock env (tick w)) (cache w) (cache w)). lia.
Qed.

(** [setCache] leaves a cache within the limit whatever it found. *)
Lemma Bounded_setCache u r : Bounded env withinLimit (setCache u r).
Proof.
  intros w _. apply awaits_awaitFree; [apply awaitFree_setCache|].
  destruct (run_setCache_makeRoom env u r w) as (n & _ & ->).
  unfold withinLimit. simpl.
  pose proof (length_mapSet u {| result := r; expiresAt := clock env n + CACHE_TTL |}
                (makeRoom (clock env (tick w)) (cache w))).
  pose proof (length_makeRoom (clock env (tick w)) (cache w)). lia.
Qed.

Lemma Bounded_store u r :
  Bounded env withinLimit (setCache u r ;; Ret r).
Proof.
  apply Bounded_bind; [apply Bounded_setCache|]. intros _. apply Bounded_Ret.
Qed.

Lemma Bounded_stamp (k : Z → Task ValidationResult) :
  (∀ now, Bounded env withinLimit (k now)) →
  Bounded env withinLimit (call DateNow ≫= k).
Proof.
  intros Hk. apply Bounded_bind; [|done].
  by apply (Bounded_call env withinLimit DateNow).
Qed.

Lemma Bounded_probe u tmo : Bounded env withinLimit (probe u tmo).
Proof.
  unfold probe. apply Bounded_bind; [apply Bounded_fetch|]. intros resp.
  destruct (_ || _); [|apply Bounded_Ret].
  apply Bounded_tryCatch; [apply Bounded_fetch|]. intros e. apply Bounded_Throw.
Qed.

Lemma Bounded_interpret follow u resp :
  (∀ v, follow = Some v → ∀ x, Bounded env withinLimit (v x)) →
  Bounded env withinLimit (interpret follow u resp).
Proof.
  intros Hfollow. unfold interpret. destruct (_ && _).
  - destruct (Js.falsy _).
    + apply Bounded_stamp. intros now. apply Bounded_store.
    + destruct follow as [v|].
      * apply Bounded_bind; [by apply Hfollow|]. intros inner.
        apply Bounded_bind; [by apply (Bounded_call env withinLimit AwaitCall)|].
        intros _. apply Bounded_stamp. intros now. apply Bounded_store.
      * apply Bounded_stamp. intros now. apply Bounded_store.
  - apply Bounded_stamp. intros now. apply Bounded_store.
Qed.

Lemma Bounded_allRetriesFailed u lastError :
  Bounded env withinLimit (allRetriesFailed u lastError).
Proof. unfold allRetriesFailed. apply Bounded_stamp. intros now. apply Bounded_store. Qed.

Lemma Bounded_retryLoop follow u tmo rt remaining attemptNo lastError :
  (∀ v, follow = Some v → ∀ x, Bounded env withinLimit (v x)) →
  Bounded env withinLimit (retryLoop follow u tmo rt remaining attemptNo lastError).
Proof.
  intros Hfollow. revert attemptNo lastError.
  induction remaining as [|remaining IH]; intros attemptNo lastError.
  - apply Bounded_allRetriesFailed.
  - rewrite retryLoop_S. apply Bounded_tryCatch.
    + unfold attempt. apply Bounded_bind; [apply Bounded_probe|].
      intros resp. by apply Bounded_interpret.
    + intros e. unfold onError. destruct (classify e) as [lastError' [|]].
      * apply Bounded_allRetriesFailed.
      * apply Bounded_bind; [|intros _; apply IH].
        destruct (_ && _); [|apply Bounded_Ret].
        by apply (Bounded_call env withinLimit (Sleep 500)).
Qed.

Lemma Bounded_validateUrlAt budget tmo rt u :
  Bounded env withinLimit (validateUrlAt budget tmo rt u).
Proof.
  revert u. induction budget as [|budget IH]; intros u;
    rewrite validateUrlAt_eq;
    (apply Bounded_bind; [apply Bounded_getCached|]); intros [r|];
    try apply Bounded_Ret; apply Bounded_retryLoop; [done|].
  by intros v [= <-] x.
Qed.

Lemma batchLoop_withinLimit fuel urls options concurrency i results w :
  withinLimit (cache w) →
  match batchLoop env fuel urls options concurrency i results w with
  | Some (_, w') => withinLimit (cache w')
  | None => True
  end.
Proof.
  revert i results w. induction fuel as [|fuel IH]; intros i results w Hw; simpl.
  - by destruct (_ <? _).
  - destruct (_ <? _); [|done].
    set (batch := map _ _).
    assert (withinLimit (cache (promiseAll env batch w).2)) as Hw'.
    { apply promiseAll_awaits; [|done]. apply Forall_forall.
      intros t Ht. apply list_elem_of_fmap in Ht as (u & -> & _).
      apply Bounded_validateUrlAt. }
    destruct (promiseAll env batch w) as [[batchResults|e] w']; [|done].
    by apply IH.
Qed.

(** X15. From a cache of at most [MAX_CACHE_SIZE] entries, the cache
    holds at most [MAX_CACHE_SIZE] entries after a call of
    [validateUrl], and after [validateUrls] whichever way the runtime
    interleaves the members of each batch. *)
Theorem cache_stays_within_limit fuel urls options w :
  Z.of_nat (length (cache w)) ≤ MAX_CACHE_SIZE →
  (∀ u, Z.of_nat (length (cache (run env (validateUrl u options) w).2))
        ≤ MAX_CACHE_SIZE)
  ∧ match validateUrls env fuel urls options w with
    | Some (_, w') => Z.of_nat (length (cache w')) ≤ MAX_CACHE_SIZE
    | None => True
    end.
Proof.
  intros Hw. split.
  - intros u.
    apply (run_awaits env withinLimit (validateUrl u options) w
             (λ _ w', withinLimit (cache w'))).
    by apply Bounded_validateUrlAt.
  - unfold validateUrls.
    assert (withinLimit (cache (run env cleanCache w).2)) as Hclean.
    { apply (run_awaits env withinLimit cleanCache w
               (λ _ w', withinLimit (cache w'))).
      by apply Bounded_cleanCache. }
    destruct (length urls =? 0)%nat; [done|].
    by apply batchLoop_withinLimit.
Qed.

End CacheSize.

#[local] Existing Instance PlainUrl.api.

(** A clock that stands at 10, and a cache of three entries that
    expire at 5, at 10 and at 20. *)
Definition stillEnv : Env :=
  {| clock := λ _, 10;
     net := λ _ _ _ _, inl (Response.make 200 None);
     interleaving := λ _, [] |}.

Definition entryUntil (u : string) (expiry : Z) : string * CacheEntry :=
  (u, {| result := {| url := u; valid := true; status := 200; finalUrl := None;
                      error := None; checkedAt := expiry - CACHE_TTL |};
         expiresAt := expiry |}).

Definition threeEntries : World :=
  {| cache := [entryUntil "https://a.example/" 5;
               entryUntil "https://b.example/" 10;
               entryUntil "https://c.example/" 20];
     tick := 0; trace := [] |}.

Lemma cleanCache_drops_expired_witness :
  run stillEnv cleanCache threeEntries
  = (inl tt, {| cache := [entryUntil "https://b.example/" 10;
                          entryUntil "https://c.example/" 20];
                tick := 1; trace := [] |})
  ∧ validateUrls stillEnv 0 []
      {| concurrency := Some 0; timeout := None; maxRedirects := None;
         retries := None |} threeEntries
    = Some (inl [], {| cache := [entryUntil "https://b.example/" 10;
                                 entryUntil "https://c.example/" 20];
                       tick := 1; trace := [] |}).
Proof.
  destruct (cleanCache_drops_expired stillEnv threeEntries) as [Hclean Hempty].
  { apply (bool_decide_unpack _). by vm_compute. }
  split; [exact Hclean|]. apply Hempty.
Defined.

Lemma expired_entry_reprobed_witness :
  ∃ r w',
    run onePageEnv (validateUrl "https://example.com/" noOptions)
        {| cache := [entryUntil "https://example.com/" 0]; tick := 0; trace := [] |}
    = (inl r, w')
    ∧ ∃ tail, trace w' = Fetch "https://example.com/" HEAD 5000 :: tail.
Proof.
  destruct (expired_entry_reprobed onePageEnv "https://example.com/" noOptions
              {| cache := [entryUntil "https://example.com/" 0];
                 tick := 0; trace := [] |}
              (entryUntil "https://example.com/" 0).2)
    as (r & w' & e' & n & tail & Hrun & Htrace & _); [done..|].
  exists r, w'. split; [done|]. by exists tail.
Defined.

Lemma negative_retries_skip_probe_witness :
  ∃ r w',
    run onePageEnv
        (validateUrl "https://example.com/"
           {| concurrency := None; timeout := None; maxRedirects := None;
              retries := Some (-1) |})
        initialWorld = (inl r, w')
    ∧ trace w' = [] ∧ valid r = false ∧ error r = Some "Request failed".
Proof.
  destruct (negative_retries_skip_probe onePageEnv "https://example.com/"
              {| concurrency := None; timeout := None; maxRedirects := None;
                 retries := Some (-1) |} initialWorld)
    as (r & w' & e & Hrun & Htrace & Hv & _ & He & _); [done..|].
  by exists r, w'.
Defined.

(** An environment whose network is down: every [fetch] is rejected
    the way the runtime reports a connection that cannot be made. *)
Definition offlineEnv : Env :=
  {| clock := λ n, Z.of_nat n;
     net := λ _ _ _ _, inr (Js.ErrorObject true "TypeError" "fetch failed");
     interleaving := λ _, [] |}.

Lemma network_errors_retried_witness :
  ∃ r w',
    run offlineEnv
        (validateUrl "https://example.com/"
           {| concurrency := None; timeout := None; maxRedirects := None;
              retries := Some 2 |})
        initialWorld = (inl r, w')
    ∧ error r = Some "Network error: fetch failed"
    ∧ trace w' = [Fetch "https://example.com/" HEAD 5000; Sleep 500;
                  Fetch "https://example.com/" HEAD 5000; Sleep 500;
                  Fetch "https://example.com/" HEAD 5000].
Proof.
  destruct (network_errors_retried offlineEnv "https://example.com/"
              {| concurrency := None; timeout := None; maxRedirects := None;
                 retries := Some 2 |} initialWorld "TypeError" "fetch failed")
    as (r & w' & Hrun & _ & _ & He & Htrace); [done..|].
  by exists r, w'.
Defined.

Lemma unexpected_error_not_retried_witness :
  ∃ r w',
    run unparsableEnv
        (validateUrl "not-a-url"
           {| concurrency := None; timeout := None; maxRedirects := None;
              retries := Some 5 |})
        initialWorld = (inl r, w')
    ∧ error r = Some "Failed to parse URL from not-a-url"
    ∧ trace w' = [Fetch "not-a-url" HEAD 5000].
Proof.
  destruct (unexpected_error_not_retried unparsableEnv "not-a-url"
              {| concurrency := None; timeout := None; maxRedirects := None;
                 retries := Some 5 |} initialWorld
              (Js.ErrorObject true "TypeError" "Failed to parse URL from not-a-url"))
    as (r & w' & Hrun & _ & _ & He & Htrace); [done..|].
  by exists r, w'.
Defined.

(** A server that refuses HEAD and answers GET. *)
Definition getOnlyEnv : Env :=
  {| clock := λ n, Z.of_nat n;
     net := λ _ _ m _,
       match m with
       | HEAD => inl (Response.make 405 None)
       | GET => inl (Response.make 206 None)
       end;
     interleaving := λ _, [] |}.

Lemma head_refused_falls_back_to_get_witness :
  ∃ r w',
    run getOnlyEnv (validateUrl "https://example.com/file" noOptions) initialWorld
    = (inl r, w')
    ∧ valid r = true ∧ status r = 206
    ∧ trace w' = [Fetch "https://example.com/file" HEAD 5000;
                  Fetch "https://example.com/file" GET 5000].
Proof.
  destruct (head_refused_falls_back_to_get getOnlyEnv "https://example.com/file"
              noOptions initialWorld (Response.make 405 None)
              (Response.make 206 None))
    as (r & w' & Hrun & Hv & Hs & _ & _ & Htrace); [done| done| done| by left| done..|].
  by exists r, w'.
Defined.

Lemma cache_stays_within_limit_witness :
  ∃ rs w',
    validateUrls reorderingEnv 2
      ["https://example.com/a"; "https://example.com/b"] twoAtATime initialWorld
    = Some (inl rs, w')
    ∧ Z.of_nat (length (cache w')) ≤ MAX_CACHE_SIZE.
Proof.
  destruct (cache_stays_within_limit reorderingEnv 2
              ["https://example.com/a"; "https://example.com/b"] twoAtATime
              initialWorld) as [_ Hbatch]; [done|].
  destruct (validateUrls reorderingEnv 2 _ twoAtATime initialWorld)
    as [[[rs|e] w']|] eqn:Hrun; [|by vm_compute in Hrun..].
  by exists rs, w'.
Defined.

End ValidatorProperties.

(** ** The fetcher and the queue of the crawler *)

Module CrawlProperties.

Import Crawler.

Section Crawl.

Context `{UrlApi} (env : Env).

(** *** What the fetcher returns *)

(** The shape of what [scrapeUrl] returns. *)

Definition fromService (r : ScrapedContent) : Prop :=
  fallbackUsed r = None ∧ _paywalledUrls r = None
  ∧ (success r = true → truthy (isPaywalled r) = false).

Lemma scrapeUrl_fromService u w r w' :
  scrapeUrl env u w = (inl r, w') → url r = u ∧ fromService r.
Proof.
  unfold scrapeUrl. destruct (Js.falsy _); [done|].
  destruct (startAndWait _ _ _) as [data|e]; intros [= <- _]; simpl.
  - split; [done|]. repeat split. unfold truthy. simpl.
    by destruct (PAYWALL_THRESHOLD <=? _).
  - done.
Qed.

Lemma scrapeAll_fromService urls w rs w' :
  scrapeAll env urls w = (inl rs, w') →
  map url rs = urls ∧ Forall fromService rs.
Proof.
  revert w rs w'. induction urls as [|u urls IH]; intros w rs w'; simpl.
  - by intros [= <- _].
  - destruct (scrapeUrl env u w) as [[r|e] w1] eqn:Hr; [|done].
    destruct (scrapeAll env urls w1) as [[rs'|e] w2] eqn:Hrs; [|done].
    intros [= <- _]. apply scrapeUrl_fromService in Hr as [Hu Hr].
    apply IH in Hrs as [Hus Hrs]. simpl. split; [by f_equal|by constructor].
Qed.

Definition noUrlsError (n : nat) : Js.Thrown :=
  Js.ErrorObject false "Error"
    ("Failed to scrape any URLs successfully. All " +:+ pretty (Z.of_nat n)
     +:+ " URLs failed or were paywalled.").

Definition missingKeyError : Js.Thrown :=
  Js.ErrorObject false "Error" "HYPERBROWSER_API_KEY is not configured".

Lemma scrapeAll_thrown urls w e w' :
  scrapeAll env urls w = (inr e, w') → e = missingKeyError.
Proof.
  revert w w'. induction urls as [|u urls IH]; intros w w'; simpl; [done|].
  destruct (scrapeUrl env u w) as [[r|e'] w1] eqn:Hr.
  - destruct (scrapeAll env urls w1) as [[rs'|e'] w2] eqn:Hrs; [done|].
    intros [= <- _]. by eapply IH.
  - intros [= <- _]. unfold scrapeUrl in Hr.
    destruct (Js.falsy _); [by injection Hr as <- _|].
    by destruct (startAndWait _ _ _).
Qed.

Lemma scrapeAll_length urls w rs w' :
  scrapeAll env urls w = (inl rs, w') → length rs = length urls.
Proof.
  intros Hrs. apply scrapeAll_fromService in Hrs as [<- _]. by rewrite length_map.
Qed.

(** The two selections of [scrapeUrls] do not overlap. *)
Lemma selections_length (rs : list ScrapedContent) :
  Forall fromService rs →
  (length (filter (λ r, success r && (0 <? strlen (markdown r))%Z = true) rs
           ++ filter (λ r, truthy (isPaywalled r) = true) rs)
   ≤ length rs)%nat.
Proof.
  induction 1 as [|r rs (_ & _ & Hr) Hrs IH]; [done|].
  rewrite length_app in *. rewrite !filter_cons.
  destruct (decide (success r && _ = true)) as [Hs|Hs];
    destruct (decide (truthy (isPaywalled r) = true)) as [Hp|Hp]; simpl; try lia.
  apply andb_true_iff in Hs as [Hs _]. rewrite (Hr Hs) in Hp. done.
Qed.

Lemma scrapeUrls_length urls w rs w' :
  scrapeUrls env urls w = (inl rs, w') → (length rs ≤ length urls)%nat.
Proof.
  unfold scrapeUrls.
  destruct (scrapeAll env urls w) as [[all|e] w1] eqn:Hall; [|done].
  pose proof (scrapeAll_length _ _ _ _ Hall) as Hlen.
  apply scrapeAll_fromService in Hall as [_ Hall].
  pose proof (selections_length all Hall) as Hsel.
  destruct (filter _ all) as [|r0 ok] eqn:Hok.
  - destruct (filter _ (filter _ all)) as [|r1 sub] eqn:Hsub; [done|].
    assert (length (r1 :: sub) ≤ length all)%nat as Hle.
    { rewrite <- Hsub. etrans; apply length_filter. }
    intros [= <- _]. simpl in *. rewrite length_map. lia.
  - intros [= <- _]. simpl in *. lia.
Qed.

(** X1. [scrapeUrls] either returns or throws one of two errors.  What
    it returns holds at least one page with [success] set, and only
    pages of the URLs given that succeeded or are flagged as paywalled:
    a page whose scrape failed is never returned.  A page marked
    [fallbackUsed] is flagged as paywalled, counts as a success and has
    at least 1000 characters.  What it throws is the error of the
    missing API key, on a list that is not empty, or the error that
    nothing could be scraped, with the number of URLs given; on the
    empty list it is the latter. *)
Theorem scrapeUrls_outcome urls w :
  match (scrapeUrls env urls w).1 with
  | inl rs =>
      (∃ r, r ∈ rs ∧ success r = true)
      ∧ Forall (λ r, url r ∈ urls
                     ∧ (success r = true ∨ truthy (isPaywalled r) = true)
                     ∧ (fallbackUsed r = Some true →
                        success r = true ∧ isPaywalled r = Some true
                        ∧ SUBSTANTIAL_CONTENT_LENGTH ≤ strlen (markdown r))) rs
  | inr e =>
      (e = missingKeyError ∧ urls ≠ [])
      ∨ e = noUrlsError (length urls)
  end.
Proof.
  unfold scrapeUrls.
  destruct (scrapeAll env urls w) as [[all|e] w1] eqn:Hall; simpl.
  - pose proof (scrapeAll_length _ _ _ _ Hall) as Hlen.
    apply scrapeAll_fromService in Hall as [Hurls Hall].
    assert (∀ r, r ∈ all → url r ∈ urls) as Hin.
    { intros r Hr. rewrite <- Hurls. by apply list_elem_of_fmap_2. }
    rewrite Forall_forall in Hall.
    destruct (filter _ all) as [|r0 ok] eqn:Hok.
    + destruct (filter _ (filter _ all)) as [|r1 sub] eqn:Hsub; cbn [fst].
      * right. by rewrite Hlen.
      * split.
        -- eexists. split; [apply list_elem_of_here|done].
        -- rewrite <- Hsub. apply List.Forall_map, Forall_forall.
           intros r Hr. apply list_elem_of_filter in Hr as [Hbig Hr].
           apply list_elem_of_filter in Hr as [Hpay Hr]. simpl.
           apply andb_true_iff in Hbig as [Hbig _].
           split; [by apply Hin|]. split; [by left|]. intros _.
           repeat split. lia.
    + cbn [fst]. split.
      * exists r0. split; [apply list_elem_of_here|].
        assert (r0 ∈ filter (λ r, success r && (0 <? strlen (markdown r)) = true) all)
          as Hr0 by (rewrite Hok; apply list_elem_of_here).
        apply list_elem_of_filter in Hr0 as [Hs _].
        by apply andb_true_iff in Hs as [Hs _].
      * rewrite <- Hok. apply Forall_forall. intros r Hr.
        apply elem_of_app in Hr as [Hr|Hr];
          apply list_elem_of_filter in Hr as [Hp Hr].
        -- apply andb_true_iff in Hp as [Hs _].
           split; [by apply Hin|]. split; [by left|].
           destruct (Hall r Hr) as (-> & _). done.
        -- split; [by apply Hin|]. split; [by right|].
           destruct (Hall r Hr) as (-> & _). done.
  - left. split; [by eapply scrapeAll_thrown|]. by intros ->.
Qed.

(** What [scrapeUrls] returns unflagged comes from the service as it
    was. *)
Definition unwalled (r : ScrapedContent) : Prop :=
  truthy (isPaywalled r) = false →
  fallbackUsed r = None ∧ _paywalledUrls r = None.

Lemma scrapeUrls_unwalled urls w rs w' :
  scrapeUrls env urls w = (inl rs, w') → Forall unwalled rs.
Proof.
  unfold scrapeUrls.
  destruct (scrapeAll env urls w) as [[all|e] w1] eqn:Hall; [|done].
  apply scrapeAll_fromService in Hall as [_ Hall].
  rewrite Forall_forall in Hall.
  destruct (filter _ all) as [|r0 ok] eqn:Hok.
  - destruct (filter _ (filter _ all)) as [|r1 sub] eqn:Hsub; [done|].
    intros [= <- _]. constructor; [by intros ?|].
    apply List.Forall_map, Forall_forall. by intros r _ Hr.
  - intros [= <- _]. rewrite app_comm_cons, <- Hok.
    apply Forall_forall. intros r Hr _.
    assert (r ∈ all) as Hin.
    { apply elem_of_app in Hr as [Hr|Hr];
        by apply list_elem_of_filter in Hr as [_ Hr]. }
    by destruct (Hall r Hin) as (-> & -> & _).
Qed.

Lemma scrapeUrls_thrown urls w e w' :
  scrapeUrls env urls w = (inr e, w') →
  e = missingKeyError ∨ e = noUrlsError (length urls).
Proof.
  unfold scrapeUrls.
  destruct (scrapeAll env urls w) as [[all|e'] w1] eqn:Hall.
  - pose proof (scrapeAll_length _ _ _ _ Hall) as <-.
    destruct (filter _ all); [|done].
    destruct (filter _ (filter _ all)); [|done].
    intros [= <- _]. by right.
  - intros [= <- _]. left. by eapply scrapeAll_thrown.
Qed.

(** What [recursiveCrawl] keeps of a page. *)
Definition kept (r : ScrapedContent) : Prop :=
  success r = true ∧ truthy (isPaywalled r) = false
  ∧ markdown r ≠ "" ∧ fallbackUsed r = None ∧ _paywalledUrls r = None.

Lemma strlen_nonempty n s : 0 ≤ n → (n <? strlen s) = true → s ≠ "".
Proof. intros Hn Hs ->. apply Z.ltb_lt in Hs. unfold strlen in Hs. simpl in Hs. lia. Qed.

Lemma visit_kept st c :
  unwalled c → Forall kept (results st) → Forall kept (results (visit st c)).
Proof.
  intros Hc Hst. unfold visit.
  destruct (truthy (isPaywalled c)) eqn:Hpay; [done|].
  destruct (success c && _) eqn:Hs; [|done]. simpl.
  apply andb_true_iff in Hs as [Hs Hlen].
  apply Forall_app. split; [done|]. constructor; [|done].
  destruct (Hc Hpay) as [Hf Hp].
  repeat split; try done. by apply (strlen_nonempty 0).
Qed.

Lemma collectAdditional_kept st c :
  unwalled c → Forall kept (results st) →
  Forall kept (results (collectAdditional st c)).
Proof.
  intros Hc Hst. unfold collectAdditional.
  destruct (truthy (isPaywalled c)) eqn:Hpay; [done|].
  destruct (success c && _) eqn:Hs; [|done]. simpl.
  apply andb_true_iff in Hs as [Hs Hlen].
  apply Forall_app. split; [done|]. constructor; [|done].
  destruct (Hc Hpay) as [Hf Hp].
  repeat split; try done. by apply (strlen_nonempty 100).
Qed.

Lemma foldl_kept (step : CrawlState → ScrapedContent → CrawlState) cs st :
  (∀ st c, unwalled c → Forall kept (results st) →
           Forall kept (results (step st c))) →
  Forall unwalled cs → Forall kept (results st) →
  Forall kept (results (foldl step st cs)).
Proof.
  intros Hstep Hcs. revert st.
  induction Hcs as [|c cs Hc Hcs IH]; intros st Hst; simpl; [done|].
  apply IH. by apply Hstep.
Qed.

Definition usable (r : ScrapedContent) : Prop :=
  success r = true ∧ truthy (isPaywalled r) = false
  ∧ markdown r ≠ "" ∧ fallbackUsed r = None.

Lemma attachPaywalled_usable st :
  Forall kept (results st) → Forall usable (attachPaywalled st).
Proof.
  intros Hst.
  assert (Forall usable (results st)) as Hus.
  { eapply Forall_impl; [done|]. by intros r (? & ? & ? & ? & _). }
  unfold attachPaywalled. destruct (paywalledUrls st); [done|].
  destruct (results st) as [|first rest]; [done|].
  apply Forall_cons in Hus as [Hfirst Hrest]. by constructor.
Qed.



Lemma length_slice_prefix {A} (l : list A) n :
  0 ≤ n → length (Js.slice l 0 n) = Z.to_nat (Z.min n (Z.of_nat (length l))).
Proof.
  intros Hn. unfold Js.slice, Js.clampIndex.
  destruct (Z.ltb_spec 0 0); [lia|]. destruct (Z.ltb_spec n 0); [lia|].
  rewrite length_take, length_drop. lia.
Qed.

(** X2. Every document [recursiveCrawl] returns has [success] set, is
    not flagged as paywalled, has content and does not carry
    [fallbackUsed]: the paywalled pages that [scrapeUrls] falls back on
    when nothing else was scraped never reach the result of a crawl.
    The crawl only throws what the scrape of phase 1 throws: the error
    of the missing API key, or the error that none of the seeds of the
    first batch (at most five) could be scraped. *)
Theorem recursiveCrawl_results_usable initialUrls topic w :
  match (recursiveCrawl env initialUrls topic w).1 with
  | inl rs => Forall usable rs
  | inr e =>
      e = missingKeyError
      ∨ e = noUrlsError (Z.to_nat (Z.min (Z.of_nat (length initialUrls)) 5))
  end.
Proof.
  unfold recursiveCrawl, phase1.
  destruct (scrapeUrls env _ w) as [[initialResults|e] w1] eqn:Hone; simpl.
  - apply scrapeUrls_unwalled in Hone.
    set (st1 := foldl visit _ initialResults).
    assert (Forall kept (results st1)) as Hst1.
    { apply foldl_kept; [apply visit_kept|done|by constructor]. }
    unfold phase2. destruct (additionalUrls st1) as [|u urls]; simpl.
    { by apply attachPaywalled_usable. }
    destruct (scrapeUrls env (u :: urls) w1) as [[more|e] w2] eqn:Htwo; simpl.
    + apply attachPaywalled_usable, foldl_kept;
        [apply collectAdditional_kept|by eapply scrapeUrls_unwalled|done].
    + by apply attachPaywalled_usable.
  - apply scrapeUrls_thrown in Hone as [->| ->]; [by left|right].
    f_equal. rewrite length_slice_prefix by lia. lia.
Qed.

(** *** Where the queued URLs come from *)

Lemma prefix_single c a s :
  String.prefix (String c "") (String a s) = Ascii.eqb c a.
Proof.
  simpl. destruct (ascii_dec c a) as [->|Hne].
  - rewrite Ascii.eqb_refl. by destruct s.
  - symmetry. by apply Ascii.eqb_neq.
Qed.

Lemma includes_lower_single c s :
  (∀ a, Ascii.eqb c (Js.lowerChar a) = Ascii.eqb c a) →
  Js.includes (Js.toLowerCase s) (String c "") = Js.includes s (String c "").
Proof.
  intros Hc. induction s as [|a s IH]; [done|].
  cbn [Js.toLowerCase Js.includes]. by rewrite !prefix_single, Hc, IH.
Qed.

Lemma lowerChar_query a : Ascii.eqb "?" (Js.lowerChar a) = Ascii.eqb "?" a.
Proof. by destruct a as [[] [] [] [] [] [] [] []]. Qed.

Lemma lowerChar_hash a : Ascii.eqb "#" (Js.lowerChar a) = Ascii.eqb "#" a.
Proof. by destruct a as [[] [] [] [] [] [] [] []]. Qed.

Lemma isValuableLink_plain u :
  isValuableLink u = true →
  Js.includes u "?" = false ∧ Js.includes u "#" = false.
Proof.
  unfold isValuableLink. destruct (isExcludedUrl u) eqn:Hex; [done|]. intros _.
  unfold isExcludedUrl in Hex. apply orb_false_iff in Hex as [_ Hex].
  rewrite <- (includes_lower_single "?" u lowerChar_query),
          <- (includes_lower_single "#" u lowerChar_hash).
  unfold EXCLUDED_PATTERNS in Hex. cbn [existsb] in Hex.
  repeat (apply orb_false_iff in Hex as [? Hex]). done.
Qed.

(** [u] was found on the page [page] with content [md]: it is one of
    its links, on the same host and classified as valuable, or one of
    the common documentation paths under its origin. *)
Definition discoveredFrom (page md u : string) : Prop :=
  (u ∈ extractLinks md page ∧ isSameDomain u page = true
   ∧ isValuableLink u = true
   ∧ Js.includes u "?" = false ∧ Js.includes u "#" = false)
  ∨ u ∈ generateCommonDocPaths page.

Definition reached (seeds : list string) (pages : list ScrapedContent)
    (u : string) : Prop :=
  u ∈ seeds
  ∨ ∃ page, page ∈ pages ∧ discoveredFrom (url page) (markdown page) u.

Lemma reached_mono seeds pages pages' u :
  pages ⊆ pages' → reached seeds pages u → reached seeds pages' u.
Proof.
  intros Hsub [Hu|(page & Hpage & Hd)]; [by left|right].
  exists page. split; [by apply Hsub|done].
Qed.

Lemma elem_of_setAdd x y s : x ∈ setAdd y s → x ∈ s ∨ x = y.
Proof.
  unfold setAdd. destruct (bool_decide (y ∈ s)); [by left|].
  intros Hx. apply elem_of_app in Hx as [Hx|Hx]; [by left|right].
  by apply list_elem_of_singleton in Hx.
Qed.

Lemma elem_of_foldl_setAdd x links all :
  x ∈ foldl (λ all link, setAdd link all) all links → x ∈ all ∨ x ∈ links.
Proof.
  revert all. induction links as [|y links IH]; intros all; simpl; [by left|].
  intros Hx. apply IH in Hx as [Hx|Hx].
  - apply elem_of_setAdd in Hx as [Hx| ->]; [by left|right; apply list_elem_of_here].
  - right. by apply list_elem_of_further.
Qed.

Lemma elem_of_addCommonPaths x crawled paths all :
  x ∈ addCommonPaths crawled paths all → x ∈ all ∨ x ∈ paths.
Proof.
  unfold addCommonPaths. revert all.
  induction paths as [|y paths IH]; intros all; simpl; [by left|].
  intros Hx. apply IH in Hx as [Hx|Hx].
  - destruct (_ && _); [|by left].
    apply elem_of_setAdd in Hx as [Hx| ->]; [by left|right; apply list_elem_of_here].
  - right. by apply list_elem_of_further.
Qed.

Lemma elem_of_slice {A} (x : A) l a b : x ∈ Js.slice l a b → x ∈ l.
Proof.
  unfold Js.slice. intros Hx. by apply subseteq_take, subseteq_drop in Hx.
Qed.

Lemma visit_reached seeds st c :
  (∀ u, u ∈ allUrls st → reached seeds (results st) u) →
  ∀ u, u ∈ allUrls (visit st c) → reached seeds (results (visit st c)) u.
Proof.
  intros Hst u. unfold visit.
  destruct (truthy (isPaywalled c)); [apply Hst|].
  destruct (success c && _); [|apply Hst]. cbn [allUrls results].
  set (valuableLinks := filter _ (extractLinks _ _)).
  set (all1 := foldl _ _ _).
  assert (u ∈ all1 → reached seeds (results st ++ [c]) u) as Hall1.
  { intros Hu. apply elem_of_foldl_setAdd in Hu as [Hu|Hu].
    - eapply reached_mono; [|by apply Hst]. by apply list_subseteq_app_l.
    - apply elem_of_slice, list_elem_of_filter in Hu as [Hp Hu].
      repeat (apply andb_true_iff in Hp as [Hp ?]).
      right. exists c. split; [apply elem_of_app; right; apply list_elem_of_here|]. left.
      destruct (isValuableLink_plain u) as [? ?]; done. }
  destruct (_ <? 3); [|done]. intros Hu.
  apply elem_of_addCommonPaths in Hu as [Hu|Hu]; [by apply Hall1|].
  right. exists c. split; [apply elem_of_app; right; apply list_elem_of_here|]. by right.
Qed.

Lemma foldl_visit_reached seeds cs st :
  (∀ u, u ∈ allUrls st → reached seeds (results st) u) →
  ∀ u, u ∈ allUrls (foldl visit st cs) →
       reached seeds (results (foldl visit st cs)) u.
Proof.
  revert st. induction cs as [|c cs IH]; intros st Hst; simpl; [done|].
  apply IH. by apply visit_reached.
Qed.

Lemma elem_of_dedupe x seen l : x ∈ Js.dedupe seen l → x ∈ l ∧ x ∉ seen.
Proof.
  revert seen. induction l as [|y l IH]; intros seen; simpl.
  - by intros ?%elem_of_nil.
  - destruct (bool_decide_reflect (y ∈ seen)) as [Hy|Hy].
    + intros [Hx Hs]%IH. split; [by apply list_elem_of_further|done].
    + intros [->|Hx]%elem_of_cons; [split; [apply list_elem_of_here|done]|].
      apply IH in Hx as [Hx Hs]. split; [by apply list_elem_of_further|].
      by apply not_elem_of_cons in Hs as [_ Hs].
Qed.

Lemma results_collectAdditional st cs :
  results st ⊆ results (foldl collectAdditional st cs).
Proof.
  revert st. induction cs as [|c cs IH]; intros st; simpl; [done|].
  etrans; [|apply IH]. unfold collectAdditional.
  destruct (truthy _); [done|]. destruct (_ && _); [|done].
  simpl. by apply list_subseteq_app_l.
Qed.

Lemma attachPaywalled_pages st page :
  page ∈ results st →
  ∃ page', page' ∈ attachPaywalled st
           ∧ url page' = url page ∧ markdown page' = markdown page.
Proof.
  unfold attachPaywalled. destruct (paywalledUrls st); [by exists page|].
  destruct (results st) as [|first rest]; [by exists page|].
  intros [->|Hp]%elem_of_cons.
  - eexists. split; [apply list_elem_of_here|done].
  - exists page. split; [by apply list_elem_of_further|done].
Qed.

Lemma phase1_key initialUrls w st w1 :
  phase1 env initialUrls w = (inl st, w1) →
  Js.falsy (HYPERBROWSER_API_KEY env) = false.
Proof.
  unfold phase1. destruct (scrapeUrls env _ w) as [[rs|e] w'] eqn:Hrs; [|done].
  intros _. unfold scrapeUrls in Hrs.
  destruct (Js.falsy (HYPERBROWSER_API_KEY env)) eqn:Hkey; [|done].
  destruct (Js.slice _ _ _) as [|u urls]; simpl in Hrs; [done|].
  unfold scrapeUrl in Hrs. by rewrite Hkey in Hrs.
Qed.

(** X3. Every URL a crawl hands to the fetcher is a seed, or was
    found on a page that the crawl returns: as a link of that page, on
    the same host as the page, classified as valuable, without a query
    string or a fragment, or as one of the common documentation paths
    under the origin of the page. *)
Theorem crawl_stays_in_scope initialUrls topic w rs w' :
  recursiveCrawl env initialUrls topic w = (inl rs, w') →
  ∀ u, u ∈ fetched w' →
    u ∈ fetched w ∨ u ∈ initialUrls
    ∨ ∃ page, page ∈ rs ∧ discoveredFrom (url page) (markdown page) u.
Proof.
  intros Hrun u Hu.
  destruct (phase1 env initialUrls w) as [[st1|e] w1] eqn:Hone;
    [|by unfold recursiveCrawl in Hrun; rewrite Hone in Hrun].
  pose proof (phase1_key _ _ _ _ Hone) as Hkey.
  destruct (CrawlerProofs.recursiveCrawl_fetched env initialUrls topic w st1 w1
              Hkey Hone) as (rs' & w2 & Hrun' & Hfetched).
  rewrite Hrun in Hrun'. injection Hrun' as <- <-.
  rewrite Hfetched in Hu.
  apply elem_of_app in Hu as [Hu|Hu]; [by left|right].
  apply elem_of_app in Hu as [Hu|Hu]; [left; by eapply elem_of_slice|].
  unfold additionalUrls in Hu. apply list_elem_of_filter in Hu as [_ Hu].
  assert (reached initialUrls (results st1) u) as [Hseed|(page & Hpage & Hd)].
  { unfold phase1 in Hone.
    destruct (scrapeUrls env _ w) as [[initialResults|e] w0]; [|done].
    injection Hone as <- <-. apply foldl_visit_reached; [|done].
    intros v Hv. left. by apply elem_of_dedupe in Hv as [Hv _]. }
  - by left.
  - right. unfold recursiveCrawl in Hrun. rewrite Hone in Hrun.
    destruct (phase2 env st1 w1) as [st2 w2] eqn:Htwo.
    injection Hrun as <- <-.
    assert (page ∈ results st2) as Hpage2.
    { unfold phase2 in Htwo. destruct (additionalUrls st1); [by injection Htwo as <- _|].
      destruct (scrapeUrls env _ w1) as [[more|e] w3]; injection Htwo as <- _;
        [by apply results_collectAdditional|done]. }
    destruct (attachPaywalled_pages st2 page Hpage2) as (page' & Hin & Hurl & Hmd).
    exists page'. split; [done|]. by rewrite Hurl, Hmd.
Qed.

(** *** How large the queue grows *)

Lemma length_setAdd x s : (length (setAdd x s) ≤ S (length s))%nat.
Proof.
  unfold setAdd. destruct (bool_decide _); [lia|]. rewrite length_app. simpl. lia.
Qed.

Lemma length_foldl_setAdd links all :
  (length (foldl (λ all link, setAdd link all) all links)
   ≤ length all + length links)%nat.
Proof.
  revert all. induction links as [|y links IH]; intros all; simpl; [lia|].
  etrans; [apply IH|]. pose proof (length_setAdd y all). lia.
Qed.

Lemma length_addCommonPaths crawled paths all :
  Z.of_nat (length (addCommonPaths crawled paths all))
  ≤ Z.max (Z.of_nat (length all)) MAX_TOTAL_URLS.
Proof.
  unfold addCommonPaths. revert all.
  induction paths as [|y paths IH]; intros all; simpl; [lia|].
  etrans; [apply IH|].
  destruct (negb _ && negb _) ; simpl; [|lia].
  destruct (Z.ltb_spec (Z.of_nat (length all)) MAX_TOTAL_URLS); [|lia].
  pose proof (length_setAdd y all). lia.
Qed.

Lemma length_slice_le {A} (l : list A) n :
  0 ≤ n → Z.of_nat (length (Js.slice l 0 n)) ≤ n.
Proof. intros Hn. rewrite length_slice_prefix by done. lia. Qed.

Lemma visit_length st c :
  Z.max (Z.of_nat (length (allUrls (visit st c)))) MAX_TOTAL_URLS
  ≤ Z.max (Z.of_nat (length (allUrls st))) MAX_TOTAL_URLS + MAX_PAGES_PER_URL.
Proof.
  unfold visit. destruct (truthy _); [unfold MAX_PAGES_PER_URL; simpl; lia|].
  destruct (success c && _); [|unfold MAX_PAGES_PER_URL; simpl; lia].
  cbn [allUrls].
  set (valuableLinks := filter _ (extractLinks _ _)).
  pose proof (length_foldl_setAdd (Js.slice valuableLinks 0 MAX_PAGES_PER_URL)
                (allUrls st)) as Hadd.
  pose proof (length_slice_le valuableLinks MAX_PAGES_PER_URL) as Hcap.
  destruct (_ <? 3).
  - pose proof (length_addCommonPaths ({[url c]} ∪ crawledUrls st)
                  (generateCommonDocPaths (url c))
                  (foldl (λ all link, setAdd link all) (allUrls st)
                     (Js.slice valuableLinks 0 MAX_PAGES_PER_URL))).
    unfold MAX_PAGES_PER_URL in *. lia.
  - unfold MAX_PAGES_PER_URL in *. lia.
Qed.

Lemma foldl_visit_length cs st :
  Z.max (Z.of_nat (length (allUrls (foldl visit st cs)))) MAX_TOTAL_URLS
  ≤ Z.max (Z.of_nat (length (allUrls st))) MAX_TOTAL_URLS
    + MAX_PAGES_PER_URL * Z.of_nat (length cs).
Proof.
  revert st. induction cs as [|c cs IH]; intros st; simpl length; simpl foldl.
  - lia.
  - etrans; [apply IH|]. pose proof (visit_length st c).
    unfold MAX_PAGES_PER_URL in *. lia.
Qed.

Lemma length_dedupe seen l : (length (Js.dedupe seen l) ≤ length l)%nat.
Proof.
  revert seen. induction l as [|x l IH]; intros seen; simpl; [lia|].
  destruct (bool_decide _); simpl.
  - etrans; [apply IH|]. lia.
  - pose proof (IH (x :: seen)). lia.
Qed.

(** X4. The ceilings the code does keep.  When phase 1 returns, the
    queue [allUrls] holds at most 40 URLs more than the larger of 25
    and the number of seeds (five pages are visited, each adds at most
    eight links, and the common paths are only added below 25), and
    the crawl hands at most five URLs more than that to the fetcher. *)
Theorem crawl_queue_bound initialUrls topic w st w1 :
  phase1 env initialUrls w = (inl st, w1) →
  Z.of_nat (length (allUrls st))
  ≤ Z.max (Z.of_nat (length initialUrls)) MAX_TOTAL_URLS + 5 * MAX_PAGES_PER_URL
  ∧ ∃ rs w2,
      recursiveCrawl env initialUrls topic w = (inl rs, w2)
      ∧ Z.of_nat (length (fetched w2))
        ≤ Z.of_nat (length (fetched w)) + 5
          + Z.max (Z.of_nat (length initialUrls)) MAX_TOTAL_URLS
          + 5 * MAX_PAGES_PER_URL.
Proof.
  intros Hone. pose proof (phase1_key _ _ _ _ Hone) as Hkey.
  assert (Z.of_nat (length (allUrls st))
          ≤ Z.max (Z.of_nat (length initialUrls)) MAX_TOTAL_URLS
            + 5 * MAX_PAGES_PER_URL) as Hqueue.
  { pose proof Hone as Hone'. unfold phase1 in Hone'.
    destruct (scrapeUrls env _ w) as [[initialResults|e] w0] eqn:Hrs; [|done].
    injection Hone' as <- _.
    apply scrapeUrls_length in Hrs.
    pose proof (length_slice_le initialUrls
                  (Z.min (Z.of_nat (length initialUrls)) 5)) as Hbatch.
    match goal with
    | |- Z.of_nat (length (allUrls (foldl visit ?st0 _))) ≤ _ =>
        pose proof (foldl_visit_length initialResults st0) as Hlen
    end.
    cbn [allUrls] in Hlen.
    pose proof (length_dedupe [] initialUrls).
    unfold MAX_PAGES_PER_URL in *. lia. }
  split; [done|].
  destruct (CrawlerProofs.recursiveCrawl_fetched env initialUrls topic w st w1
              Hkey Hone) as (rs & w2 & Hrun & Hfetched).
  exists rs, w2. split; [done|]. rewrite Hfetched, !length_app.
  pose proof (length_slice_le initialUrls
                (Z.min (Z.of_nat (length initialUrls)) 5)) as Hbatch.
  assert (length (additionalUrls st) ≤ length (allUrls st))%nat
    by apply length_filter.
  lia.
Qed.

(** *** What [extractLinks] returns *)

Lemma dedupe_NoDup seen l : NoDup (Js.dedupe seen l).
Proof.
  revert seen. induction l as [|x l IH]; intros seen; simpl; [constructor|].
  destruct (bool_decide (x ∈ seen)); [apply IH|].
  constructor; [|apply IH]. intros Hx. apply elem_of_dedupe in Hx as [_ Hx].
  apply Hx, list_elem_of_here.
Qed.

Lemma absolute_http baseUrl u v :
  absolute baseUrl u = Some v →
  Js.startsWith v "http://" || Js.startsWith v "https://" = true.
Proof.
  unfold absolute.
  destruct (if Js.startsWith u "/" && negb (Js.startsWith u "//")
            then match newURL baseUrl with
                 | Some base => Some (origin base +:+ u)
                 | None => None
                 end
            else Some u) as [u'|]; [|done].
  destruct (Js.startsWith u' "http://" || Js.startsWith u' "https://") eqn:Hp;
    [|done].
  by intros [= <-].
Qed.

Lemma absolute_origin baseUrl u v :
  absolute baseUrl u = Some v →
  v = u
  ∨ ∃ base, newURL baseUrl = Some base ∧ v = origin base +:+ u
            ∧ Js.startsWith u "/" = true ∧ Js.startsWith u "//" = false.
Proof.
  unfold absolute. destruct (_ && _) eqn:Hslash.
  - destruct (newURL baseUrl) as [base|]; [|done].
    destruct (_ || _); [|done]. intros [= <-]. right. exists base.
    apply andb_true_iff in Hslash as [Hone Htwo].
    apply negb_true_iff in Htwo. done.
  - destruct (_ || _); [|done]. intros [= <-]. by left.
Qed.

(** X5. [extractLinks] returns no link twice, and only links that
    start with [http://] or [https://]; each is the trimmed target of a
    markdown link or of an [href] attribute of the page, as written or,
    for a target that starts with one slash (and not with two), under
    the origin of the page. *)
Theorem extractLinks_absolute markdown baseUrl :
  NoDup (extractLinks markdown baseUrl)
  ∧ Forall (λ u,
      Js.startsWith u "http://" || Js.startsWith u "https://" = true
      ∧ ∃ m, m ∈ matches mdLinkAt markdown 0 ++ matches hrefAt markdown 0
             ∧ (u = Js.trim m
                ∨ ∃ base, newURL baseUrl = Some base
                          ∧ u = origin base +:+ Js.trim m
                          ∧ Js.startsWith (Js.trim m) "/" = true
                          ∧ Js.startsWith (Js.trim m) "//" = false))
      (extractLinks markdown baseUrl).
Proof.
  unfold extractLinks. split; [apply dedupe_NoDup|].
  apply Forall_forall. intros u Hu. apply elem_of_dedupe in Hu as [Hu _].
  apply elem_of_app in Hu as [Hu|Hu];
    apply list_elem_of_omap in Hu as (m & Hin & Hm).
  - destruct (String.eqb _ ""); [done|]. split; [by eapply absolute_http|].
    exists m. split; [by apply elem_of_app; left|by apply absolute_origin].
  - destruct (_ || _); [done|]. split; [by eapply absolute_http|].
    exists m. split; [by apply elem_of_app; right|by apply absolute_origin].
Qed.

(** *** The paywall score *)

Lemma countMatches_nonneg p s k : 0 ≤ countMatches p s k.
Proof.
  revert k. induction s as [|c s IH]; intros k; cbn [countMatches]; [done|].
  destruct k as [|k]; [|apply IH].
  destruct (String.prefix p (String c s)); [|apply IH].
  pose proof (IH (String.length p - 1)%nat). lia.
Qed.

Lemma countMatches_absent p s k : Js.includes s p = false → countMatches p s k = 0.
Proof.
  revert k. induction s as [|c s IH]; intros k; [done|].
  cbn [Js.includes countMatches]. intros [Hp Hs]%orb_false_iff.
  destruct k as [|k]; [|by apply IH]. rewrite Hp. by apply IH.
Qed.

Lemma countMatches_present p s :
  p ≠ "" → Js.includes s p = true → 0 < countMatches p s 0.
Proof.
  intros Hp. induction s as [|c s IH].
  - simpl. by destruct p.
  - cbn [Js.includes countMatches]. destruct (String.prefix p (String c s)).
    + intros _. pose proof (countMatches_nonneg p s (String.length p - 1)). lia.
    + simpl. apply IH.
Qed.

Definition allKeywords : list string :=
  PAYWALL_KEYWORDS_high ++ PAYWALL_KEYWORDS_medium ++ PAYWALL_KEYWORDS_low.

Lemma keywords_lower :
  Forall (λ k, Js.toLowerCase k = k ∧ k ≠ "") allKeywords.
Proof.
  unfold allKeywords. simpl.
  repeat first [apply Forall_nil_2 | apply Forall_cons_2; [by split|]].
Qed.

Lemma occurrences_absent s k :
  k ∈ allKeywords → Js.includes s k = false → occurrences s k = 0.
Proof.
  intros Hk Hs. unfold occurrences.
  pose proof keywords_lower as Hl. rewrite Forall_forall in Hl.
  destruct (Hl k Hk) as [-> _]. by apply countMatches_absent.
Qed.

Lemma occurrences_present s k :
  k ∈ allKeywords → Js.includes s k = true → 0 < occurrences s k.
Proof.
  intros Hk Hs. unfold occurrences.
  pose proof keywords_lower as Hl. rewrite Forall_forall in Hl.
  destruct (Hl k Hk) as [-> Hne]. by apply countMatches_present.
Qed.

Lemma sumZ_nonneg {A} (f : A → Z) l : (∀ x, 0 ≤ f x) → 0 ≤ sumZ (map f l).
Proof.
  intros Hf. induction l as [|x l IH]; simpl; [done|]. pose proof (Hf x). lia.
Qed.

Lemma sumZ_zero {A} (f : A → Z) l : (∀ x, x ∈ l → f x = 0) → sumZ (map f l) = 0.
Proof.
  induction l as [|x l IH]; intros Hf; simpl; [done|].
  rewrite Hf by apply list_elem_of_here. rewrite IH; [done|].
  intros y Hy. by apply Hf, list_elem_of_further.
Qed.

Lemma sumZ_member {A} (f : A → Z) l x :
  (∀ y, 0 ≤ f y) → x ∈ l → f x ≤ sumZ (map f l).
Proof.
  intros Hf. induction l as [|y l IH]; [by intros ?%elem_of_nil|].
  simpl. intros [->|Hx]%elem_of_cons.
  - pose proof (sumZ_nonneg f l Hf). lia.
  - pose proof (Hf y). apply IH in Hx. lia.
Qed.

(** X6. The paywall score lies between 0 and 100.  A page that has
    none of the thirteen keywords, in any case, scores below the
    threshold of 50, whatever its length; a page of fewer than 300
    characters that has one of the high or medium confidence keywords
    scores at or above it. *)
Theorem paywall_score_range content url :
  0 ≤ calculatePaywallScore content url ≤ 100
  ∧ ((∀ k, k ∈ allKeywords → Js.includes (Js.toLowerCase content) k = false) →
     calculatePaywallScore content url < PAYWALL_THRESHOLD)
  ∧ (strlen content < MIN_CONTENT_LENGTH →
     (∃ k, k ∈ PAYWALL_KEYWORDS_high ++ PAYWALL_KEYWORDS_medium
           ∧ Js.includes (Js.toLowerCase content) k = true) →
     PAYWALL_THRESHOLD ≤ calculatePaywallScore content url).
Proof.
  unfold calculatePaywallScore.
  set (lower := Js.toLowerCase content).
  set (high := λ keyword, let n := occurrences lower keyword in
                          if 0 <? n then 30 * Z.min n 2 else 0).
  set (medium := λ keyword, let n := occurrences lower keyword in
                            if 0 <? n then 15 * Z.min n 2 else 0).
  set (low := λ keyword, if 2 <=? occurrences lower keyword then 10 else 0).
  set (score0 := if strlen content <? MIN_CONTENT_LENGTH then 40
                 else if strlen content <? SUBSTANTIAL_CONTENT_LENGTH then 15
                 else 0).
  set (score4 := if 200 <? strlen content then _ else 0).
  assert (∀ k, 0 ≤ occurrences lower k) as Hocc
    by (intros k; apply countMatches_nonneg).
  assert (∀ k, 0 ≤ high k) as Hhigh.
  { intros k. unfold high. simpl. pose proof (Hocc k). destruct (0 <? _); lia. }
  assert (∀ k, 0 ≤ medium k) as Hmedium.
  { intros k. unfold medium. simpl. pose proof (Hocc k). destruct (0 <? _); lia. }
  assert (∀ k, 0 ≤ low k) as Hlow.
  { intros k. unfold low. destruct (2 <=? _); lia. }
  assert (0 ≤ score0 ≤ 40) as H0.
  { unfold score0. repeat destruct (_ <? _); lia. }
  assert (0 ≤ score4) as H4.
  { unfold score4. repeat case_match; lia. }
  pose proof (sumZ_nonneg high PAYWALL_KEYWORDS_high Hhigh).
  pose proof (sumZ_nonneg medium PAYWALL_KEYWORDS_medium Hmedium).
  pose proof (sumZ_nonneg low PAYWALL_KEYWORDS_low Hlow).
  split; [lia|]. split.
  - intros Hnone.
    assert (∀ k, k ∈ allKeywords → occurrences lower k = 0) as Hzero.
    { intros k Hk. apply occurrences_absent; [done|by apply Hnone]. }
    rewrite (sumZ_zero high), (sumZ_zero medium), (sumZ_zero low).
    + assert (score4 = 0) as ->.
      { unfold score4. destruct (200 <? _); [|done].
        rewrite (sumZ_zero (occurrences lower)) by (intros k Hk; by apply Hzero).
        destruct (Z.ltb_spec (2 * strlen content) (0 * 100)); [|done].
        unfold strlen in *. lia. }
      unfold PAYWALL_THRESHOLD. lia.
    + intros k Hk. unfold low. rewrite Hzero; [done|].
      unfold allKeywords. rewrite !elem_of_app. auto.
    + intros k Hk. unfold medium. simpl. rewrite Hzero; [done|].
      unfold allKeywords. rewrite !elem_of_app. auto.
    + intros k Hk. unfold high. simpl. rewrite Hzero; [done|].
      unfold allKeywords. rewrite !elem_of_app. auto.
  - intros Hshort (k & Hk & Hin).
    assert (score0 = 40) as ->.
    { unfold score0. by destruct (Z.ltb_spec (strlen content) MIN_CONTENT_LENGTH); [|lia]. }
    assert (0 < occurrences lower k) as Hpos.
    { apply occurrences_present; [|done]. unfold allKeywords.
      rewrite !elem_of_app. apply elem_of_app in Hk as [Hk|Hk]; auto. }
    assert (15 ≤ sumZ (map high PAYWALL_KEYWORDS_high)
                 + sumZ (map medium PAYWALL_KEYWORDS_medium)) as Hkw.
    { apply elem_of_app in Hk as [Hk|Hk].
      - pose proof (sumZ_member high _ k Hhigh Hk) as Hsum.
        unfold high at 1 in Hsum. cbv beta zeta in Hsum.
        destruct (Z.ltb_spec 0 (occurrences lower k)); lia.
      - pose proof (sumZ_member medium _ k Hmedium Hk) as Hsum.
        unfold medium at 1 in Hsum. cbv beta zeta in Hsum.
        destruct (Z.ltb_spec 0 (occurrences lower k)); lia. }
    unfold PAYWALL_THRESHOLD. lia.
Qed.

(** *** The paywalled URLs of a crawl *)

Lemma phase1_kept initialUrls w st w1 :
  phase1 env initialUrls w = (inl st, w1) → Forall kept (results st).
Proof.
  unfold phase1.
  destruct (scrapeUrls env _ w) as [[initialResults|e] w0] eqn:Hone; [|done].
  intros [= <- _]. apply foldl_kept; [apply visit_kept| |by constructor].
  by eapply scrapeUrls_unwalled.
Qed.

Lemma phase2_kept st w :
  Forall kept (results st) → Forall kept (results (phase2 env st w).1).
Proof.
  intros Hst. unfold phase2. destruct (additionalUrls st) as [|u urls]; [done|].
  destruct (scrapeUrls env (u :: urls) w) as [[more|e] w2] eqn:Htwo; [|done].
  apply foldl_kept; [apply collectAdditional_kept| |done].
  by eapply scrapeUrls_unwalled.
Qed.

Lemma flat_map_kept (rs : list ScrapedContent) :
  Forall kept rs →
  flat_map (λ result,
              (if truthy (isPaywalled result) then [url result] else [])
              ++ default [] (_paywalledUrls result)) rs = [].
Proof.
  induction 1 as [|r rs (_ & Hp & _ & _ & Hl) _ IH]; [done|].
  simpl. by rewrite Hp, Hl, IH.
Qed.

(** X7. [getPaywalledUrls] applied to what [recursiveCrawl] returns
    gives back the URLs the crawl found paywalled, in the order found
    and without duplicates, when the crawl returns at least one
    document; when it returns none, the paywalled URLs are lost. *)
Theorem paywalled_urls_recovered initialUrls topic w rs w' :
  recursiveCrawl env initialUrls topic w = (inl rs, w') →
  ∃ st1 w1,
    phase1 env initialUrls w = (inl st1, w1)
    ∧ rs = attachPaywalled (phase2 env st1 w1).1
    ∧ getPaywalledUrls rs
      = match rs with
        | [] => []
        | _ :: _ => Js.dedupe [] (paywalledUrls (phase2 env st1 w1).1)
        end.
Proof.
  intros Hrun. unfold recursiveCrawl in Hrun.
  destruct (phase1 env initialUrls w) as [[st1|e] w1] eqn:Hone; [|done].
  exists st1, w1. split; [done|].
  pose proof (phase2_kept st1 w1 (phase1_kept _ _ _ _ Hone)) as Hkept.
  destruct (phase2 env st1 w1) as [st2 w2]. cbn [fst] in *.
  injection Hrun as <- _. split; [done|].
  unfold getPaywalledUrls, attachPaywalled.
  destruct (paywalledUrls st2) as [|p ps].
  - rewrite flat_map_kept by done. by destruct (results st2).
  - destruct (results st2) as [|first rest]; [done|].
    apply Forall_cons in Hkept as [(_ & Hp & _) Hrest].
    cbn [flat_map isPaywalled url _paywalledUrls default]. rewrite Hp.
    by rewrite flat_map_kept, app_nil_r by done.
Qed.

End Crawl.

#[local] Existing Instance PlainUrl.api.

Lemma crawl_stays_in_scope_witness :
  ∃ rs w',
    recursiveCrawl CrawlerProofs.docsEnv [CrawlerProofs.start] "docs" initialWorld
    = (inl rs, w')
    ∧ ∀ u, u ∈ fetched w' →
           u ∈ fetched initialWorld ∨ u ∈ [CrawlerProofs.start]
           ∨ ∃ page, page ∈ rs ∧ discoveredFrom (url page) (markdown page) u.
Proof.
  destruct (recursiveCrawl CrawlerProofs.docsEnv [CrawlerProofs.start] "docs"
              initialWorld) as [[rs|e] w'] eqn:Hrun; [|by vm_compute in Hrun].
  exists rs, w'. split; [done|].
  exact (crawl_stays_in_scope CrawlerProofs.docsEnv [CrawlerProofs.start]
           "docs" initialWorld rs w' Hrun).
Defined.

Lemma crawl_queue_bound_witness :
  ∃ st w1,
    phase1 CrawlerProofs.busyEnv
      [CrawlerProofs.seedA; CrawlerProofs.seedB; CrawlerProofs.seedC] initialWorld
    = (inl st, w1)
    ∧ Z.of_nat (length (allUrls st)) ≤ 65.
Proof.
  destruct (phase1 CrawlerProofs.busyEnv
              [CrawlerProofs.seedA; CrawlerProofs.seedB; CrawlerProofs.seedC]
              initialWorld) as [[st|e] w1] eqn:Hone; [|by vm_compute in Hone].
  exists st, w1. split; [done|].
  by destruct (crawl_queue_bound CrawlerProofs.busyEnv _ "docs" _ _ _ Hone)
    as [Hqueue _].
Defined.

(** A site with an open guide and a page behind a subscription. *)
Definition wallEnv : Env :=
  {| HYPERBROWSER_API_KEY := Some "key";
     now := λ n, Z.of_nat n;
     startAndWait := λ _ u,
       if String.eqb u "https://docs.example.com/guide"
       then Scraped (Some "# Guide")
       else if String.eqb u "https://docs.example.com/pro"
       then Scraped (Some "Subscription required. Access denied.")
       else Failed (Js.ErrorObject false "Error" "Not Found") |}.

Lemma paywalled_urls_recovered_witness :
  ∃ rs w',
    recursiveCrawl wallEnv
      ["https://docs.example.com/guide"; "https://docs.example.com/pro"]
      "docs" initialWorld = (inl rs, w')
    ∧ getPaywalledUrls rs = ["https://docs.example.com/pro"].
Proof.
  destruct (recursiveCrawl wallEnv
              ["https://docs.example.com/guide"; "https://docs.example.com/pro"]
              "docs" initialWorld) as [[rs|e] w'] eqn:Hrun;
    [|by vm_compute in Hrun].
  exists rs, w'. split; [done|].
  destruct (paywalled_urls_recovered wallEnv _ _ _ _ _ Hrun)
    as (st1 & w1 & Hone & Hrs & Hget).
  rewrite Hget. vm_compute in Hone. injection Hone as <- <-.
  vm_compute in Hrs. by rewrite Hrs.
Defined.

End CrawlProperties.

(** ** Strings *)

Module TextFacts.

Import Crawler JsLib.

Lemma string_of_list_app l1 l2 :
  String.string_of_list_ascii (l1 ++ l2)
  = String.string_of_list_ascii l1 +:+ String.string_of_list_ascii l2.
Proof. induction l1 as [|c l1 IH]; simpl; [done|]. by rewrite IH. Qed.

Lemma list_of_string_app a b :
  String.list_ascii_of_string (a +:+ b)
  = String.list_ascii_of_string a ++ String.list_ascii_of_string b.
Proof. induction a as [|c a IH]; simpl; [done|]. by rewrite IH. Qed.

Lemma append_assoc a b c : (a +:+ b) +:+ c = a +:+ (b +:+ c).
Proof.
  induction a as [|x a IH]; [done|].
  change (String x ((a +:+ b) +:+ c) = String x (a +:+ (b +:+ c))). by rewrite IH.
Qed.

Lemma append_nil_r a : a +:+ "" = a.
Proof.
  induction a as [|x a IH]; [done|]. change (String x (a +:+ "") = String x a).
  by rewrite IH.
Qed.

Lemma length_chars s : length (String.list_ascii_of_string s) = String.length s.
Proof. induction s as [|c s IH]; simpl; [done|]. by rewrite IH. Qed.

Lemma length_of_chars l : String.length (String.string_of_list_ascii l) = length l.
Proof. induction l as [|c l IH]; simpl; [done|]. by rewrite IH. Qed.

Lemma length_append a b : String.length (a +:+ b) = (String.length a + String.length b)%nat.
Proof.
  induction a as [|x a IH]; [done|].
  change (S (String.length (a +:+ b)) = S (String.length a + String.length b)).
  by rewrite IH.
Qed.

Lemma length_sliceString s n :
  0 ≤ n → strlen (sliceString s 0 n) = Z.min n (strlen s).
Proof.
  intros Hn. unfold sliceString, strlen.
  rewrite ValidatorProperties.slice_oldest by done.
  rewrite length_of_chars, length_take, length_chars. lia.
Qed.

Lemma prefix_take n s :
  String.prefix
    (String.string_of_list_ascii (take n (String.list_ascii_of_string s))) s = true.
Proof.
  revert n. induction s as [|c s IH]; intros [|n]; simpl; [done..|].
  rewrite IH. by destruct (Ascii.ascii_dec c c).
Qed.

Lemma sliceString_prefix s n : 0 ≤ n → String.prefix (sliceString s 0 n) s = true.
Proof.
  intros Hn. unfold sliceString.
  rewrite ValidatorProperties.slice_oldest by done. apply prefix_take.
Qed.

Lemma sliceString_short s n : 0 ≤ n → strlen s ≤ n → sliceString s 0 n = s.
Proof.
  intros Hn Hs. unfold sliceString.
  rewrite ValidatorProperties.slice_oldest by done.
  rewrite take_ge; [apply String.string_of_list_ascii_of_string|].
  rewrite length_chars. unfold strlen in Hs. lia.
Qed.

(** [slice(n)] removes a prefix of [n] characters, and [slice(0, -n)]
    a suffix. *)
Lemma sliceFrom_append p s : sliceFrom (p +:+ s) (strlen p) = s.
Proof.
  unfold sliceFrom, sliceString, Js.slice, Js.clampIndex, strlen.
  rewrite list_of_string_app, length_app, !length_chars, length_append.
  destruct (Z.ltb_spec (Z.of_nat (String.length p)) 0); [lia|].
  destruct (Z.ltb_spec (Z.of_nat (String.length p + String.length s)) 0); [lia|].
  rewrite Z.min_l, Z.min_l by lia. rewrite Nat2Z.id.
  rewrite drop_app_length' by (symmetry; apply length_chars).
  rewrite take_ge by (rewrite length_chars; lia).
  apply String.string_of_list_ascii_of_string.
Qed.

Lemma sliceString_append s p :
  p ≠ "" → sliceString (s +:+ p) 0 (- strlen p) = s.
Proof.
  intros Hp. unfold sliceString, Js.slice, Js.clampIndex, strlen.
  rewrite list_of_string_app, length_app, !length_chars.
  assert (0 < String.length p)%nat by (destruct p; [done|simpl; lia]).
  destruct (Z.ltb_spec 0 0); [lia|].
  destruct (Z.ltb_spec (- Z.of_nat (String.length p)) 0); [|lia].
  rewrite Z.min_l, Z.max_l by lia. change (Z.to_nat 0) with 0%nat. rewrite drop_0.
  replace (Z.to_nat _) with (String.length s) by lia.
  rewrite take_app_length' by (symmetry; apply length_chars).
  apply String.string_of_list_ascii_of_string.
Qed.

Lemma prefix_append p s : String.prefix p (p +:+ s) = true.
Proof.
  induction p as [|c p IH]; [by destruct s|].
  change (String.prefix (String c p) (String c (p +:+ s)) = true).
  cbn [String.prefix]. rewrite IH. by destruct (Ascii.ascii_dec c c).
Qed.

Lemma substring_all p : String.substring 0 (String.length p) p = p.
Proof. induction p as [|c p IH]; simpl; [done|]. by rewrite IH. Qed.

Lemma substring_append s p :
  String.substring (String.length s) (String.length p) (s +:+ p) = p.
Proof.
  induction s as [|c s IH]; [apply substring_all|].
  change (String.substring (S (String.length s)) (String.length p)
            (String c (s +:+ p)) = p).
  by simpl.
Qed.

Lemma endsWith_append s p : Js.endsWith (s +:+ p) p = true.
Proof.
  unfold Js.endsWith. rewrite length_append.
  replace (String.length s + String.length p - String.length p)%nat
    with (String.length s) by lia.
  rewrite substring_append, String.eqb_refl.
  by destruct (Nat.leb_spec (String.length p) (String.length s + String.length p)); [|lia].
Qed.

Lemma prefix_weaken a b s :
  String.prefix (a +:+ b) s = true → String.prefix a s = true.
Proof.
  revert s. induction a as [|c a IH]; intros s; [by destruct s|].
  change (String.prefix (String c (a +:+ b)) s = true
          → String.prefix (String c a) s = true).
  destruct s as [|x s]; [done|]. cbn [String.prefix].
  destruct (Ascii.ascii_dec c x); [apply IH|done].
Qed.

Lemma prefix_split p s : String.prefix p s = true → s = p +:+ sliceFrom s (strlen p).
Proof.
  intros Hp. assert (∃ x, s = p +:+ x) as [x ->].
  { revert s Hp. induction p as [|c p IH]; intros s Hp; [by exists s|].
    destruct s as [|y s]; [done|]. cbn [String.prefix] in Hp.
    destruct (Ascii.ascii_dec c y) as [->|]; [|done].
    destruct (IH s Hp) as [x ->]. by exists x. }
  by rewrite sliceFrom_append.
Qed.

Lemma prefix_extend p a b :
  String.prefix p a = true → String.prefix p (a +:+ b) = true.
Proof.
  revert a. induction p as [|c p IH]; intros a; [by destruct a, b|].
  destruct a as [|y a]; [done|].
  change (String.prefix (String c p) (String y a) = true
          → String.prefix (String c p) (String y (a +:+ b)) = true).
  cbn [String.prefix]. destruct (Ascii.ascii_dec c y); [apply IH|done].
Qed.

Lemma prefix_scheme p x t :
  String.prefix x t = true → String.prefix (p +:+ x) (p +:+ t) = true.
Proof.
  intros Hx. induction p as [|c p IH]; [done|].
  change (String.prefix (String c (p +:+ x)) (String c (p +:+ t)) = true).
  cbn [String.prefix]. rewrite IH. by destruct (Ascii.ascii_dec c c).
Qed.

Lemma includes_suffix pre t u :
  String.prefix u t = true → Js.includes (pre +:+ t) u = true.
Proof.
  intros Hu. induction pre as [|c pre IH].
  - change ("" +:+ t) with t. destruct t; cbn [Js.includes]; by rewrite Hu.
  - change (String c pre +:+ t) with (String c (pre +:+ t)).
    cbn [Js.includes]. rewrite IH. apply orb_true_r.
Qed.

End TextFacts.

(** ** The topic cache: its files *)

Module TopicCacheProperties.

Import Crawler TopicCache.

Section Files.

Context (md5 : string → string) (env : Env).

Lemma unlinkAll_subseteq names d :
  files (unlinkAll env names d) ⊆ files d.
Proof.
  revert d. induction names as [|name names IH]; intros d; simpl; [done|].
  destruct (fails env (tick d)); [done|].
  etrans; [apply IH|]. simpl. apply delete_subseteq.
Qed.

Lemma unlinkAll_working names d :
  (∀ t, fails env t = false) →
  ∀ k, files (unlinkAll env names d) !! k
       = if bool_decide (k ∈ names) then None else files d !! k.
Proof.
  intros Hio. revert d. induction names as [|name names IH]; intros d k; simpl.
  - done.
  - rewrite Hio, IH. simpl. destruct (decide (k = name)) as [->|Hne].
    + rewrite (bool_decide_eq_true_2 (name ∈ name :: names)) by apply list_elem_of_here.
      rewrite lookup_delete_eq. by case_bool_decide.
    + rewrite lookup_delete_ne by done.
      destruct (decide (k ∈ names)) as [Hin|Hout].
      * rewrite !bool_decide_eq_true_2; [done|by apply list_elem_of_further|done].
      * rewrite !bool_decide_eq_false_2; [done| |done].
        by apply not_elem_of_cons.
Qed.

Lemma unlinkAll_stops names name rest d :
  fails env (tick d + length names)%nat = true →
  (∀ i, (i < length names)%nat → fails env (tick d + i)%nat = false) →
  NoDup (names ++ name :: rest) →
  ∀ k, files (unlinkAll env (names ++ name :: rest) d) !! k
       = if bool_decide (k ∈ names) then None else files d !! k.
Proof.
  revert d. induction names as [|n names IH]; intros d Hfail Hok Hnd k; simpl.
  - simpl in Hfail. rewrite Nat.add_0_r in Hfail. rewrite Hfail. simpl.
    done.
  - specialize (Hok 0%nat) as H0. rewrite Nat.add_0_r in H0.
    rewrite H0 by (simpl; lia).
    rewrite IH; simpl.
    + destruct (decide (k = n)) as [->|Hne].
      * rewrite (bool_decide_eq_true_2 (n ∈ n :: names)) by apply list_elem_of_here.
        rewrite lookup_delete_eq. by case_bool_decide.
      * rewrite lookup_delete_ne by done.
        destruct (decide (k ∈ names)) as [Hin|Hout].
        -- rewrite !bool_decide_eq_true_2; [done|by apply list_elem_of_further|done].
        -- rewrite !bool_decide_eq_false_2; [done| |done].
           by apply not_elem_of_cons.
    + simpl in Hfail. by replace (S (tick d + length names))
        with (tick d + S (length names))%nat by lia.
    + intros i Hi. replace (S (tick d + i)) with (tick d + S i)%nat by lia.
      apply Hok. simpl. lia.
    + by apply NoDup_cons in Hnd as [_ ?].
Qed.

(** X16. [clearCache] only removes files: what is left is a part of
    what was there.  When reading the directory throws, nothing is
    removed.  While the file system works the directory ends up empty,
    so that no topic is found afterwards.  When the removal of a file
    throws, the files listed before it are gone and every other file is
    still there. *)
Theorem clearCache_removes d :
  files (clearCache env d) ⊆ files d
  ∧ (fails env (tick d) = true → files (clearCache env d) = files d)
  ∧ ((∀ t, fails env t = false) →
     files (clearCache env d) = ∅
     ∧ ∀ topic, (getCachedContent md5 env topic (clearCache env d)).1 = None)
  ∧ (∀ done name rest,
       map fst (map_to_list (files d)) = done ++ name :: rest →
       (∀ i, (i ≤ length done)%nat → fails env (tick d + i)%nat = false) →
       fails env (tick d + S (length done))%nat = true →
       ∀ k, files (clearCache env d) !! k
            = if bool_decide (k ∈ done) then None else files d !! k).
Proof.
  split; [|split; [|split]].
  - unfold clearCache. destruct (fails env (tick d)); [done|].
    apply (unlinkAll_subseteq _ (advance 1 d)).
  - intros Hfail. unfold clearCache. by rewrite Hfail.
  - intros Hio.
    assert (files (clearCache env d) = ∅) as Hempty.
    { apply map_empty. intros k. unfold clearCache. rewrite Hio.
      rewrite unlinkAll_working by done. simpl. case_bool_decide as Hin; [done|].
      destruct (files d !! k) as [file|] eqn:Hk; [|done].
      destruct Hin. apply list_elem_of_fmap. exists (k, file).
      split; [done|]. by apply elem_of_map_to_list. }
    split; [done|]. intros topic. unfold getCachedContent.
    by rewrite Hempty, lookup_empty.
  - intros done name rest Hnames Hok Hfail k. unfold clearCache.
    specialize (Hok 0%nat) as H0. rewrite Nat.add_0_r in H0.
    rewrite H0 by lia. rewrite Hnames.
    rewrite unlinkAll_stops; simpl; [done| | |].
    + by replace (tick d + 1 + length done)%nat
        with (tick d + S (length done))%nat by lia.
    + intros i Hi. replace (tick d + 1 + i)%nat with (tick d + S i)%nat by lia.
      apply Hok. lia.
    + rewrite <- Hnames. apply NoDup_fst_map_to_list.
Qed.

(** X17. A lookup returns a record exactly when the file of the topic
    holds it, [statSync] and [readFileSync] do not throw and the clock
    is not past its expiry.  It changes the directory only by removing
    the file of the topic, and only when the record read has expired:
    a file that does not parse stays where it is and is never
    returned, and a topic without a file costs the existence test and
    none of the calls that can throw. *)
Theorem getCachedContent_exact topic d :
  let path := cachePath md5 topic in
  let now := clock env (S (S (tick d))) in
  let result := getCachedContent md5 env topic d in
  (∀ data,
     result.1 = Some data ↔
     files d !! path = Some (Json data)
     ∧ fails env (tick d) = false ∧ fails env (S (tick d)) = false
     ∧ now ≤ expiresAt data)
  ∧ (files result.2 = files d
     ∨ ∃ data,
         files d !! path = Some (Json data) ∧ expiresAt data < now
         ∧ result.1 = None ∧ files result.2 = delete path (files d))
  ∧ (files d !! path = Some Unreadable →
     result.1 = None ∧ files result.2 = files d)
  ∧ (files d !! path = None → result = (None, d)).
Proof.
  intros path now result. unfold result, getCachedContent. fold path.
  destruct (files d !! path) as [[data|]|] eqn:Hfile.
  - destruct (fails env (tick d)) eqn:H0.
    { split; [|by repeat split; try left]. intros x. split; [done|].
      by intros (_ & ? & _). }
    destruct (fails env (S (tick d))) eqn:H1.
    { split; [|by repeat split; try left]. intros x. split; [done|].
      by intros (_ & _ & ? & _). }
    fold now. destruct (Z.ltb_spec (expiresAt data) now) as [Hold|Hfresh].
    + assert (∀ x, ¬ (Some (Json data) = Some (Json x) ∧ false = false
                      ∧ false = false ∧ now ≤ expiresAt x)) as Hno.
      { intros x ([= <-] & _ & _ & Hx). lia. }
      destruct (fails env (S (S (S (tick d))))); simpl.
      * split; [|by repeat split; try left]. intros x. split; [done|].
        intros Hx. by destruct (Hno x).
      * split; [|split; [right; by exists data|done]].
        intros x. split; [done|]. intros Hx. by destruct (Hno x).
    + split; [|by repeat split; try left]. intros x. simpl. split.
      * by intros [= <-].
      * by intros ([= <-] & _).
  - split.
    { intros x. split; [by repeat case_match|]. by intros (? & _). }
    split; [left; by repeat case_match|]. split; [|done].
    intros _. by repeat case_match.
  - split; [|by repeat split; try left]. intros x. split; [done|].
    by intros (? & _).
Qed.

End Files.

End TopicCacheProperties.

(** ** The topic cache: the normal form of a topic *)

Module TopicKeyProperties.

Import Crawler TopicCache TextFacts.

Lemma lowerChar_idem c : Js.lowerChar (Js.lowerChar c) = Js.lowerChar c.
Proof. by destruct c as [[] [] [] [] [] [] [] []]. Qed.

Lemma isSpace_lowerChar c : Js.isSpace (Js.lowerChar c) = Js.isSpace c.
Proof. by destruct c as [[] [] [] [] [] [] [] []]. Qed.

Lemma lowerChar_space c : Js.isSpace c = true → Js.lowerChar c = c.
Proof. by destruct c as [[] [] [] [] [] [] [] []]. Qed.

Lemma toLowerCase_idem s : Js.toLowerCase (Js.toLowerCase s) = Js.toLowerCase s.
Proof. induction s as [|c s IH]; simpl; [done|]. by rewrite lowerChar_idem, IH. Qed.

Lemma toLowerCase_app a b :
  Js.toLowerCase (a +:+ b) = Js.toLowerCase a +:+ Js.toLowerCase b.
Proof. induction a as [|c a IH]; simpl; [done|]. by rewrite IH. Qed.

Lemma reverse_cons c s : Js.reverse (String c s) = Js.reverse s +:+ String c "".
Proof. unfold Js.reverse. simpl. by rewrite string_of_list_app. Qed.

Lemma reverse_snoc s c : Js.reverse (s +:+ String c "") = String c (Js.reverse s).
Proof.
  unfold Js.reverse. by rewrite list_of_string_app, rev_app_distr.
Qed.

Lemma reverse_involutive s : Js.reverse (Js.reverse s) = s.
Proof.
  unfold Js.reverse.
  by rewrite String.list_ascii_of_string_of_list_ascii, rev_involutive,
    String.string_of_list_ascii_of_string.
Qed.

Lemma reverse_lower s : Js.reverse (Js.toLowerCase s) = Js.toLowerCase (Js.reverse s).
Proof.
  induction s as [|c s IH]; [done|].
  change (Js.toLowerCase (String c s)) with (String (Js.lowerChar c) (Js.toLowerCase s)).
  by rewrite !reverse_cons, IH, toLowerCase_app.
Qed.

Lemma trimStart_lower s :
  Js.trimStart (Js.toLowerCase s) = Js.toLowerCase (Js.trimStart s).
Proof.
  induction s as [|c s IH]; simpl; [done|].
  rewrite isSpace_lowerChar. by destruct (Js.isSpace c).
Qed.

Lemma trim_lower s : Js.trim (Js.toLowerCase s) = Js.toLowerCase (Js.trim s).
Proof.
  unfold Js.trim, Js.trimEnd.
  by rewrite trimStart_lower, reverse_lower, trimStart_lower, reverse_lower.
Qed.

Lemma collapseSpaces_lower b s :
  collapseSpaces b (Js.toLowerCase s) = Js.toLowerCase (collapseSpaces b s).
Proof.
  revert b. induction s as [|c s IH]; intros b; simpl; [done|].
  rewrite isSpace_lowerChar. destruct (Js.isSpace c); [destruct b|]; simpl;
    by rewrite IH.
Qed.

(** A string that starts with a character other than white space, and
    one that ends with one. *)
Definition begun (s : string) : Prop :=
  match s with EmptyString => False | String c _ => Js.isSpace c = false end.

Definition ended (s : string) : Prop :=
  ∃ a c, s = a +:+ String c "" ∧ Js.isSpace c = false.

Lemma trimStart_begun s : Js.trimStart s = "" ∨ begun (Js.trimStart s).
Proof.
  induction s as [|c s IH]; simpl; [by left|].
  destruct (Js.isSpace c) eqn:Hc; [done|by right].
Qed.

Lemma trimStart_id s : begun s → Js.trimStart s = s.
Proof. destruct s as [|c s]; simpl; [done|]. by intros ->. Qed.

Lemma trimStart_snoc a c :
  Js.isSpace c = false →
  Js.trimStart (a +:+ String c "") = Js.trimStart a +:+ String c "".
Proof.
  intros Hc. induction a as [|x a IH]; simpl; [by rewrite Hc|].
  by destruct (Js.isSpace x).
Qed.

Lemma begun_ended_reverse s : begun s → ended (Js.reverse s).
Proof.
  destruct s as [|c s]; [done|]. intros Hc. rewrite reverse_cons. by eexists _, _.
Qed.

Lemma ended_begun_reverse s : ended s → begun (Js.reverse s).
Proof. intros (a & c & -> & Hc). by rewrite reverse_snoc. Qed.

Lemma begun_app a b : begun a → begun (a +:+ b).
Proof. by destruct a. Qed.

Lemma trimEnd_id s : ended s → Js.trimEnd s = s.
Proof.
  intros Hs. unfold Js.trimEnd.
  by rewrite trimStart_id, reverse_involutive by by apply ended_begun_reverse.
Qed.

(** What [trim] returns is empty, or starts and ends with a character
    other than white space. *)
Lemma trim_shape s : Js.trim s = "" ∨ (begun (Js.trim s) ∧ ended (Js.trim s)).
Proof.
  unfold Js.trim. destruct (trimStart_begun s) as [->|Hb]; [by left|right].
  destruct (Js.trimStart s) as [|c x]; [done|]. simpl in Hb.
  unfold Js.trimEnd. rewrite reverse_cons, trimStart_snoc, reverse_snoc by done.
  split; [done|].
  destruct (trimStart_begun (Js.reverse x)) as [->|Hx].
  - by exists "", c.
  - apply begun_ended_reverse in Hx as (a & c' & -> & Hc').
    by exists (String c a), c'.
Qed.

(** What [collapseSpaces] returns when its input ends with a character
    other than white space: white space only as single spaces, never
    at the end, and, when [prev] is set, never at the start. *)
Fixpoint tidy (prev : bool) (s : string) : Prop :=
  match s with
  | EmptyString => prev = false
  | String c s' =>
      if Js.isSpace c then c = " "%char ∧ prev = false ∧ tidy true s'
      else tidy false s'
  end.

Lemma collapseSpaces_tidy b s : ended s → tidy b (collapseSpaces b s).
Proof.
  revert b. induction s as [|c s IH]; intros b Hs.
  { by destruct Hs as ([|??] & ? & ? & ?). }
  assert (s = "" ∧ Js.isSpace c = false ∨ ended s) as Hs'.
  { destruct Hs as ([|x a] & c' & Heq & Hc'); injection Heq as -> ->;
      [by left|right].
    by exists a, c'. }
  simpl. destruct (Js.isSpace c) eqn:Hc.
  - destruct Hs' as [[_ ?]|Hs']; [done|]. destruct b; simpl; [by apply IH|].
    split; [done|]. split; [done|]. by apply IH.
  - simpl. rewrite Hc. destruct Hs' as [[-> _]|Hs']; [done|]. by apply IH.
Qed.

Lemma collapseSpaces_begun s :
  begun s → collapseSpaces false s = collapseSpaces true s.
Proof. destruct s as [|c s]; simpl; [done|]. by intros ->. Qed.

Lemma tidy_collapseSpaces b s : tidy b s → collapseSpaces b s = s.
Proof.
  revert b. induction s as [|c s IH]; intros b; simpl; [done|].
  destruct (Js.isSpace c).
  - intros (-> & -> & Hs). by rewrite IH.
  - intros Hs. by rewrite IH.
Qed.

Lemma tidy_weaken s : tidy true s → tidy false s ∧ begun s.
Proof.
  destruct s as [|c s]; simpl; [done|].
  destruct (Js.isSpace c); [by intros (_ & ? & _)|done].
Qed.

Lemma tidy_ended b s : tidy b s → s ≠ "" → ended s.
Proof.
  revert b. induction s as [|c s IH]; intros b Hs Hne; [done|]. simpl in Hs.
  destruct s as [|c' s].
  - destruct (Js.isSpace c) eqn:Hc; [by destruct Hs as (_ & _ & ?)|].
    by exists "", c.
  - assert (ended (String c' s)) as (a & x & Heq & Hx).
    { destruct (Js.isSpace c); [destruct Hs as (_ & _ & Hs)|]; by eapply IH. }
    exists (String c a), x. by rewrite Heq.
Qed.

Section Key.

Context (md5 : string → string).

(** X18. The three steps of the normal form of a topic leave a normal
    form as it is: it has no upper-case letter, no white space at
    either end and no white space other than single spaces.  So
    normalizing twice is normalizing once, and the cache key of a
    topic is the key of its normal form. *)
Theorem normalize_idempotent topic :
  Js.toLowerCase (normalize topic) = normalize topic
  ∧ Js.trim (normalize topic) = normalize topic
  ∧ collapseSpaces false (normalize topic) = normalize topic
  ∧ normalize (normalize topic) = normalize topic
  ∧ generateCacheKey md5 (normalize topic) = generateCacheKey md5 topic.
Proof.
  assert (Js.toLowerCase (normalize topic) = normalize topic) as Hlow.
  { unfold normalize.
    by rewrite <- collapseSpaces_lower, <- trim_lower, toLowerCase_idem. }
  assert (Js.trim (normalize topic) = normalize topic
          ∧ collapseSpaces false (normalize topic) = normalize topic) as [Htrim Hcol].
  { unfold normalize.
    destruct (trim_shape (Js.toLowerCase topic)) as [->|[Hb He]]; [done|].
    rewrite (collapseSpaces_begun _ Hb).
    pose proof (collapseSpaces_tidy true _ He) as Ht.
    set (u := collapseSpaces true _) in *.
    apply tidy_weaken in Ht as Hw. destruct Hw as [Hf Hb'].
    split; [|by apply tidy_collapseSpaces].
    unfold Js.trim. rewrite (trimStart_id _ Hb'). apply trimEnd_id.
    apply (tidy_ended _ _ Ht). by destruct u. }
  split; [done|]. split; [done|]. split; [done|].
  assert (normalize (normalize topic) = normalize topic) as Hidem.
  { unfold normalize at 1. by rewrite Hlow, Htrim, Hcol. }
  split; [done|]. unfold generateCacheKey. by rewrite Hidem.
Qed.

End Key.

(** White space only. *)
Fixpoint blank (s : string) : Prop :=
  match s with
  | EmptyString => True
  | String c s' => Js.isSpace c = true ∧ blank s'
  end.

Lemma blank_app a b : blank a → blank b → blank (a +:+ b).
Proof.
  intros Ha Hb. induction a as [|c a IH]; [done|]. destruct Ha as [Hc Ha].
  change (blank (String c (a +:+ b))). split; [done|by apply IH].
Qed.

Lemma blank_reverse a : blank a → blank (Js.reverse a).
Proof.
  induction a as [|c a IH]; [done|]. intros [Hc Ha]. rewrite reverse_cons.
  apply blank_app; [by apply IH|done].
Qed.

Lemma blank_lower a : blank a → blank (Js.toLowerCase a).
Proof.
  induction a as [|c a IH]; [done|]. intros [Hc Ha]. simpl.
  split; [by rewrite isSpace_lowerChar|by apply IH].
Qed.

Lemma reverse_app a b : Js.reverse (a +:+ b) = Js.reverse b +:+ Js.reverse a.
Proof.
  induction a as [|c a IH].
  - change ("" +:+ b) with b. change (Js.reverse "") with "". by rewrite append_nil_r.
  - change (String c a +:+ b) with (String c (a +:+ b)).
    by rewrite !reverse_cons, IH, append_assoc.
Qed.

Lemma trimStart_blank l s : blank l → Js.trimStart (l +:+ s) = Js.trimStart s.
Proof.
  intros Hl. induction l as [|c l IH]; [done|]. destruct Hl as [Hc Hl].
  change (Js.trimStart (String c (l +:+ s)) = Js.trimStart s). simpl.
  rewrite Hc. by apply IH.
Qed.

Lemma trimEnd_blank s r : blank r → Js.trimEnd (s +:+ r) = Js.trimEnd s.
Proof.
  intros Hr. unfold Js.trimEnd.
  by rewrite reverse_app, trimStart_blank by by apply blank_reverse.
Qed.

Lemma trimStart_split s : ∃ l, blank l ∧ s = l +:+ Js.trimStart s.
Proof.
  induction s as [|c s (l & Hl & Hs)]; [by exists ""|]. simpl.
  destruct (Js.isSpace c) eqn:Hc; [|by exists ""].
  exists (String c l). split; [done|].
  change (String c s = String c (l +:+ Js.trimStart s)). by rewrite <- Hs.
Qed.

Lemma trimEnd_split s : ∃ r, blank r ∧ s = Js.trimEnd s +:+ r.
Proof.
  destruct (trimStart_split (Js.reverse s)) as (l & Hl & Hs).
  exists (Js.reverse l). split; [by apply blank_reverse|].
  unfold Js.trimEnd. rewrite <- reverse_app, <- Hs. by rewrite reverse_involutive.
Qed.

(** A text is its trimmed form between two runs of white space, and
    [trim] finds a trimmed text between such runs. *)
Lemma trim_split s : ∃ l r, blank l ∧ blank r ∧ s = l +:+ Js.trim s +:+ r.
Proof.
  destruct (trimStart_split s) as (l & Hl & Hs).
  destruct (trimEnd_split (Js.trimStart s)) as (r & Hr & Ht).
  exists l, r. split; [done|]. split; [done|]. unfold Js.trim.
  by rewrite <- Ht.
Qed.

Lemma trimStart_all_blank l : blank l → Js.trimStart l = "".
Proof.
  intros Hl. induction l as [|c l IH]; [done|]. destruct Hl as [Hc Hl].
  simpl. rewrite Hc. by apply IH.
Qed.

Lemma trim_between l m r :
  blank l → blank r → m = "" ∨ (begun m ∧ ended m) →
  Js.trim (l +:+ m +:+ r) = m.
Proof.
  intros Hl Hr Hm. unfold Js.trim. rewrite trimStart_blank by done.
  destruct Hm as [->|[Hb He]].
  - change ("" +:+ r) with r. by rewrite trimStart_all_blank.
  - rewrite trimStart_id by by apply begun_app.
    rewrite trimEnd_blank by done. by apply trimEnd_id.
Qed.

Lemma collapseSpaces_solid b a c s :
  Js.isSpace c = false →
  collapseSpaces b (a +:+ String c s)
  = collapseSpaces b a +:+ String c (collapseSpaces false s).
Proof.
  intros Hc. revert b. induction a as [|x a IH]; intros b.
  - change ("" +:+ String c s) with (String c s). simpl. by rewrite Hc.
  - change (String x a +:+ String c s) with (String x (a +:+ String c s)).
    simpl. destruct (Js.isSpace x); [destruct b|]; by rewrite IH.
Qed.

Lemma collapseSpaces_ended b a s :
  ended a → collapseSpaces b (a +:+ s) = collapseSpaces b a +:+ collapseSpaces false s.
Proof.
  intros (a' & c & -> & Hc). rewrite append_assoc.
  change (String c "" +:+ s) with (String c s).
  rewrite !collapseSpaces_solid by done. by rewrite append_assoc.
Qed.

Lemma collapseSpaces_skip w s : blank w → collapseSpaces true (w +:+ s) = collapseSpaces true s.
Proof.
  intros Hw. induction w as [|c w IH]; [done|]. destruct Hw as [Hc Hw].
  change (String c w +:+ s) with (String c (w +:+ s)). simpl. rewrite Hc.
  by apply IH.
Qed.

Lemma collapseSpaces_gap w s :
  blank w → w ≠ "" →
  collapseSpaces false (w +:+ s) = String " " (collapseSpaces true s).
Proof.
  intros Hw Hne. destruct w as [|c w]; [done|]. destruct Hw as [Hc Hw].
  change (String c w +:+ s) with (String c (w +:+ s)). simpl. rewrite Hc.
  by rewrite collapseSpaces_skip.
Qed.

(** Two normal forms joined by a space, an empty one counting for
    nothing. *)
Definition joined (a b : string) : string :=
  if String.eqb a "" then b
  else if String.eqb b "" then a
  else a +:+ " " +:+ b.

(** The join law of trimming and collapsing: some white space between
    two texts leaves the two, each trimmed and collapsed, with one
    space between them when neither is empty. *)
Lemma squeeze_join w a b :
  blank w → w ≠ "" →
  collapseSpaces false (Js.trim (a +:+ w +:+ b))
  = joined (collapseSpaces false (Js.trim a)) (collapseSpaces false (Js.trim b)).
Proof.
  intros Hw Hne.
  destruct (trim_split a) as (l1 & r1 & Hl1 & Hr1 & Ha).
  destruct (trim_split b) as (l2 & r2 & Hl2 & Hr2 & Hb).
  pose proof (trim_shape a) as Hsa. pose proof (trim_shape b) as Hsb.
  revert Ha Hb Hsa Hsb. generalize (Js.trim a), (Js.trim b).
  intros m n -> -> Hm Hn.
  assert (blank (r1 +:+ w +:+ l2)) as Hgap by by repeat apply blank_app.
  assert (r1 +:+ w +:+ l2 ≠ "") as Hgap'.
  { destruct r1; [|done]. by destruct w. }
  revert Hgap Hgap'. 
  replace ((l1 +:+ m +:+ r1) +:+ w +:+ l2 +:+ n +:+ r2)
    with (l1 +:+ (m +:+ (r1 +:+ w +:+ l2) +:+ n) +:+ r2)
    by by rewrite !append_assoc.
  generalize (r1 +:+ w +:+ l2). clear w r1 l2 Hw Hne Hr1 Hl2. intros g Hg Hne.
  unfold joined. destruct Hm as [->|[Hbm Hem]].
  { change (collapseSpaces false "") with "". simpl.
    change ("" +:+ g +:+ n) with (g +:+ n).
    replace (l1 +:+ (g +:+ n) +:+ r2) with ((l1 +:+ g) +:+ n +:+ r2)
      by by rewrite !append_assoc.
    by rewrite trim_between by (try done; by apply blank_app). }
  destruct Hn as [->|[Hbn Hen]].
  { change (collapseSpaces false "") with "".
    replace (l1 +:+ (m +:+ g +:+ "") +:+ r2) with (l1 +:+ m +:+ (g +:+ r2))
      by by rewrite !append_assoc.
    rewrite trim_between by (try done; try (by right); by apply blank_app).
    destruct (String.eqb_spec (collapseSpaces false m) ""); [done|].
    by destruct (String.eqb_spec "" ""). }
  rewrite trim_between; [|done..|].
  2: { right. split; [by apply begun_app|].
       destruct Hen as (n' & c & -> & Hc). exists (m +:+ g +:+ n'), c.
       by rewrite !append_assoc. }
  rewrite collapseSpaces_ended by done.
  rewrite collapseSpaces_gap by done.
  rewrite <- (collapseSpaces_begun n) by done.
  assert (∀ s, begun s → collapseSpaces false s ≠ "") as Hfull.
  { intros [|c s]; [done|]. simpl. by intros ->. }
  destruct (String.eqb_spec (collapseSpaces false m) "") as [Hz|_].
  { by destruct (Hfull m). }
  destruct (String.eqb_spec (collapseSpaces false n) "") as [Hz|_].
  { by destruct (Hfull n). }
  done.
Qed.


(** X19. Case and the amount of white space do not matter to the
    normal form of a topic: the normal form of two texts with some
    white space between them is the normal forms of the two, with one
    space between them when neither is empty; and the normal form of a
    topic in lower case is that of the topic. *)
Theorem normalize_joins x ws y :
  blank ws → ws ≠ "" →
  normalize (x +:+ ws +:+ y) = joined (normalize x) (normalize y)
  ∧ normalize (Js.toLowerCase x) = normalize x.
Proof.
  intros Hws Hne. split; [|unfold normalize; by rewrite toLowerCase_idem].
  unfold normalize. rewrite !toLowerCase_app.
  apply squeeze_join; [by apply blank_lower|by destruct ws].
Qed.

Lemma normalize_joins_witness :
  normalize ("React" +:+ (String " " (String "009" " ")) +:+ "HOOKS")
  = "react hooks".
Proof.
  destruct (normalize_joins "React" (String " " (String "009" " ")) "HOOKS")
    as [Hjoin _]; [done..|].
  rewrite Hjoin. reflexivity.
Defined.

(** A text without white space. *)
Fixpoint unbroken (s : string) : Prop :=
  match s with
  | EmptyString => True
  | String c s' => Js.isSpace c = false ∧ unbroken s'
  end.

Lemma unbroken_lower s : unbroken s → unbroken (Js.toLowerCase s).
Proof.
  induction s as [|c s IH]; [done|]. intros [Hc Hs]. simpl.
  split; [by rewrite isSpace_lowerChar|by apply IH].
Qed.

Lemma unbroken_ended s : unbroken s → s ≠ "" → ended s.
Proof.
  induction s as [|c s IH]; [done|]. intros [Hc Hs] _.
  destruct s as [|c' s]; [by exists "", c|].
  destruct (IH Hs) as (a & x & Heq & Hx); [done|].
  exists (String c a), x. by rewrite Heq.
Qed.

Lemma unbroken_collapseSpaces b s : unbroken s → collapseSpaces b s = s.
Proof.
  revert b. induction s as [|c s IH]; intros b; [done|]. intros [Hc Hs].
  simpl. by rewrite Hc, IH.
Qed.

(** Trimming and collapsing leave a text without white space as it
    is. *)
Lemma squeeze_word s : unbroken s → collapseSpaces false (Js.trim s) = s.
Proof.
  intros Hs. destruct s as [|c s]; [done|].
  unfold Js.trim. rewrite trimStart_id by by destruct Hs.
  rewrite trimEnd_id by by apply unbroken_ended.
  by apply unbroken_collapseSpaces.
Qed.

End TopicKeyProperties.

(** ** The topic cache: writing, then reading *)

Module TopicCacheRoundTrip.

Import Crawler TopicCache TopicCacheProofs TopicKeyProperties.

Section Cache.

Context (md5 : string → string) (env : Env).

(** C9. While the file system works: [cacheContent] followed by
    [getCachedContent] on the same topic, with the clock of the lookup
    not past the expiry, returns the record just written, with exactly
    the documents and URLs given, whatever the cache held for the topic
    before; the record expires 24 hours after the clock reading of the
    write; the key is the hash of the topic in lower case, trimmed,
    with every run of white space as one space, so topics that
    normalize alike share a record; and a lookup whose clock is past
    the expiry of the stored record returns nothing and removes the
    file.

    What the normal form is, is pinned by two laws: a text without
    white space has its lower-case form as normal form, and some white
    space between two texts gives their normal forms with one space
    between them (or the one that is not empty).  So the lookup of a
    topic that differs from the one written only by case and by the
    amount of white space returns the record written. *)
Theorem put_then_get topic links docs d :
  (∀ t, fails env t = false) →
  (clock env (tick d + 6) ≤ clock env (S (tick d)) + CACHE_TTL_MS →
   ∃ d',
     getCachedContent md5 env topic (cacheContent md5 env topic links docs d)
     = (Some {| topic := topic; urls := links; content := docs;
                cachedAt := clock env (tick d);
                expiresAt := clock env (S (tick d)) + 24 * 60 * 60 * 1000 |}, d'))
  ∧ generateCacheKey md5 topic
    = md5 (collapseSpaces false (Js.trim (Js.toLowerCase topic)))
  ∧ (∀ topic', normalize topic' = normalize topic →
     cachePath md5 topic' = cachePath md5 topic)
  ∧ (∀ data,
       files d !! cachePath md5 topic = Some (Json data) →
       expiresAt data < clock env (tick d + 2) →
       ∃ d', getCachedContent md5 env topic d = (None, d')
             ∧ files d' !! cachePath md5 topic = None)
  ∧ (clock env (S (tick d)) + CACHE_TTL_MS < clock env (tick d + 6) →
     ∃ d',
       getCachedContent md5 env topic (cacheContent md5 env topic links docs d)
       = (None, d')
       ∧ files d' !! cachePath md5 topic = None)
  ∧ (∀ word, unbroken word → normalize word = Js.toLowerCase word)
  ∧ (∀ x ws y, blank ws → ws ≠ "" →
       normalize (x +:+ ws +:+ y) = joined (normalize x) (normalize y))
  ∧ (∀ topic',
       normalize topic' = normalize topic →
       clock env (tick d + 6) ≤ clock env (S (tick d)) + CACHE_TTL_MS →
       ∃ d',
         getCachedContent md5 env topic' (cacheContent md5 env topic links docs d)
         = (Some {| topic := topic; urls := links; content := docs;
                    cachedAt := clock env (tick d);
                    expiresAt := clock env (S (tick d)) + 24 * 60 * 60 * 1000 |}, d')).
Proof.
  intros Hio.
  assert (∀ topic', normalize topic' = normalize topic →
                    cachePath md5 topic' = cachePath md5 topic) as Hkey.
  { intros topic' Hnorm. unfold cachePath, generateCacheKey. by rewrite Hnorm. }
  assert (∀ topic',
            normalize topic' = normalize topic →
            clock env (tick d + 6) ≤ clock env (S (tick d)) + CACHE_TTL_MS →
            ∃ d',
              getCachedContent md5 env topic' (cacheContent md5 env topic links docs d)
              = (Some {| topic := topic; urls := links; content := docs;
                         cachedAt := clock env (tick d);
                         expiresAt := clock env (S (tick d)) + 24 * 60 * 60 * 1000 |},
                 d')) as Hcross.
  { intros topic' Hnorm Hclock. rewrite (cacheContent_written _ _ _ _ _ _ Hio).
    eexists. apply getCachedContent_live; [done| |].
    - simpl. rewrite (Hkey topic' Hnorm). apply lookup_insert_eq.
    - simpl. by replace (tick d + 4 + 2)%nat with (tick d + 6)%nat by lia. }
  split; [by apply Hcross|]. split; [done|]. split; [done|]. split; [|split].
  - intros data Hfile Hclock.
    rewrite (getCachedContent_expired _ _ _ _ _ Hio Hfile Hclock).
    eexists. split; [done|]. simpl. apply lookup_delete_eq.
  - intros Hclock. rewrite (cacheContent_written _ _ _ _ _ _ Hio).
    erewrite getCachedContent_expired; [|done|apply lookup_insert_eq|].
    + eexists. split; [done|]. simpl. apply lookup_delete_eq.
    + simpl. by replace (tick d + 4 + 2)%nat with (tick d + 6)%nat by lia.
  - split; [|split; [|done]].
    + intros word Hword. unfold normalize.
      by apply squeeze_word, unbroken_lower.
    + intros x ws y Hws Hne. unfold normalize. rewrite !toLowerCase_app.
      apply squeeze_join; [by apply blank_lower|by destruct ws].
Qed.

End Cache.

Lemma put_then_get_witness :
  (∃ d',
     getCachedContent (λ s, s) steadyEnv "React Hooks"
       (cacheContent (λ s, s) steadyEnv "React Hooks"
          ["https://react.dev/reference/react/hooks"] [sampleDocument] emptyDisk)
     = (Some {| topic := "React Hooks";
                urls := ["https://react.dev/reference/react/hooks"];
                content := [sampleDocument];
                cachedAt := 0; expiresAt := 86400001 |}, d'))
  ∧ (∃ d',
       getCachedContent (λ s, s) steadyEnv "  react   HOOKS "
         (cacheContent (λ s, s) steadyEnv "React Hooks"
            ["https://react.dev/reference/react/hooks"] [sampleDocument] emptyDisk)
       = (Some {| topic := "React Hooks";
                  urls := ["https://react.dev/reference/react/hooks"];
                  content := [sampleDocument];
                  cachedAt := 0; expiresAt := 86400001 |}, d'))
  ∧ cachePath (λ s, s) "  react   HOOKS " = "react hooks.json"
  ∧ (∃ d',
       getCachedContent (λ s, s) twoDaysLaterEnv "React Hooks"
         (cacheContent (λ s, s) twoDaysLaterEnv "React Hooks"
            ["https://react.dev/reference/react/hooks"] [sampleDocument] emptyDisk)
       = (None, d')
       ∧ files d' !! cachePath (λ s, s) "  react   HOOKS " = None).
Proof.
  split; [|split; [|split]].
  - destruct (put_then_get (λ s, s) steadyEnv "React Hooks"
                ["https://react.dev/reference/react/hooks"] [sampleDocument]
                emptyDisk) as [Hlive _]; [done|].
    apply Hlive. simpl. unfold CACHE_TTL_MS. lia.
  - destruct (put_then_get (λ s, s) steadyEnv "React Hooks"
                ["https://react.dev/reference/react/hooks"] [sampleDocument]
                emptyDisk) as (_ & _ & _ & _ & _ & _ & _ & Hcross); [done|].
    apply Hcross; [reflexivity|]. simpl. unfold CACHE_TTL_MS. lia.
  - destruct (put_then_get (λ s, s) steadyEnv "React Hooks"
                ["https://react.dev/reference/react/hooks"] [sampleDocument]
                emptyDisk) as (_ & _ & Hkey & _); [done|].
    by rewrite (Hkey "  react   HOOKS ").
  - destruct (put_then_get (λ s, s) twoDaysLaterEnv "React Hooks"
                ["https://react.dev/reference/react/hooks"] [sampleDocument]
                emptyDisk) as (_ & _ & Hkey & _ & Hlate & _); [done|].
    destruct Hlate as (d' & Hget & Hgone); [simpl; unfold CACHE_TTL_MS; lia|].
    exists d'. split; [done|]. by rewrite (Hkey "  react   HOOKS ").
Defined.

End TopicCacheRoundTrip.

(** ** The request handler *)

Module RouteProperties.

Import Crawler JsLib Route TextFacts.

Definition quality (s : ScrapedContent) : Q := score (scoreSource s).

(** Insertion among sources, by their scores. *)
Fixpoint place (s : ScrapedContent) (l : list ScrapedContent) : list ScrapedContent :=
  match l with
  | [] => [s]
  | y :: l' =>
      if Qle_bool (quality y - quality s) 0 then s :: l else y :: place s l'
  end.

Lemma insertSorted_scored s l :
  insertSorted (λ a b, (score b - score a)%Q) (scoreSource s) (map scoreSource l)
  = map scoreSource (place s l).
Proof.
  induction l as [|y l IH]; [done|]. cbn [map insertSorted place].
  fold (quality y). fold (quality s).
  destruct (Qle_bool _ _); [done|]. by rewrite IH.
Qed.

Lemma rankSources_place sources : rankSources sources = foldr place [] sources.
Proof.
  unfold rankSources, sort.
  assert (foldr (insertSorted (λ a b, (score b - score a)%Q)) [] (map scoreSource sources)
          = map scoreSource (foldr place [] sources)) as ->.
  { induction sources as [|s l IH]; [done|]. cbn [map foldr].
    by rewrite IH, insertSorted_scored. }
  rewrite List.map_map. apply List.map_id.
Qed.

Lemma place_perm s l : place s l ≡ₚ s :: l.
Proof.
  induction l as [|y l IH]; [done|]. simpl.
  destruct (Qle_bool _ _); [done|]. rewrite IH. apply Permutation_swap.
Qed.

Lemma rank_perm l : foldr place [] l ≡ₚ l.
Proof.
  induction l as [|s l IH]; [done|]. simpl. by rewrite place_perm, IH.
Qed.

Definition ahead (a b : ScrapedContent) : Prop := (quality b <= quality a)%Q.

Lemma place_sorted s l :
  StronglySorted ahead l → StronglySorted ahead (place s l).
Proof.
  induction 1 as [|y l Hl IH Hy]; simpl.
  - repeat constructor.
  - destruct (Qle_bool _ _) eqn:Hc.
    + apply Qle_bool_iff in Hc. constructor; [by constructor|].
      constructor; [unfold ahead; lra|].
      eapply Forall_impl; [exact Hy|]. unfold ahead. intros z Hz. lra.
    + constructor; [done|].
      assert (¬ (quality y - quality s <= 0)%Q) as Hlt.
      { intros Hle. apply Qle_bool_iff in Hle. congruence. }
      rewrite place_perm. constructor; [unfold ahead; lra|done].
Qed.

Lemma rank_sorted l : StronglySorted ahead (foldr place [] l).
Proof.
  induction l as [|s l IH]; simpl; [constructor|]. by apply place_sorted.
Qed.

#[local] Instance quality_dec q s : Decision (quality s == q) := Qeq_dec _ _.

Lemma place_stable q s l :
  filter (λ x, quality x == q) (place s l)
  = filter (λ x, quality x == q) (s :: l).
Proof.
  induction l as [|y l IH]; [done|]. simpl.
  destruct (Qle_bool _ _) eqn:Hc; [done|].
  assert (¬ (quality y - quality s <= 0)%Q) as Hlt.
  { intros Hle. apply Qle_bool_iff in Hle. congruence. }
  rewrite (filter_cons _ y), IH, !(filter_cons _ s), !(filter_cons _ y).
  destruct (decide (quality y == q)) as [Hy|Hy]; [|done].
  destruct (decide (quality s == q)) as [Hs|Hs]; [|done]. lra.
Qed.

Lemma rank_stable q l :
  filter (λ x, quality x == q) (foldr place [] l)
  = filter (λ x, quality x == q) l.
Proof.
  induction l as [|s l IH]; [done|]. simpl.
  by rewrite place_stable, !filter_cons, IH.
Qed.

Lemma sorted_lookup l i j a b :
  StronglySorted ahead l → (i < j)%nat →
  l !! i = Some a → l !! j = Some b → ahead a b.
Proof.
  intros Hl. revert i j. induction Hl as [|x l Hl IH Hx]; intros i j Hij Hi Hj.
  { by rewrite lookup_nil in Hi. }
  destruct j as [|j]; [lia|]. simpl in Hj. destruct i as [|i]; simpl in Hi.
  - injection Hi as ->. rewrite Forall_forall in Hx. apply Hx.
    by eapply list_elem_of_lookup_2.
  - apply (IH i j); [lia|done..].
Qed.

(** X20. [rankSources] returns the sources it was given, each as often
    as it was given, best score first, and sources of the same score
    in the order they came in. *)
Theorem rankSources_ranked sources :
  rankSources sources ≡ₚ sources
  ∧ (∀ i j a b, (i < j)%nat →
       rankSources sources !! i = Some a → rankSources sources !! j = Some b →
       (score (scoreSource b) <= score (scoreSource a))%Q)
  ∧ (∀ q, filter (λ x, quality x == q) (rankSources sources)
          = filter (λ x, quality x == q) sources).
Proof.
  rewrite rankSources_place. split; [apply rank_perm|]. split.
  - intros i j a b. apply sorted_lookup, rank_sorted.
  - intros q. apply rank_stable.
Qed.

(** X21. The sources handed to the generation: at most ten, at least
    two (otherwise the request ends with the error message, which
    tells how many there were), the best ranked of the documents with
    [success] set, each with its content cut to its first 2000
    characters and otherwise as it was scraped. *)
Theorem selectSources_best scrapedContent :
  let successful := filter (λ c, success c = true) scrapedContent in
  match selectSources scrapedContent with
  | inl selected =>
      (2 ≤ length selected ≤ 10)%nat
      ∧ length selected = (length successful `min` 10)%nat
      ∧ (∃ chosen rest,
           rankSources successful = chosen ++ rest
           ∧ selected = trimContent chosen
           ∧ ∀ a b, a ∈ chosen → b ∈ rest →
                    (score (scoreSource b) <= score (scoreSource a))%Q)
      ∧ Forall (λ s,
                  strlen (markdown s) ≤ 2000
                  ∧ success s = true
                  ∧ ∃ c, c ∈ scrapedContent
                         ∧ url s = url c
                         ∧ String.prefix (markdown s) (markdown c) = true
                         ∧ (strlen (markdown c) ≤ 2000 → s = c))
               selected
  | inr message =>
      (length successful < 2)%nat
      ∧ message = "Need at least 2 valid sources, only found "
                  +:+ pretty (length successful)
  end.
Proof.
  intros successful. unfold selectSources. fold successful.
  destruct (rankSources_ranked successful) as (Hperm & Hsorted & _).
  rewrite ValidatorProperties.slice_oldest by done.
  change (Z.to_nat MAX_SOURCES) with 10%nat.
  assert (length (trimContent (take 10 (rankSources successful)))
          = (length successful `min` 10)%nat) as Hlen.
  { unfold trimContent. rewrite length_map, length_take, Hperm. lia. }
  rewrite Hlen. destruct (Nat.ltb_spec (length successful `min` 10) 2) as [Hfew|Hmany].
  { assert (length successful `min` 10 = length successful)%nat as -> by lia.
    split; [lia|done]. }
  split; [lia|]. split; [done|]. split.
  - exists (take 10 (rankSources successful)), (drop 10 (rankSources successful)).
    split; [by rewrite take_drop|]. split; [done|].
    intros a b [i Hi]%list_elem_of_lookup_1 [j Hj]%list_elem_of_lookup_1.
    apply lookup_take_Some in Hi as [Hi Hlt]. rewrite lookup_drop in Hj.
    apply (Hsorted i (10 + j)%nat); [lia|done..].
  - unfold trimContent. apply List.Forall_map. apply Forall_forall. intros c Hc.
    apply subseteq_take in Hc. rewrite Hperm in Hc.
    apply list_elem_of_filter in Hc as [Hok Hc]. cbn [markdown success url].
    split; [rewrite length_sliceString by done; unfold MAX_CONTENT_LENGTH; lia|].
    split; [done|]. exists c. split; [done|]. split; [done|].
    split; [by apply sliceString_prefix|].
    intros Hshort. rewrite sliceString_short by done. by destruct c.
Qed.

Section Fresh.

Context `{UrlApi} (env : Env).

Lemma recursiveCrawl_usable initialUrls topic w rs w' :
  recursiveCrawl env initialUrls topic w = (inl rs, w') →
  Forall CrawlProperties.usable rs.
Proof.
  intros Hrun. unfold recursiveCrawl in Hrun.
  destruct (phase1 env initialUrls w) as [[st1|e] w1] eqn:Hone; [|done].
  pose proof (CrawlProperties.phase2_kept env st1 w1
                (CrawlProperties.phase1_kept env _ _ _ _ Hone)) as Hkept.
  destruct (phase2 env st1 w1) as [st2 w2]. cbn [fst] in *.
  injection Hrun as <- _. by apply CrawlProperties.attachPaywalled_usable.
Qed.

Lemma trimContent_fallback l :
  map fallbackUsed (trimContent l) = map fallbackUsed l.
Proof. unfold trimContent. rewrite List.map_map. by apply List.map_ext. Qed.

(** X25. The handler reports no paywalled source after a crawl: none
    of the documents [recursiveCrawl] returns is flagged, so the count
    of paywalled URLs is 0 and neither warning about paywalled sources
    is issued, whatever [getPaywalledUrls] would tell; both filters on
    [success] keep every document, so that the crawl is found to have
    scraped nothing exactly when it returns no document. *)
Theorem crawl_reports_no_paywall initialUrls topic w rs w' :
  recursiveCrawl env initialUrls topic w = (inl rs, w') →
  Route.paywalledUrls rs = []
  ∧ filter (λ c, success c = true) rs = rs
  ∧ (nothingScraped rs = true ↔ rs = [])
  ∧ ∀ selected, selectSources rs = inl selected → paywallWarnings rs selected = [].
Proof.
  intros Hrun. apply recursiveCrawl_usable in Hrun.
  assert (filter (λ c, truthy (isPaywalled c) = true) rs = []
          ∧ filter (λ c, success c = true) rs = rs
          ∧ filter (λ c, success c && negb (truthy (isPaywalled c)) = true) rs = rs)
    as (Hwall & Hok & Hboth).
  { induction Hrun as [|r rs (Hs & Hp & _) _ (IH1 & IH2 & IH3)]; [done|].
    rewrite filter_cons_False by congruence.
    rewrite !filter_cons_True by (by rewrite ?Hs, ?Hp).
    by rewrite IH2, IH3. }
  assert (Route.paywalledUrls rs = []) as Hnone.
  { unfold Route.paywalledUrls. by rewrite Hwall. }
  split; [done|]. split; [done|]. split.
  { unfold nothingScraped. rewrite Hboth. clear. by destruct rs; split. }
  intros selected Hsel. unfold paywallWarnings. rewrite Hnone. simpl.
  assert (Forall (λ s, fallbackUsed s = None) selected) as Hfb.
  { unfold selectSources in Hsel. destruct (_ <? _)%nat; [done|].
    injection Hsel as <-. rewrite Hok.
    apply Forall_fmap with (f := fallbackUsed) (P := λ x, x = None).
    change (fallbackUsed <$> ?l) with (map fallbackUsed l).
    rewrite trimContent_fallback. apply Forall_fmap, Forall_forall.
    intros c Hc%CrawlProperties.elem_of_slice.
    rewrite rankSources_place, rank_perm in Hc.
    rewrite Forall_forall in Hrun. by destruct (Hrun c Hc) as (_ & _ & _ & ?). }
  assert (existsb (λ s, truthy (fallbackUsed s)) selected = false) as ->; [|done].
  clear Hsel. induction Hfb as [|s l Hs _ IH]; [done|]. simpl. by rewrite Hs, IH.
Qed.

End Fresh.

#[local] Existing Instance PlainUrl.api.

Lemma crawl_reports_no_paywall_witness :
  ∃ rs w',
    recursiveCrawl CrawlProperties.wallEnv
      ["https://docs.example.com/guide"; "https://docs.example.com/pro"]
      "docs" initialWorld = (inl rs, w')
    ∧ Route.paywalledUrls rs = []
    ∧ getPaywalledUrls rs = ["https://docs.example.com/pro"].
Proof.
  destruct (recursiveCrawl CrawlProperties.wallEnv
              ["https://docs.example.com/guide"; "https://docs.example.com/pro"]
              "docs" initialWorld) as [[rs|e] w'] eqn:Hrun;
    [|by vm_compute in Hrun].
  exists rs, w'. split; [done|]. split.
  - by destruct (crawl_reports_no_paywall CrawlProperties.wallEnv _ _ _ _ _ Hrun)
      as [? _].
  - vm_compute in Hrun. by injection Hrun as <- <-.
Defined.

End RouteProperties.

(** ** The web search *)

Module SerperProperties.

Import Serper TextFacts.

(** An entry that the filter keeps: its link, in lower case, contains
    none of the excluded domains. *)
Definition allowed (result : Organic) : bool :=
  match organic_link result with
  | Some l =>
      negb (existsb (λ domain, Js.includes (Js.toLowerCase l) domain) excludedDomains)
  | None => false
  end.

Lemma allowed_spec result :
  allowed result = true ↔
  ∃ l, organic_link result = Some l
       ∧ ∀ domain, domain ∈ excludedDomains →
                   Js.includes (Js.toLowerCase l) domain = false.
Proof.
  unfold allowed. destruct (organic_link result) as [l|]; [|split; [done|]].
  - rewrite negb_true_iff. split.
    + intros Hex. exists l. split; [done|]. intros domain Hin.
      apply not_true_is_false. intros Hinc.
      assert (existsb (λ domain, Js.includes (Js.toLowerCase l) domain) excludedDomains
              = true) as Hex'; [|congruence].
      apply existsb_exists. exists domain. by rewrite <- list_elem_of_In.
    + intros (l' & [= <-] & Hno). apply not_true_is_false. intros Hex.
      apply existsb_exists in Hex as (domain & Hin & Hinc).
      apply list_elem_of_In in Hin. by rewrite (Hno _ Hin) in Hinc.
  - by intros (l & ? & _).
Qed.

Lemma keepAllowed_filter organic :
  Forall (λ r, is_Some (organic_link r)) organic →
  keepAllowed organic = inl (filter (λ r, allowed r = true) organic).
Proof.
  induction 1 as [|r organic [l Hl] _ IH]; [done|].
  cbn [keepAllowed]. rewrite Hl, IH, filter_cons.
  assert (allowed r = negb (existsb (λ domain, Js.includes (Js.toLowerCase l) domain)
                              excludedDomains)) as Ha.
  { unfold allowed. by rewrite Hl. }
  revert Ha. destruct (existsb _ _); simpl; intros Ha.
  - by rewrite decide_False by congruence.
  - by rewrite decide_True by done.
Qed.

Lemma keepAllowed_kept organic filtered :
  keepAllowed organic = inl filtered →
  Forall (λ r, allowed r = true) filtered ∧ filtered `sublist_of` organic.
Proof.
  revert filtered. induction organic as [|r organic IH]; intros filtered.
  { intros [= <-]. split; [constructor|done]. }
  cbn [keepAllowed]. destruct (organic_link r) as [l|] eqn:Hl; [|done].
  destruct (keepAllowed organic) as [rest|e]; [|done].
  destruct (IH rest eq_refl) as [Hall Hsub].
  destruct (existsb _ _) eqn:Hex; simpl; intros [= <-].
  - split; [done|]. by apply sublist_cons.
  - split; [|by apply sublist_skip]. constructor; [|done].
    unfold allowed. by rewrite Hl, Hex.
Qed.

Section Web.

Context (env : Env).

(** X22. What [searchWeb] returns or throws.  It returns at most 15
    results, in the order of the answer of the service, none of them
    with a link that contains, in lower case, one of the excluded
    domains; an answer whose entries are all excluded gives an empty
    list, not an error.  Whatever goes wrong is thrown as an [Error]
    whose message starts with [Failed to search web: ], except a
    missing key, which is reported as it is.  When every entry of a
    non-empty answer has a link, the result is the first 15 of the
    entries that pass the filter. *)
Theorem searchWeb_outcome query :
  match searchWeb env query with
  | inl results =>
      (length results ≤ 15)%nat
      ∧ Forall (λ r, ∃ l, link r = Some l
                          ∧ ∀ domain, domain ∈ excludedDomains →
                              Js.includes (Js.toLowerCase l) domain = false)
               results
      ∧ ∃ apiKey response organic,
          SERPER_API_KEY env = Some apiKey ∧ apiKey ≠ ""
          ∧ fetch env apiKey query = Responded response
          ∧ ok response = true
          ∧ json response = Parsed (Some organic)
          ∧ organic ≠ []
          ∧ ∃ kept, kept `sublist_of` organic ∧ results = map toResult kept
  | inr e =>
      ∃ message, e = Js.ErrorObject false "Error" message
        ∧ (message = "SERPER_API_KEY is not configured"
             ∧ Js.falsy (SERPER_API_KEY env) = true
           ∨ String.prefix "Failed to search web: " message = true)
  end
  ∧ (∀ apiKey response organic,
       SERPER_API_KEY env = Some apiKey → apiKey ≠ "" →
       fetch env apiKey query = Responded response →
       ok response = true →
       json response = Parsed (Some organic) →
       organic ≠ [] →
       Forall (λ r, is_Some (organic_link r)) organic →
       searchWeb env query
       = inl (map toResult (take 15 (filter (λ r, allowed r = true) organic)))).
Proof.
  split.
  - unfold searchWeb. destruct (Js.falsy (SERPER_API_KEY env)) eqn:Hkey.
    { eexists. split; [done|]. by left. }
    destruct (SERPER_API_KEY env) as [apiKey|] eqn:Hsome; [|done].
    simpl in Hkey. apply String.eqb_neq in Hkey.
    change (default "" (Some apiKey)) with apiKey.
    destruct (search env apiKey query) as [results|e] eqn:Hsearch.
    + unfold search in Hsearch.
      destruct (fetch env apiKey query) as [|response] eqn:Hfetch; [done|].
      destruct (ok response) eqn:Hok; [|done]. cbn [negb] in Hsearch.
      destruct (json response) as [|[organic|]] eqn:Hjson; [done| |done].
      destruct organic as [|r0 organic]; [done|].
      destruct (keepAllowed (r0 :: organic)) as [filtered|] eqn:Hkeep; [|done].
      injection Hsearch as <-.
      apply keepAllowed_kept in Hkeep as [Hall Hsub].
      rewrite ValidatorProperties.slice_oldest by done.
      change (Z.to_nat 15) with 15%nat.
      split; [rewrite length_map, length_take; lia|]. split.
      * apply List.Forall_map. apply Forall_forall. intros r Hr.
        apply subseteq_take in Hr. rewrite Forall_forall in Hall.
        by apply allowed_spec, Hall.
      * exists apiKey, response, (r0 :: organic). repeat (split; [done|]).
        exists (take 15 filtered). split; [|done].
        etrans; [apply sublist_take|done].
    + destruct (Js.instanceofError e); eexists; (split; [done|]); right;
        [apply prefix_append|done].
  - intros apiKey response organic Hkey Hne Hfetch Hok Hjson Hnil Hlinks.
    unfold searchWeb. rewrite Hkey. simpl.
    apply String.eqb_neq in Hne. rewrite Hne. unfold search.
    rewrite Hfetch, Hok, Hjson. cbn [negb].
    destruct organic as [|r0 organic]; [done|].
    rewrite (keepAllowed_filter _ Hlinks).
    by rewrite ValidatorProperties.slice_oldest by done.
Qed.

End Web.

End SerperProperties.

(** ** The generation passes *)

Module GeneratorProperties.

Import Crawler JsLib Generator TextFacts TopicKeyProperties.

Lemma trim_idem s : Js.trim (Js.trim s) = Js.trim s.
Proof.
  destruct (trim_shape s) as [->|[Hb He]]; [done|].
  unfold Js.trim at 1. by rewrite (trimStart_id _ Hb), (trimEnd_id _ He).
Qed.

Lemma trim_trimmed s : Js.trim s = s → s = "" ∨ (begun s ∧ ended s).
Proof. intros <-. apply trim_shape. Qed.

(** [trim] on a text wrapped in line feeds. *)
Lemma trim_wrapped body :
  Js.trim body = body → Js.trim (LF +:+ body +:+ LF) = body.
Proof.
  intros [->|[Hb He]]%trim_trimmed; [done|].
  unfold Js.trim.
  change (Js.trimStart (LF +:+ body +:+ LF)) with (Js.trimStart (body +:+ LF)).
  rewrite trimStart_id by by apply begun_app.
  unfold Js.trimEnd. unfold LF. rewrite reverse_snoc.
  change (Js.trimStart (String "010" (Js.reverse body)))
    with (Js.trimStart (Js.reverse body)).
  by apply trimEnd_id.
Qed.

Lemma begun_trim s : begun s → ended s → Js.trim s = s.
Proof.
  intros Hb He. unfold Js.trim. by rewrite (trimStart_id _ Hb), (trimEnd_id _ He).
Qed.

Definition fences : list string := ["```markdown"; "```md"; "```"].

(** X23. [stripCodeFences] undoes a fence: a text free of white space
    at its ends, put between an opening line [```markdown], [```md] or
    [```] and a closing line [```], comes back as it was.  A text
    whose trimmed form neither starts nor ends with [```] is only
    trimmed, and what is returned never has white space at its
    ends. *)
Theorem stripCodeFences_unwraps :
  (∀ fence body,
     fence ∈ fences → Js.trim body = body →
     stripCodeFences (fence +:+ LF +:+ body +:+ LF +:+ "```") = body)
  ∧ (∀ content,
       Js.startsWith (Js.trim content) "```" = false →
       Js.endsWith (Js.trim content) "```" = false →
       stripCodeFences content = Js.trim content)
  ∧ (∀ content, Js.trim (stripCodeFences content) = stripCodeFences content).
Proof.
  split; [|split].
  - intros fence body Hfence Hbody.
    assert (∃ c f, fence = String c f ∧ Js.isSpace c = false) as (c0 & f0 & Hf0 & Hc0).
    { unfold fences in Hfence. set_unfold in Hfence.
      destruct Hfence as [->|[->|[->|[]]]]; by eexists _, _. }
    set (inner := LF +:+ body +:+ LF).
    assert (Js.trim (fence +:+ LF +:+ body +:+ LF +:+ "```")
            = fence +:+ inner +:+ "```") as Htrim.
    { unfold inner. rewrite !append_assoc. apply begun_trim.
      - rewrite Hf0. exact Hc0.
      - exists (fence +:+ LF +:+ body +:+ LF +:+ "``"), "`"%char.
        split; [|done]. by rewrite !append_assoc. }
    unfold stripCodeFences. rewrite Htrim. unfold Js.startsWith.
    assert ((if String.prefix "```markdown" (fence +:+ inner +:+ "```")
             then sliceFrom (fence +:+ inner +:+ "```") (strlen "```markdown")
             else if String.prefix "```md" (fence +:+ inner +:+ "```")
             then sliceFrom (fence +:+ inner +:+ "```") (strlen "```md")
             else if String.prefix "```" (fence +:+ inner +:+ "```")
             then sliceFrom (fence +:+ inner +:+ "```") 3
             else fence +:+ inner +:+ "```") = inner +:+ "```") as ->.
    { unfold fences in Hfence. set_unfold in Hfence.
      destruct Hfence as [->|[->|[->|[]]]].
      - rewrite prefix_append. apply sliceFrom_append.
      - replace (String.prefix "```markdown" _) with false by done.
        rewrite prefix_append. apply sliceFrom_append.
      - replace (String.prefix "```markdown" _) with false by done.
        replace (String.prefix "```md" _) with false by done.
        rewrite prefix_append. apply (sliceFrom_append "```"). }
    rewrite endsWith_append.
    pose proof (sliceString_append inner "```") as Hcut.
    change (- strlen "```") with (-3) in Hcut. rewrite Hcut by done.
    by apply trim_wrapped.
  - intros content Hstart Hend. unfold stripCodeFences.
    unfold Js.startsWith in *.
    assert (String.prefix "```markdown" (Js.trim content) = false) as ->.
    { apply not_true_is_false. intros Hp.
      apply (prefix_weaken "```" "markdown") in Hp. congruence. }
    assert (String.prefix "```md" (Js.trim content) = false) as ->.
    { apply not_true_is_false. intros Hp.
      apply (prefix_weaken "```" "md") in Hp. congruence. }
    rewrite Hstart, Hend. apply trim_idem.
  - intros content. apply trim_idem.
Qed.

Lemma afterFirst_found needle s rest :
  afterFirst needle s = Some rest →
  ∃ before,
    s = before +:+ needle +:+ rest
    ∧ ∀ p q, before = p +:+ q → q ≠ "" →
             String.prefix needle (q +:+ needle +:+ rest) = false.
Proof.
  assert (∀ p q, "" = p +:+ q → q ≠ "" → False) as Hnil.
  { intros [|??] [|??]; done. }
  induction s as [|c s IH]; cbn [afterFirst].
  - destruct (String.prefix needle "") eqn:Hp; [|done]. intros [= <-].
    exists "". split; [by apply prefix_split|].
    intros p q Hpq Hq. by destruct (Hnil p q).
  - destruct (String.prefix needle (String c s)) eqn:Hp.
    + intros [= <-]. exists "". split; [by apply prefix_split|].
      intros p q Hpq Hq. by destruct (Hnil p q).
    + intros (before & -> & Hfirst)%IH. exists (String c before).
      split; [done|]. intros [|x p] q Hpq Hq.
      * change ("" +:+ q) with q in Hpq. by rewrite <- Hpq.
      * injection Hpq as _ Hpq. by apply (Hfirst p q).
Qed.

Lemma afterFirst_absent needle s :
  Js.includes s needle = false → afterFirst needle s = None.
Proof.
  induction s as [|c s IH]; cbn [afterFirst Js.includes].
  - rewrite orb_false_r. by intros ->.
  - intros [-> Hs]%orb_false_iff. by apply IH.
Qed.

Lemma textBefore_split needle s :
  needle ≠ "" →
  ∃ rest, s = textBefore needle s +:+ rest
          ∧ (rest = "" ∨ String.prefix needle rest = true)
          ∧ Js.includes (textBefore needle s) needle = false.
Proof.
  intros Hne.
  assert (String.prefix needle "" = false) as Hemp by by destruct needle.
  induction s as [|c s IH]; cbn [textBefore].
  - rewrite Hemp. exists "". split; [done|]. split; [by left|].
    cbn [Js.includes]. by rewrite Hemp.
  - destruct (String.prefix needle (String c s)) eqn:Hp.
    + exists (String c s). split; [done|]. split; [by right|].
      cbn [Js.includes]. by rewrite Hemp.
    + destruct IH as (rest & Hs & Hrest & Hinc). exists rest.
      split; [|split; [done|]].
      * change (String c s = String c (textBefore needle s +:+ rest)).
        by rewrite <- Hs.
      * cbn [Js.includes]. rewrite Hinc, orb_false_r.
        apply not_true_is_false. intros Hq.
        apply (prefix_extend _ _ rest) in Hq.
        change (String c (textBefore needle s) +:+ rest)
          with (String c (textBefore needle s +:+ rest)) in Hq.
        rewrite <- Hs in Hq. congruence.
Qed.

(** What [[^\s\)]+] matched: a text without white space and without
    closing parenthesis. *)
Definition solid (s : string) : Prop :=
  ∀ c, c ∈ String.list_ascii_of_string s → urlChar c = true.

Lemma solidRun_solid s : solid (solidRun s) ∧ String.prefix (solidRun s) s = true.
Proof.
  induction s as [|c s [IH1 IH2]]; simpl.
  - split; [|done]. by intros c ?%elem_of_nil.
  - destruct (urlChar c) eqn:Hc; simpl.
    + split.
      * intros x [->|Hx]%elem_of_cons; [done|by apply IH1].
      * rewrite IH2. by destruct (Ascii.ascii_dec c c).
    + split; [|done]. by intros x ?%elem_of_nil.
Qed.

Lemma urlAt_match s u :
  urlAt s = Some u →
  String.prefix u s = true
  ∧ ∃ rest, (u = "http://" +:+ rest ∨ u = "https://" +:+ rest)
            ∧ rest ≠ "" ∧ solid rest.
Proof.
  unfold urlAt. destruct (String.prefix "https://" s) eqn:Hs.
  - apply prefix_split in Hs. set (x := sliceFrom s (strlen "https://")) in *.
    change (sliceFrom s 8) with x. destruct (String.eqb_spec (solidRun x) ""); [done|].
    intros [= <-]. destruct (solidRun_solid x) as [Hsolid Hpre]. split.
    + rewrite Hs. by apply prefix_scheme.
    + exists (solidRun x). split; [by right|done].
  - destruct (String.prefix "http://" s) eqn:Hs'; [|done].
    apply prefix_split in Hs'. set (x := sliceFrom s (strlen "http://")) in *.
    change (sliceFrom s 7) with x. destruct (String.eqb_spec (solidRun x) ""); [done|].
    intros [= <-]. destruct (solidRun_solid x) as [Hsolid Hpre]. split.
    + rewrite Hs'. by apply prefix_scheme.
    + exists (solidRun x). split; [by left|done].
Qed.

Lemma urlMatches_at s skip u :
  u ∈ urlMatches s skip → ∃ pre t, s = pre +:+ t ∧ urlAt t = Some u.
Proof.
  revert skip. induction s as [|c s IH]; intros skip; cbn [urlMatches].
  { by intros ?%elem_of_nil. }
  assert (∀ k, u ∈ urlMatches s k →
               ∃ pre t, String c s = pre +:+ t ∧ urlAt t = Some u) as Hlater.
  { intros k (pre & t & -> & Ht)%IH. by exists (String c pre), t. }
  destruct skip as [|skip]; [|apply Hlater].
  destruct (urlAt (String c s)) as [v|] eqn:Hv; [|apply Hlater].
  intros [->|Hu]%elem_of_cons; [|by eapply Hlater].
  by exists "", (String c s).
Qed.

(** X24. The URLs that [extractSourceUrls] returns are distinct; each
    is [http://] or [https://] followed by at least one character,
    none of them white space or a closing parenthesis; and each
    stands in the section that follows the first [## Sources] heading
    with an empty line after it, and that ends before the next line
    starting with [##].  Without such a heading nothing is returned. *)
Theorem extractSourceUrls_sound content :
  let heading := "## Sources" +:+ LF +:+ LF in
  NoDup (extractSourceUrls content)
  ∧ (Js.includes content heading = false → extractSourceUrls content = [])
  ∧ ∀ u, u ∈ extractSourceUrls content →
      (∃ rest, (u = "http://" +:+ rest ∨ u = "https://" +:+ rest)
               ∧ rest ≠ "" ∧ solid rest)
      ∧ ∃ before section after,
          content = before +:+ heading +:+ section +:+ after
          ∧ (∀ p q, before = p +:+ q → q ≠ "" →
               String.prefix heading (q +:+ heading +:+ section +:+ after) = false)
          ∧ Js.includes section u = true
          ∧ Js.includes section (LF +:+ "##") = false
          ∧ (after = "" ∨ String.prefix (LF +:+ "##") after = true).
Proof.
  intros heading. unfold extractSourceUrls. fold heading. split; [|split].
  - destruct (afterFirst heading content); [|constructor].
    apply CrawlProperties.dedupe_NoDup.
  - intros Hno. by rewrite afterFirst_absent.
  - intros u. destruct (afterFirst heading content) as [rest|] eqn:Hrest.
    2: { by intros ?%elem_of_nil. }
    intros [Hu _]%CrawlProperties.elem_of_dedupe.
    apply urlMatches_at in Hu as (pre & t & Hsec & Ht).
    apply urlAt_match in Ht as [Hpre Hshape]. split; [done|].
    apply afterFirst_found in Hrest as (before & -> & Hfirst).
    destruct (textBefore_split (LF +:+ "##") rest) as (after & Hsplit & Hafter & Hinc);
      [done|].
    exists before, (textBefore (LF +:+ "##") rest), after.
    rewrite <- Hsplit. split; [done|]. split; [done|]. split; [|done].
    rewrite Hsec. by apply includes_suffix.
Qed.

End GeneratorProperties.
